(** * ts-csp: channels and [select] for TypeScript, verified against the sources

    The development follows the TypeScript sources:
    - [_shuffle.ts]      : the Fisher-Yates shuffle used by [select];
    - [select.ts]        : [SelectError], [select], [waitForOp];
    - [channel-api.ts]   : the [Selectable] interface;
    - [select-helpers.ts]: [sleep], [returnOnAbort].

    JavaScript numbers that index arrays are modelled as [Z], the result of
    [Math.random()] as a rational of [[0,1)], arrays as lists read with
    stdpp's lookup and written with stdpp's insert. *)

From Stdlib Require Import ZArith QArith Qround Lia.
From stdpp Require Import base option list strings.

Open Scope Z_scope.

(** ** [_shuffle.ts] *)

Module Shuffle.

(** [randomInt(minInclusive, maxExclusive)]; the value of [Math.random()]
    is the argument [r].  The product and the sum are exact here, where
    the code rounds them to binary64. *)
Definition randomInt (minInclusive maxExclusive : Z) (r : Q) : Z :=
  let f := (r * inject_Z (maxExclusive - minInclusive) + inject_Z minInclusive)%Q in
  Qfloor f.

(** [0 <= Math.random() < 1] *)
Definition unit_draw (r : Q) : Prop := (0 <= r)%Q ∧ (r < 1)%Q.

Section Arrays.
Context {A : Type}.

(** [array[k]]: [None] stands for the [undefined] that JavaScript reads
    outside the bounds. *)
Definition array_get (array : list A) (k : Z) : option A :=
  if decide (0 ≤ k) then array !! Z.to_nat k else None.

(** [array[k] = x] inside the bounds; outside them JavaScript would grow
    the array (or add a property), which is reported as [None]. *)
Definition array_set (array : list A) (k : Z) (x : A) : option (list A) :=
  if decide (0 ≤ k < Z.of_nat (length array)) then Some (<[Z.to_nat k := x]> array)
  else None.

(** The body of the loop for given [i] and [j]:
    [const ofI = array[i]; array[i] = array[j]; array[j] = ofI]. *)
Definition swap (array : list A) (i j : Z) : option (list A) :=
  ofI ← array_get array i;
  ofJ ← array_get array j;
  array1 ← array_set array i ofJ;
  array_set array1 j ofI.

(** The loop [for (let i = 1; i <= array.length - 1; ++i)], entered at
    [i] with [remaining] iterations left; [rnd k] is the result of the
    [k]-th call of [Math.random()], [calls] the number of calls made so
    far. *)
Fixpoint shuffle_loop (rnd : nat → Q) (calls : nat) (remaining : nat)
    (i : Z) (array : list A) : option (list A) :=
  match remaining with
  | O => Some array
  | S remaining' =>
      let j := randomInt 0 (i + 1) (rnd calls) in
      array' ← swap array i j;
      shuffle_loop rnd (S calls) remaining' (i + 1) array'
  end.

Definition shuffle (rnd : nat → Q) (array : list A) : option (list A) :=
  shuffle_loop rnd 0 (length array - 1) 1 array.

(** The same loop with the drawn indices given: [js] holds [j] for
    [i], [i + 1], ... *)
Fixpoint swaps (i : Z) (js : list Z) (array : list A) : option (list A) :=
  match js with
  | [] => Some array
  | j :: js' => array' ← swap array i j; swaps (i + 1) js' array'
  end.

(** The indices drawn by the loop entered at [i]. *)
Fixpoint drawn (rnd : nat → Q) (calls : nat) (remaining : nat) (i : Z) : list Z :=
  match remaining with
  | O => []
  | S remaining' =>
      randomInt 0 (i + 1) (rnd calls) :: drawn rnd (S calls) remaining' (i + 1)
  end.

(** After the iterations [i = 1 .. m] the array [p] is a permutation of
    the original one that differs from it in the positions [0 .. m]
    only. *)
Definition reach (m : nat) (array p : list A) : Prop :=
  p ≡ₚ array ∧ ∀ k : nat, (m < k)%nat → p !! k = array !! k.

End Arrays.

(** Indices the loop can draw: [js !! k] is the index drawn at
    [i = k + 1], so [0 <= j <= i]. *)
Definition draws_upto (js : list Z) : Prop :=
  ∀ (k : nat) (j : Z), js !! k = Some j → 0 ≤ j ≤ Z.of_nat k + 1.

(** A tuple of indices the loop can draw on an array of length [n]:
    one index [0 <= j <= i] for each [i = 1 .. n - 1]. *)
Definition valid_draws (n : nat) (js : list Z) : Prop :=
  length js = (n - 1)%nat ∧ draws_upto js.

(** All the tuples of [valid_draws n], enumerated. *)
Fixpoint all_draws_upto (m : nat) : list (list Z) :=
  match m with
  | O => [[]]
  | S m' =>
      js ← all_draws_upto m';
      j ← seq 0 (S (S m'));
      [js ++ [Z.of_nat j]]
  end.

Definition all_draws (n : nat) : list (list Z) := all_draws_upto (n - 1).

End Shuffle.


(** ** JavaScript values that [select] handles *)

Module Js.

(** Values: what a promise resolves with, and what is thrown.  [Error] is
    [new Error(message)], [TypeError] what the runtime throws on a property
    access on [undefined]; the other errors are the classes of the
    library. *)
Inductive Value : Type :=
| Undefined
| Null
| Num (n : Z)
| Str (s : string)
| Error (message : string)
| TypeError
| AbortedError
| CannotWriteIntoClosedChannel
| SelectError (argName : string) (cause : Value).

(** A settled promise. *)
Inductive Outcome (T : Type) : Type :=
| Fulfilled (value : T)
| Rejected (reason : Value).
Global Arguments Fulfilled {T} value.
Global Arguments Rejected {T} reason.

End Js.

(** ** [select.ts] and [channel-api.ts] *)

Module Select.
Import Js.

Definition SelectableId := nat.
Definition PromiseId := nat.
Definition FunctionId := nat.
(** An [AbortController]; its [signal] is identified with it. *)
Definition AbortController := nat.

(** [SelectOp]: a [Selectable], a [Promise] or a function from an
    [AbortSignal] to a [Promise], each known by its identity;
    [NullableSelectOp] adds [null]. *)
Inductive SelectOp : Type :=
| OpSelectable (self : SelectableId)
| OpPromise (p : PromiseId)
| OpFunction (fn : FunctionId).

Definition NullableSelectOp := option SelectOp.

(** [Object.entries(ops)] of a [SelectOpsMap], in the order of the
    entries. *)
Definition SelectOpsMap := list (string * NullableSelectOp).

(** [SelectResult]: [{ type, value }]. *)
Record SelectResult : Type := { type : string; value : Value }.

(** [WaitResult]:
    [{ type: 'promise', name, value }] or
    [{ type: 'selectable', name, index, self }]. *)
Inductive WaitResult : Type :=
| WaitPromise (name : string) (value : Value)
| WaitSelectable (name : string) (index : nat) (self : SelectableId).

(** [SelectableAttemptResult]: [{ ok: true, value }] or [{ ok: false }]. *)
Inductive SelectableAttemptResult : Type :=
| Ok (value : Value)
| NotOk.

(** The promises of user code: the ones given as operations, and the ones
    made by the calls of [select] into user code ([op(signal)] and
    [self.wait(value, signal)]), known by the number of the call. *)
Inductive PromiseRef : Type :=
| Given (p : PromiseId)
| Made (call : nat).

Global Instance PromiseRef_eq_dec : EqDecision PromiseRef.
Proof. solve_decision. Defined.

(** The promises that [select] races, as the expressions that build
    them. *)
Inductive Raced : Type :=
| ThenTag (source : PromiseRef) (name : string)
    (** [source.then(value => ({ type: 'promise', name, value }),
                     error => { throw new SelectError(name, error) })] *)
| CatchWrap (source : PromiseRef) (tag : WaitResult) (name : string)
    (** [source.catch(error => { throw new SelectError(name, error) })],
        [source] returned by [op.wait(tag, signal)] *)
| Waiting (source : PromiseRef) (tag : WaitResult).
    (** [source], returned by [self.wait(tag, signal)] *)

(** The number of [then()]/[catch()] between the promise of user code and
    the raced promise. *)
Definition continuations (p : Raced) : nat :=
  match p with
  | ThenTag _ _ => 1
  | CatchWrap _ _ _ => 1
  | Waiting _ _ => 0
  end.

Definition source_of (p : Raced) : PromiseRef :=
  match p with
  | ThenTag source _ => source
  | CatchWrap source _ _ => source
  | Waiting source _ => source
  end.

(** What user code answers when [select] calls it. *)
Inductive CallAnswer : Type :=
| Returns (initial : option (Outcome Value))
    (** returns a promise, pending or settled already *)
| Throws (exception : Value).

Inductive AttemptAnswer : Type :=
| Attempted (result : SelectableAttemptResult)
| AttemptThrows (exception : Value).

(** What happens in one job of user code while [select] is suspended:
    promises of user code settle, in this order.  Between two turns the
    promise jobs that are queued run to the end. *)
Definition Turn := list (PromiseRef * Outcome Value).

(** The environment of one call of [select].  The calls of [select] into
    user code are numbered from the value of [calls] at the start, in the
    order in which they are made. *)
Record Env : Type := {
  (** the result of the [k]-th [Math.random()] *)
  random : nat → Q;
  (** [fn(signal)], made as call number [call] *)
  answer_function : FunctionId → nat → CallAnswer;
  (** [self.wait(value, signal)], made as call number [call]; a promise
      that it returns resolves with [value] *)
  answer_wait : SelectableId → nat → CallAnswer;
  (** [self.attempt()], made as call number [call] *)
  answer_attempt : SelectableId → nat → AttemptAnswer;
}.

Inductive Event : Type :=
| EvNewAbortController (c : AbortController)
| EvCall (fn : FunctionId) (signal : AbortController) (call : nat)
| EvWait (self : SelectableId) (tag : WaitResult) (signal : AbortController) (call : nat)
| EvRace (promises : list (option Raced))
| EvAttempt (self : SelectableId) (answer : AttemptAnswer)
| EvAbort (c : AbortController)
| EvResolved (result : SelectResult)
| EvRejected (reason : Value).

Record World : Type := {
  (** the promises of user code that are settled *)
  settled : PromiseRef → option (Outcome Value);
  (** what will happen at the next suspensions *)
  turns : list Turn;
  (** the number of calls made into user code *)
  calls : nat;
  (** the number of [AbortController]s made *)
  controllers : nat;
  (** the controllers aborted *)
  aborted : list AbortController;
  (** what was done, the latest last *)
  log : list Event;
}.

(** How a piece of code ends. *)
Inductive Completion (A : Type) : Type :=
| Normal (a : A)
| Throw (exception : Value)
| Suspended   (** waits at an [await] for ever *)
| OutOfFuel.  (** still running when the fuel of the model ran out *)
Global Arguments Normal {A} a.
Global Arguments Throw {A} exception.
Global Arguments Suspended {A}.
Global Arguments OutOfFuel {A}.

Definition M (A : Type) : Type := World → Completion A * World.

Definition ret {A} (a : A) : M A := λ w, (Normal a, w).
Definition throw {A} (exception : Value) : M A := λ w, (Throw exception, w).
Definition bind {A B} (m : M A) (k : A → M B) : M B := λ w,
  match m w with
  | (Normal a, w') => k a w'
  | (Throw e, w') => (Throw e, w')
  | (Suspended, w') => (Suspended, w')
  | (OutOfFuel, w') => (OutOfFuel, w')
  end.

Global Instance M_ret : MRet M := @ret.
Global Instance M_bind : MBind M := λ A B k m, bind m k.

(** [try { m } catch (exception) { handler }] *)
Definition try_catch {A} (m : M A) (handler : Value → M A) : M A := λ w,
  match m w with
  | (Throw e, w') => handler e w'
  | r => r
  end.

(** [try { m } finally { cleanup }] *)
Definition try_finally {A} (m : M A) (cleanup : M unit) : M A := λ w,
  match m w with
  | (Normal a, w') => (cleanup;; ret a) w'
  | (Throw e, w') => (cleanup;; throw e) w'
  | r => r
  end.

Definition emit (ev : Event) : M unit := λ w,
  (Normal tt,
   {| settled := settled w; turns := turns w; calls := calls w;
      controllers := controllers w; aborted := aborted w;
      log := log w ++ [ev] |}).

(** A promise settles once: a second settlement is ignored. *)
Definition settle (ref : PromiseRef) (o : Outcome Value)
    (s : PromiseRef → option (Outcome Value)) : PromiseRef → option (Outcome Value) :=
  λ r, if decide (r = ref)
       then match s r with Some o' => Some o' | None => Some o end
       else s r.

Definition set_settled (s : PromiseRef → option (Outcome Value)) (t : list Turn) : M unit :=
  λ w,
  (Normal tt,
   {| settled := s; turns := t; calls := calls w;
      controllers := controllers w; aborted := aborted w; log := log w |}).

(** [new AbortController()] *)
Definition newAbortController : M AbortController := λ w,
  let c := controllers w in
  (Normal c,
   {| settled := settled w; turns := turns w; calls := calls w;
      controllers := S c; aborted := aborted w;
      log := log w ++ [EvNewAbortController c] |}).

(** [c.abort()] *)
Definition abort (c : AbortController) : M unit := λ w,
  (Normal tt,
   {| settled := settled w; turns := turns w; calls := calls w;
      controllers := controllers w; aborted := c :: aborted w;
      log := log w ++ [EvAbort c] |}).

(** The number of the next call into user code. *)
Definition next_call : M nat := λ w,
  (Normal (calls w),
   {| settled := settled w; turns := turns w; calls := S (calls w);
      controllers := controllers w; aborted := aborted w; log := log w |}).

(** A call that returns a promise: the promise is [Made call]. *)
Definition returned (call : nat) (answer : CallAnswer) : M PromiseRef :=
  match answer with
  | Throws exception => throw exception
  | Returns None => ret (Made call)
  | Returns (Some o) =>
      (λ w, set_settled (settle (Made call) o (settled w)) (turns w) w);;
      ret (Made call)
  end.

(** What the raced promise [p] settles with when its source settles with
    [o].  A promise returned by [wait(tag, signal)] resolves with [tag]. *)
Definition adapt (p : Raced) (o : Outcome Value) : Outcome (option WaitResult) :=
  match p, o with
  | ThenTag _ name, Fulfilled value => Fulfilled (Some (WaitPromise name value))
  | ThenTag _ name, Rejected error => Rejected (SelectError name error)
  | CatchWrap _ tag _, Fulfilled _ => Fulfilled (Some tag)
  | CatchWrap _ _ name, Rejected error => Rejected (SelectError name error)
  | Waiting _ tag, Fulfilled _ => Fulfilled (Some tag)
  | Waiting _ _, Rejected error => Rejected error
  end.

(** What an element of the raced array is settled with, given the settled
    promises of user code.  A hole of the array is raced as
    [Promise.resolve(undefined)], written [Fulfilled None]. *)
Definition observe (s : PromiseRef → option (Outcome Value)) (p : option Raced)
    : option (Outcome (option WaitResult)) :=
  match p with
  | None => Some (Fulfilled None)
  | Some p => adapt p <$> s (source_of p)
  end.

(** [Promise.race] of promises some of which are settled: the first
    settled one in the order of the array. *)
Fixpoint first_settled (s : PromiseRef → option (Outcome Value))
    (promises : list (option Raced)) : option (Outcome (option WaitResult)) :=
  match promises with
  | [] => None
  | p :: rest =>
      match observe s p with
      | Some o => Some o
      | None => first_settled s rest
      end
  end.

(** The settlements of a turn, in the order of time, as they reach raced
    promises that are as many continuations away from their sources: the
    first of [promises] that gets settled. *)
Fixpoint play_turn (turn : Turn) (s : PromiseRef → option (Outcome Value))
    (promises : list (option Raced)) (winner : option (Outcome (option WaitResult)))
    : (PromiseRef → option (Outcome Value)) * option (Outcome (option WaitResult)) :=
  match turn with
  | [] => (s, winner)
  | (ref, o) :: rest =>
      let s' := settle ref o s in
      let winner' :=
        match winner with
        | Some _ => winner
        | None => first_settled s' promises
        end in
      play_turn rest s' promises winner'
  end.

(** A raced promise that settles in the job in which its source does: the
    promise of a wait made again, which is raced as [wait()] returned it
    (and a hole of the array). *)
Definition immediate (p : option Raced) : Prop :=
  match p with
  | Some p => continuations p = 0%nat
  | None => True
  end.

Global Instance immediate_dec p : Decision (immediate p).
Proof. destruct p; simpl; apply _. Defined.

(** The race over one turn.  The reaction that [Promise.race] has put on
    a raced promise is queued when the promise settles: for a promise
    raced as it is, in the job that settles it; for a promise made by
    [then()]/[catch()], in the job of its handler, which is queued behind
    the jobs of the turn.  So the first raced promise without continuation
    that the turn settles wins; when there is none, the first raced promise
    whose source the turn settles. *)
Definition race_turn (turn : Turn) (s : PromiseRef → option (Outcome Value))
    (promises : list (option Raced))
    : (PromiseRef → option (Outcome Value)) * option (Outcome (option WaitResult)) :=
  match play_turn turn s (filter immediate promises) None with
  | (s', Some o) => (s', Some o)
  | (_, None) => play_turn turn s promises None
  end.

(** Suspended on a race none of whose promises is settled: turns pass
    until one is. *)
Fixpoint await_turns (t : list Turn) (s : PromiseRef → option (Outcome Value))
    (promises : list (option Raced))
    : (PromiseRef → option (Outcome Value)) * list Turn *
      option (Outcome (option WaitResult)) :=
  match t with
  | [] => (s, [], None)
  | turn :: rest =>
      match race_turn turn s promises with
      | (s', Some o) => (s', rest, Some o)
      | (s', None) => await_turns rest s' promises
      end
  end.

Definition settled_as {A} (o : option (Outcome A)) : M A :=
  match o with
  | Some (Fulfilled value) => ret value
  | Some (Rejected reason) => throw reason
  | None => λ w, (Suspended, w)
  end.

(** The settlement of [Promise.race(promises)]. *)
Definition race_settlement (promises : list (option Raced)) : M (option WaitResult) :=
  λ w,
  match first_settled (settled w) promises with
  | Some o => settled_as (Some o) w
  | None =>
      let '(s', t', o) := await_turns (turns w) (settled w) promises in
      (set_settled s' t';; settled_as o) w
  end.

(** [await Promise.race(promises)] *)
Definition await_race (promises : list (option Raced)) : M (option WaitResult) :=
  emit (EvRace promises);;
  race_settlement promises.

(** [promises[index] = p]: inside the array the element is replaced; at
    its end the array grows by one; beyond it the array grows with holes
    in between. *)
Definition array_assign {A} (promises : list (option A)) (index : nat) (p : A)
    : list (option A) :=
  if decide (index < length promises)%nat
  then <[index := Some p]> promises
  else promises ++ replicate (index - length promises) None ++ [Some p].

(** [JSON.stringify] of a string, the string being given by its bytes in
    UTF-8: the quote, the backslash and the control characters are
    escaped. *)
Definition quote : string := String (Ascii.ascii_of_nat 34) EmptyString.

Definition hex_digit (n : nat) : Ascii.ascii :=
  default (Ascii.ascii_of_nat 48) (String.get n "0123456789abcdef").

Definition backslash : string := String (Ascii.ascii_of_nat 92) EmptyString.

Definition JSON_escape (c : Ascii.ascii) : string :=
  let n := Ascii.nat_of_ascii c in
  if decide (n = 34)%nat then backslash +:+ quote
  else if decide (n = 92)%nat then backslash +:+ backslash
  else if decide (n = 8)%nat then backslash +:+ "b"
  else if decide (n = 9)%nat then backslash +:+ "t"
  else if decide (n = 10)%nat then backslash +:+ "n"
  else if decide (n = 12)%nat then backslash +:+ "f"
  else if decide (n = 13)%nat then backslash +:+ "r"
  else if decide (n < 32)%nat
       then backslash +:+ "u00" +:+
            String (hex_digit (n / 16)) (String (hex_digit (n mod 16)) EmptyString)
       else String c EmptyString.

Fixpoint JSON_escape_all (s : string) : string :=
  match s with
  | EmptyString => EmptyString
  | String c rest => JSON_escape c +:+ JSON_escape_all rest
  end.

Definition JSON_stringify_string (s : string) : string :=
  quote +:+ JSON_escape_all s +:+ quote.

(** [JSON.stringify(ops)] on a map whose operations are all [null]. *)
Definition JSON_stringify_nulls (ops : SelectOpsMap) : string :=
  "{" +:+ String.concat "," (map (λ e, JSON_stringify_string (fst e) +:+ ":null") ops) +:+ "}".

Section WithEnv.
Context (env : Env).

(** [Object.entries(ops)] shuffled.  With [Math.random()] outside [[0,1)]
    the shuffle could leave a hole, and destructuring it in the callback
    of [forEach] throws. *)
Definition shuffled_entries (ops : SelectOpsMap) : M (list (string * NullableSelectOp)) :=
  match Shuffle.shuffle (random env) ops with
  | Some nameAndOp => ret nameAndOp
  | None => throw TypeError
  end.

(** [fn(signal)] *)
Definition call_function (fn : FunctionId) (signal : AbortController) : M PromiseRef :=
  call ← next_call;
  emit (EvCall fn signal call);;
  returned call (answer_function env fn call).

(** [self.wait(value, signal)] *)
Definition wait (self : SelectableId) (value : WaitResult) (signal : AbortController)
    : M PromiseRef :=
  call ← next_call;
  emit (EvWait self value signal call);;
  returned call (answer_wait env self call).

(** [self.attempt()] *)
Definition attempt (self : SelectableId) : M SelectableAttemptResult :=
  call ← next_call;
  let answer := answer_attempt env self call in
  emit (EvAttempt self answer);;
  match answer with
  | Attempted result => ret result
  | AttemptThrows exception => throw exception
  end.

Definition waitForOp (op : SelectOp) (name : string) (index : nat)
    (signal : AbortController) : M Raced :=
  match op with
  | OpPromise p =>
      ret (ThenTag (Given p) name)
  | OpFunction fn =>
      source ← call_function fn signal;
      ret (ThenTag source name)
  | OpSelectable self =>
      let tag := WaitSelectable name index self in
      source ← wait self tag signal;
      ret (CatchWrap source tag name)
  end.

(** [nameAndOp.forEach(([name, op], index) => { ... })], from [index]
    on. *)
Fixpoint forEach (signal : AbortController) (nameAndOp : list (string * NullableSelectOp))
    (index : nat) (promises : list (option Raced)) : M (list (option Raced)) :=
  match nameAndOp with
  | [] => ret promises
  | (name, op) :: rest =>
      match op with
      | None => forEach signal rest (S index) promises
      | Some op =>
          p ← waitForOp op name index signal;
          forEach signal rest (S index) (promises ++ [Some p])
      end
  end.

(** [while (true) { ... }] of [select], for at most [fuel] iterations. *)
Fixpoint race_loop (fuel : nat) (c : AbortController) (promises : list (option Raced))
    : M SelectResult :=
  match fuel with
  | O => λ w, (OutOfFuel, w)
  | S fuel' =>
      winner ← await_race promises;
      match winner with
      | None => throw TypeError
      | Some (WaitPromise name value) =>
          ret {| type := name; value := value |}
      | Some (WaitSelectable name index self as winner) =>
          attemptResult ←
            try_catch (attempt self)
                      (λ exception, throw (SelectError name exception));
          match attemptResult with
          | Ok value => ret {| type := name; value := value |}
          | NotOk =>
              p ← wait self winner c;
              race_loop fuel' c (array_assign promises index (Waiting p winner))
          end
      end
  end.

Definition select (fuel : nat) (ops : SelectOpsMap) : M SelectResult :=
  c ← newAbortController;
  nameAndOp ← shuffled_entries ops;
  promises ← forEach c nameAndOp 0 [];
  if decide (length promises = 0)%nat
  then throw (Error ("select() requires at least one non-null operation. Received: "
                     +:+ JSON_stringify_nulls ops))
  else try_finally (race_loop fuel c promises) (abort c).

(** The call [select(ops)] of an [async] function: the promise that it
    returns settles when the body ends. *)
Definition select_call (fuel : nat) (ops : SelectOpsMap) : World → World := λ w,
  match select fuel ops w with
  | (Normal result, w') => snd (emit (EvResolved result) w')
  | (Throw reason, w') => snd (emit (EvRejected reason) w')
  | (_, w') => w'
  end.

End WithEnv.

(** The [index] that the value of a wait carries. *)
Definition index_of_tag (p : Raced) : option nat :=
  match p with
  | CatchWrap _ (WaitSelectable _ index _) _ | Waiting _ (WaitSelectable _ index _) =>
      Some index
  | _ => None
  end.

(** The raced array has no hole, and each promise of a wait is at the
    position that its value carries as [index]. *)
Definition aligned (promises : list (option Raced)) : Prop :=
  ∀ k e, promises !! k = Some e →
    ∃ p, e = Some p ∧ (index_of_tag p = None ∨ index_of_tag p = Some k).

(** A world in which nothing has happened yet: [s] gives the promises
    that are settled, [t] what will happen. *)
Definition initial_world (s : PromiseRef → option (Outcome Value)) (t : list Turn) : World :=
  {| settled := s; turns := t; calls := 0; controllers := 0; aborted := []; log := [] |}.

(** *** Vocabulary of the properties of [select] *)

Definition no_operation_error (ops : SelectOpsMap) : Value :=
  Error ("select() requires at least one non-null operation. Received: "
         +:+ JSON_stringify_nulls ops).

(** [below s s']: what is settled in [s] is settled in [s'], with the same
    outcome. *)
Definition below (s s' : PromiseRef → option (Outcome Value)) : Prop :=
  ∀ ref o, s ref = Some o → s' ref = Some o.

(** [evolves P w w']: from [w] to [w'] events of [P] were logged, settled
    promises stayed as they were, and no controller was made or aborted. *)
Definition evolves (P : Event → Prop) (w w' : World) : Prop :=
  (∃ events, log w' = log w ++ events ∧ Forall P events) ∧
  (∀ ref o, settled w ref = Some o → settled w' ref = Some o) ∧
  aborted w' = aborted w ∧ controllers w' = controllers w.

Definition evolving (P : Event → Prop) {A} (m : M A) : Prop :=
  ∀ w r w', m w = (r, w') → evolves P w w'.

(** The winner of a race is one of the raced promises (or a hole), with
    what it is settled with. *)
Definition settled_with (s : PromiseRef → option (Outcome Value))
    (promises : list (option Raced)) (o : Outcome (option WaitResult)) : Prop :=
  ∃ i p, promises !! i = Some p ∧ observe s p = Some o.

(** The raced promise [p] was made for an operation of [ops]: it carries
    the name of an entry whose operation is its source. *)
Definition of_operation (ops : SelectOpsMap) (events : list Event) (p : option Raced) : Prop :=
  match p with
  | None => True
  | Some (ThenTag (Given q) name) => (name, Some (OpPromise q)) ∈ ops
  | Some (ThenTag (Made call) name) =>
      ∃ fn signal, (name, Some (OpFunction fn)) ∈ ops ∧ EvCall fn signal call ∈ events
  | Some (CatchWrap _ (WaitSelectable n _ self) name) =>
      n = name ∧ (name, Some (OpSelectable self)) ∈ ops
  | Some (Waiting _ (WaitSelectable n _ self)) => (n, Some (OpSelectable self)) ∈ ops
  | Some _ => False
  end.

(** What the operation [op] has produced in the world [w]: the value a
    promise is fulfilled with, the value the promise returned by a call of
    the function is fulfilled with, the value of the attempt just made. *)
Definition produced (w : World) (op : SelectOp) (v : Value) : Prop :=
  match op with
  | OpPromise p => settled w (Given p) = Some (Fulfilled v)
  | OpFunction fn =>
      ∃ signal call, EvCall fn signal call ∈ log w ∧
                     settled w (Made call) = Some (Fulfilled v)
  | OpSelectable self =>
      ∃ events, log w = events ++ [EvAttempt self (Attempted (Ok v))]
  end.

(** The world after [new AbortController()], after [c.abort()]. *)
Definition after_new (w : World) : World :=
  {| settled := settled w; turns := turns w; calls := calls w;
     controllers := S (controllers w); aborted := aborted w;
     log := log w ++ [EvNewAbortController (controllers w)] |}.

Definition after_abort (c : AbortController) (w : World) : World :=
  {| settled := settled w; turns := turns w; calls := calls w;
     controllers := controllers w; aborted := c :: aborted w;
     log := log w ++ [EvAbort c] |}.

(** The code returned or threw. *)
Definition exited {A} (r : Completion A) : Prop :=
  match r with Normal _ | Throw _ => True | _ => False end.

(** The events of the start of [select]: calls that are given the signal
    [c]. *)
Definition start_event (c : AbortController) (ev : Event) : Prop :=
  match ev with
  | EvCall _ signal _ | EvWait _ _ signal _ => signal = c
  | _ => False
  end.

(** The events of [select] between the making of its controller and its
    exit: calls that are given the signal [c], races and attempts. *)
Definition signalled (c : AbortController) (ev : Event) : Prop :=
  match ev with
  | EvCall _ signal _ | EvWait _ _ signal _ => signal = c
  | EvRace _ | EvAttempt _ _ => True
  | _ => False
  end.

Definition exit_event (ev : Event) : Prop :=
  match ev with EvResolved _ | EvRejected _ => True | _ => False end.

(** At every exit recorded in [events], the controller [c] was made, then
    user code was called with its signal only, and [c] was aborted just
    before the exit. *)
Definition aborted_before_exit (c : AbortController) (events : list Event) : Prop :=
  ∀ before o after, events = before ++ o :: after → exit_event o →
    ∃ middle, before = EvNewAbortController c :: middle ++ [EvAbort c] ∧
              Forall (signalled c) middle.

End Select.

(** ** The promise jobs of one race

    How the runtime schedules the reactions of the promises that [select]
    races: each [then()]/[catch()] of [waitForOp], each [then()] that
    [Promise.race] puts on a raced promise, and the [await], is a job of
    the microtask queue, run in the order in which the jobs were queued. *)

Module Microtask.
Import Js Select.

Definition Settlement := Outcome (option WaitResult).

Inductive Job : Type :=
| Adapt (k : nat) (p : Raced) (o : Outcome Value)
    (** the handler that [waitForOp] gave to [then()]/[catch()] for the
        raced promise at position [k], called with the settlement of its
        source *)
| Win (o : Settlement)
    (** the [resolve]/[reject] of the promise of [Promise.race], called
        with the settlement of a raced promise *)
| Resume (o : Settlement).
    (** the rest of [select] after [await] *)

(** A raced promise: its state, and whether [Promise.race] has put its
    reaction on it. *)
Record Cell : Type := { state : option Settlement; in_race : bool }.

Record Engine : Type := {
  cells : nat → Cell;
  (** the raced promises whose sources are not settled yet: the handlers
      registered on the sources and, without a continuation, the sources
      themselves *)
  registered : list (PromiseRef * nat * Raced);
  queue : list Job;
  race : option Settlement;
  awaiting : bool;
  resumed : option Settlement;
}.

Definition empty : Engine :=
  {| cells := λ _, {| state := None; in_race := false |};
     registered := []; queue := []; race := None; awaiting := false;
     resumed := None |}.

Definition set_cell (k : nat) (c : Cell) (e : Engine) : Engine :=
  {| cells := λ i, if decide (i = k) then c else cells e i;
     registered := registered e; queue := queue e; race := race e;
     awaiting := awaiting e; resumed := resumed e |}.

Definition enqueue (j : Job) (e : Engine) : Engine :=
  {| cells := cells e; registered := registered e; queue := queue e ++ [j];
     race := race e; awaiting := awaiting e; resumed := resumed e |}.

Definition register (source : PromiseRef) (k : nat) (p : Raced) (e : Engine) : Engine :=
  {| cells := cells e; registered := registered e ++ [(source, k, p)];
     queue := queue e; race := race e; awaiting := awaiting e;
     resumed := resumed e |}.

(** The raced promise [p] is made at position [k], the promises of user
    code being settled as [s] says.  With a continuation the raced promise
    is a new, pending one, and the handler is queued at once when the
    source is settled; without one the raced promise is the source. *)
Definition make (s : PromiseRef → option (Outcome Value)) (k : nat) (p : Raced)
    (e : Engine) : Engine :=
  match continuations p with
  | O =>
      let e := set_cell k {| state := adapt p <$> s (source_of p); in_race := false |} e in
      match s (source_of p) with
      | Some _ => e
      | None => register (source_of p) k p e
      end
  | S _ =>
      let e := set_cell k {| state := None; in_race := false |} e in
      match s (source_of p) with
      | Some o => enqueue (Adapt k p o) e
      | None => register (source_of p) k p e
      end
  end.

Fixpoint make_all (s : PromiseRef → option (Outcome Value)) (k : nat)
    (promises : list Raced) (e : Engine) : Engine :=
  match promises with
  | [] => e
  | p :: rest => make_all s (S k) rest (make s k p e)
  end.

(** [Promise.race(promises)] puts a reaction on each promise, in the
    order of the array: on a settled promise the job is queued at once. *)
Definition race_one (k : nat) (e : Engine) : Engine :=
  match state (cells e k) with
  | Some o => enqueue (Win o) e
  | None => set_cell k {| state := None; in_race := true |} e
  end.

Fixpoint race_all (k : nat) (n : nat) (e : Engine) : Engine :=
  match n with
  | O => e
  | S n' => race_all (S k) n' (race_one k e)
  end.

(** [await] of the promise of the race. *)
Definition await (e : Engine) : Engine :=
  match race e with
  | Some o => enqueue (Resume o) e
  | None =>
      {| cells := cells e; registered := registered e; queue := queue e;
         race := race e; awaiting := true; resumed := resumed e |}
  end.

(** The raced promise at position [k] settles with [r]: the reaction that
    [Promise.race] has put on it is queued. *)
Definition settle_raced (k : nat) (r : Settlement) (e : Engine) : Engine :=
  let racing := in_race (cells e k) in
  let e := set_cell k {| state := Some r; in_race := racing |} e in
  if racing then enqueue (Win r) e else e.

Definition run_job (j : Job) (e : Engine) : Engine :=
  match j with
  | Adapt k p o => settle_raced k (adapt p o) e
  | Win o =>
      match race e with
      | Some _ => e
      | None =>
          let e' :=
            {| cells := cells e; registered := registered e; queue := queue e;
               race := Some o; awaiting := awaiting e; resumed := resumed e |} in
          if awaiting e then enqueue (Resume o) e' else e'
      end
  | Resume o =>
      {| cells := cells e; registered := registered e; queue := queue e;
         race := race e; awaiting := awaiting e; resumed := Some o |}
  end.

(** One job of the queue. *)
Definition step (e : Engine) : Engine :=
  match queue e with
  | [] => e
  | j :: rest =>
      run_job j
        {| cells := cells e; registered := registered e; queue := rest;
           race := race e; awaiting := awaiting e; resumed := resumed e |}
  end.

Fixpoint run (jobs : nat) (e : Engine) : Engine :=
  match jobs with
  | O => e
  | S jobs' => run jobs' (step e)
  end.

(** A promise of user code settles with [o].  A raced promise that is
    this promise is settled now; a handler registered on it is queued. *)
Definition settle_registered (o : Outcome Value) (e : Engine)
    (r : PromiseRef * nat * Raced) : Engine :=
  match continuations r.2 with
  | O => settle_raced r.1.2 (adapt r.2 o) e
  | S _ => enqueue (Adapt r.1.2 r.2 o) e
  end.

Definition settle_source (ref : PromiseRef) (o : Outcome Value) (e : Engine) : Engine :=
  foldl (settle_registered o)
    {| cells := cells e;
       registered := filter (λ r, r.1.1 ≠ ref) (registered e);
       queue := queue e; race := race e; awaiting := awaiting e;
       resumed := resumed e |}
    (filter (λ r, r.1.1 = ref) (registered e)).

(** The handlers that [make_all] queues, from position [k] on. *)
Fixpoint handlers (s : PromiseRef → option (Outcome Value)) (k : nat)
    (promises : list Raced) : list (nat * Raced * Outcome Value) :=
  match promises with
  | [] => []
  | p :: rest =>
      match s (source_of p) with
      | Some o => (k, p, o) :: handlers s (S k) rest
      | None => handlers s (S k) rest
      end
  end.

Definition handler_job (h : nat * Raced * Outcome Value) : Job := Adapt h.1.1 h.1.2 h.2.
Definition handler_result (h : nat * Raced * Outcome Value) : Settlement := adapt h.1.2 h.2.

(** Raced with one continuation, from a settled source. *)
Definition ready_after_one (s : PromiseRef → option (Outcome Value)) (p : Raced) : Prop :=
  continuations p = 1%nat ∧ is_Some (s (source_of p)).

(** The first race of [select]: the raced promises are made, raced and
    awaited in one go, then [jobs] jobs run. *)
Definition first_race (s : PromiseRef → option (Outcome Value)) (promises : list Raced)
    (jobs : nat) : option Settlement :=
  resumed (run jobs (await (race_all 0 (length promises) (make_all s 0 promises empty)))).

(** A later race of [select]: the raced promises are there, their sources
    pending; they are raced and awaited, the promises of [turn] settle in
    one job, then [jobs] jobs run. *)
Definition later_race (promises : list Raced) (turn : Turn) (jobs : nat)
    : option Settlement :=
  let e := await (race_all 0 (length promises) (make_all (λ _, None) 0 promises empty)) in
  resumed (run jobs (foldl (λ e t, settle_source t.1 t.2 e) e turn)).

(** Small cases on which the race of [race_turn] is compared with this
    queue: the arrays of at most [n] raced promises, each in one of the
    three forms on one of three promises of user code, and the turns of at
    most [m] settlements of these promises. *)
Definition small_sources : list PromiseRef := [Given 0; Made 1; Made 2]%nat.

Definition small_forms (k : nat) : list Raced :=
  source ← small_sources;
  [ThenTag source "p";
   CatchWrap source (WaitSelectable "s" k 0%nat) "s";
   Waiting source (WaitSelectable "s" k 0%nat)].

Fixpoint small_arrays (n k : nat) : list (list Raced) :=
  match n with
  | O => [[]]
  | S n' => [] :: (p ← small_forms k; rest ← small_arrays n' (S k); [p :: rest])
  end.

Definition small_settlements : Turn :=
  source ← small_sources;
  [(source, Fulfilled (Num 7)); (source, Rejected (Error "boom"))].

Fixpoint small_turns (m : nat) : list Turn :=
  match m with
  | O => [[]]
  | S m' => [] :: (settlement ← small_settlements; rest ← small_turns m'; [settlement :: rest])
  end.

Local Instance Value_eq_dec : EqDecision Value.
Proof.
  unfold EqDecision, Decision. fix IH 1. intros x y.
  decide equality; try apply Z.eq_dec; apply String.string_dec.
Defined.

Local Instance WaitResult_eq_dec : EqDecision WaitResult.
Proof. solve_decision. Defined.

Local Instance Settlement_eq_dec : EqDecision Settlement.
Proof. solve_decision. Defined.

(** The queue, run for [jobs] jobs, and [race_turn] settle the race of
    [promises] over [turn] in the same way. *)
Definition queued_as_raced (jobs : nat) (promises : list Raced) (turn : Turn) : bool :=
  bool_decide (later_race promises turn jobs
               = (race_turn turn (λ _, None) (Some <$> promises)).2).

End Microtask.

(** ** The channel *)

Module Channel.

Definition Resolver := nat.

Section Channel.
Context {T : Type}.

(** Modelled from the spec: [Channel.ts], the implementation of the
    channel, is not among the sources.  The state is the one of the data
    model of the specification. *)
Record Channel : Type := {
  capacity : nat;
  buffer : list T;
  closed : bool;
  pendingWrites : list (T * Resolver);
  pendingReads : list Resolver;
  readableWaiters : list Resolver;
  writableWaiters : list Resolver;
}.

(** Modelled from the spec: [Channel.ts] is not among the sources.  What
    the channel answers to the operations, the suspended ones and the one
    being made: a write resolves or fails with
    [CannotWriteIntoClosed], a read resolves with a value or with the
    absent marker ([None]), a wait resolves. *)
Inductive Answer : Type :=
| WriteResolved (r : Resolver)
| WriteFailed (r : Resolver)
| ReadResolved (r : Resolver) (v : option T)
| WaitResolved (r : Resolver).

(** Modelled from the spec: the constructor takes the capacity. *)
Definition new (capacity : nat) : Channel :=
  {| capacity := capacity; buffer := []; closed := false; pendingWrites := [];
     pendingReads := []; readableWaiters := []; writableWaiters := [] |}.

(** Modelled from the spec: the channel is readable when it has a value
    or is closed, writable when it is closed, has a free slot or has a
    blocked read. *)
Definition readable (ch : Channel) : bool :=
  closed ch || bool_decide (buffer ch ≠ []) || bool_decide (pendingWrites ch ≠ []).

Definition writable (ch : Channel) : bool :=
  closed ch || bool_decide (length (buffer ch) < capacity ch)%nat
  || bool_decide (pendingReads ch ≠ []).

(** Modelled from the spec: the waiters whose condition holds are woken
    and leave the channel. *)
Definition notify (ch : Channel) : Channel * list Answer :=
  let rs := if readable ch then readableWaiters ch else [] in
  let ws := if writable ch then writableWaiters ch else [] in
  ({| capacity := capacity ch; buffer := buffer ch; closed := closed ch;
      pendingWrites := pendingWrites ch; pendingReads := pendingReads ch;
      readableWaiters := if readable ch then [] else readableWaiters ch;
      writableWaiters := if writable ch then [] else writableWaiters ch |},
   (WaitResolved <$> rs) ++ (WaitResolved <$> ws)).

(** Modelled from the spec: [write(v)], made by the caller whose
    continuation is [r].  On a closed channel it fails; a waiting reader
    is handed the value; else the value is appended when the buffer has a
    free slot; else the writer is enqueued. *)
Definition write (v : T) (r : Resolver) (ch : Channel) : Channel * list Answer :=
  if closed ch then (ch, [WriteFailed r])
  else
    match pendingReads ch with
    | reader :: readers =>
        let '(ch', woken) :=
          notify {| capacity := capacity ch; buffer := buffer ch; closed := closed ch;
                    pendingWrites := pendingWrites ch; pendingReads := readers;
                    readableWaiters := readableWaiters ch;
                    writableWaiters := writableWaiters ch |} in
        (ch', [ReadResolved reader (Some v); WriteResolved r] ++ woken)
    | [] =>
        if decide (length (buffer ch) < capacity ch)%nat
        then
          let '(ch', woken) :=
            notify {| capacity := capacity ch; buffer := buffer ch ++ [v];
                      closed := closed ch; pendingWrites := pendingWrites ch;
                      pendingReads := pendingReads ch;
                      readableWaiters := readableWaiters ch;
                      writableWaiters := writableWaiters ch |} in
          (ch', [WriteResolved r] ++ woken)
        else
          ({| capacity := capacity ch; buffer := buffer ch; closed := closed ch;
              pendingWrites := pendingWrites ch ++ [(v, r)];
              pendingReads := pendingReads ch;
              readableWaiters := readableWaiters ch;
              writableWaiters := writableWaiters ch |}, [])
    end.

(** Modelled from the spec: the first step of [read()]: the head writer enters
    the buffer when the buffer has a free slot. *)
Definition enter_writer (ch : Channel) : Channel * list Answer :=
  match pendingWrites ch with
  | (v, writer) :: writers =>
      if decide (length (buffer ch) < capacity ch)%nat
      then ({| capacity := capacity ch; buffer := buffer ch ++ [v]; closed := closed ch;
               pendingWrites := writers; pendingReads := pendingReads ch;
               readableWaiters := readableWaiters ch;
               writableWaiters := writableWaiters ch |}, [WriteResolved writer])
      else (ch, [])
  | [] => (ch, [])
  end.

(** Modelled from the spec: [read()], made by the caller whose
    continuation is [r].  After [enter_writer] the reader takes the head
    of the buffer, or, on an unbuffered channel, the value of the head
    writer; on a closed channel with nothing left it gets the absent
    marker; else it is enqueued. *)
Definition read (r : Resolver) (ch : Channel) : Channel * list Answer :=
  let '(ch, entered) := enter_writer ch in
  match buffer ch with
  | v :: values =>
      ({| capacity := capacity ch; buffer := values; closed := closed ch;
          pendingWrites := pendingWrites ch; pendingReads := pendingReads ch;
          readableWaiters := readableWaiters ch;
          writableWaiters := writableWaiters ch |},
       entered ++ [ReadResolved r (Some v)])
  | [] =>
      match pendingWrites ch with
      | (v, writer) :: writers =>
          ({| capacity := capacity ch; buffer := []; closed := closed ch;
              pendingWrites := writers; pendingReads := pendingReads ch;
              readableWaiters := readableWaiters ch;
              writableWaiters := writableWaiters ch |},
           entered ++ [WriteResolved writer; ReadResolved r (Some v)])
      | [] =>
          if closed ch then (ch, entered ++ [ReadResolved r None])
          else
            ({| capacity := capacity ch; buffer := []; closed := closed ch;
                pendingWrites := []; pendingReads := pendingReads ch ++ [r];
                readableWaiters := readableWaiters ch;
                writableWaiters := writableWaiters ch |}, entered)
      end
  end.

(** Modelled from the spec: [Channel.ts] is not among the sources.  An
    open channel that holds nothing and on which no read or write is
    suspended. *)
Definition is_empty (ch : Channel) : Prop :=
  closed ch = false ∧ buffer ch = [] ∧ pendingWrites ch = [] ∧ pendingReads ch = [].

End Channel.
Global Arguments Channel T : clear implicits.
Global Arguments Answer T : clear implicits.

End Channel.

(** ** [select-helpers.ts]: [sleep] *)

Module Sleep.
Import Js.

Definition Handle := nat.
Definition FutureId := nat.
Definition Signal := nat.

(** The callback that [sleep] gives to [setTimeout]:
    [() => { resolve(value) }]. *)
Inductive Callback : Type :=
| ResolveWith (future : FutureId) (value : Value).

(** The teardown that the producer of [sleep] returns:
    [() => clearTimeout(handle)]. *)
Inductive Teardown : Type :=
| ClearTimeout (handle : Handle).

(** The host: a clock in milliseconds, the timers set and not yet fired or
    cleared, the signals aborted, and the futures made by
    [makeAbortablePromise]: their state and, while they are pending, the
    signal that their abort listener is installed on and their
    teardown. *)
Record Host : Type := {
  now : Z;
  next_handle : Handle;
  timers : list (Handle * Z * Callback);
  fired : list Handle;
  aborted : list Signal;
  next_future : FutureId;
  settled : FutureId → option (Outcome Value);
  live : list (FutureId * option Signal * Teardown);
  torn_down : list FutureId;
}.

Definition fresh (clock : Z) : Host :=
  {| now := clock; next_handle := 0%nat; timers := []; fired := []; aborted := [];
     next_future := 0%nat; settled := λ _, None; live := []; torn_down := [] |}.



(** [clearTimeout(handle)] *)
Definition clearTimeout (handle : Handle) (h : Host) : Host :=
  {| now := now h; next_handle := next_handle h;
     timers := filter (λ t, t.1.1 ≠ handle) (timers h);
     fired := fired h; aborted := aborted h; next_future := next_future h;
     settled := settled h; live := live h; torn_down := torn_down h |}.

Definition run_teardown (future : FutureId) (teardown : Teardown) (h : Host) : Host :=
  match teardown with
  | ClearTimeout handle =>
      let h := clearTimeout handle h in
      {| now := now h; next_handle := next_handle h; timers := timers h;
         fired := fired h; aborted := aborted h; next_future := next_future h;
         settled := settled h; live := live h;
         torn_down := torn_down h ++ [future] |}
  end.

(** The future settles, its listener is removed. *)
Definition settle_future (future : FutureId) (o : Outcome Value) (h : Host) : Host :=
  {| now := now h; next_handle := next_handle h; timers := timers h;
     fired := fired h; aborted := aborted h; next_future := next_future h;
     settled := λ f, if decide (f = future) then Some o else settled h f;
     live := filter (λ l, l.1.1 ≠ future) (live h);
     torn_down := torn_down h |}.

(** Modelled from the spec: [makeAbortablePromise], which is not among
    the sources: on the first resolution from the producer, the listener
    is removed and the teardown is called. *)
Definition resolve_from_producer (future : FutureId) (value : Value) (h : Host) : Host :=
  match list_find (λ l, l.1.1 = future) (live h) with
  | Some (_, (_, _, teardown)) =>
      run_teardown future teardown (settle_future future (Fulfilled value) h)
  | None => h
  end.

(** Modelled from the spec: [makeAbortablePromise], which is not among
    the sources: the abort listener (a) rejects the future with
    [AbortedError], (b) calls the teardown, (c) removes itself. *)
Definition abort_listener (future : FutureId) (teardown : Teardown) (h : Host) : Host :=
  run_teardown future teardown (settle_future future (Rejected AbortedError) h).

(** [signal?.aborted] *)
Definition is_aborted (signal : option Signal) (h : Host) : bool :=
  match signal with
  | Some sig => bool_decide (sig ∈ aborted h)
  | None => false
  end.

(** Modelled from the spec: [makeAbortablePromise(producer, signal)],
    which is not among the sources.  With a signal that is aborted
    already, the future is rejected with [AbortedError] at once and the
    producer is not called; else the producer runs and returns the
    teardown, and the abort listener is installed on the signal. *)
Definition makeAbortablePromise (producer : FutureId → Host → Teardown * Host)
    (signal : option Signal) (h : Host) : FutureId * Host :=
  let future := next_future h in
  let h :=
    {| now := now h; next_handle := next_handle h; timers := timers h;
       fired := fired h; aborted := aborted h; next_future := S future;
       settled := settled h; live := live h; torn_down := torn_down h |} in
  if is_aborted signal h
  then (future, settle_future future (Rejected AbortedError) h)
  else
    let '(teardown, h) := producer future h in
    (future,
     {| now := now h; next_handle := next_handle h; timers := timers h;
        fired := fired h; aborted := aborted h; next_future := next_future h;
        settled := settled h; live := live h ++ [(future, signal, teardown)];
        torn_down := torn_down h |}).


(** The signal is aborted: the listeners installed on it run, in the
    order in which they were installed. *)
Definition abort (sig : Signal) (h : Host) : Host :=
  let listeners := filter (λ l, l.1.2 = Some sig) (live h) in
  let h :=
    {| now := now h; next_handle := next_handle h; timers := timers h;
       fired := fired h; aborted := sig :: aborted h; next_future := next_future h;
       settled := settled h; live := live h; torn_down := torn_down h |} in
  foldl (λ h l, abort_listener l.1.1 l.2 h) h listeners.






Definition woken (clock : Z) (value : Value) : Host :=
  {| now := clock; next_handle := 1%nat; timers := []; fired := [0%nat];
     aborted := []; next_future := 1%nat;
     settled := λ f, if decide (f = 0%nat) then Some (Fulfilled value) else None;
     live := []; torn_down := [0%nat] |}.


End Sleep.

(** ** Inputs used as examples *)

Module Examples.
Import Js Select.
Local Open Scope nat_scope.

(** [Math.random()] returns 0.5 every time: the shuffle of two entries
    leaves them in their order. *)
Definition half : nat → Q := λ _, (1 # 2)%Q.

Definition nothing_settled : PromiseRef → option (Outcome Value) := λ _, None.

(** User code whose calls return pending promises and whose attempts find
    the readiness stolen. *)
Definition env_stolen : Env :=
  {| random := half;
     answer_function := λ _ _, Returns None;
     answer_wait := λ _ _, Returns None;
     answer_attempt := λ _ _, Attempted NotOk |}.

(** User code whose calls return pending promises and whose attempts
    succeed with 1. *)
Definition env_ready : Env :=
  {| random := half;
     answer_function := λ _ _, Returns None;
     answer_wait := λ _ _, Returns None;
     answer_attempt := λ _ _, Attempted (Ok (Num 1)) |}.

(** User code whose abortable functions throw when they are called. *)
Definition env_throwing : Env :=
  {| random := half;
     answer_function := λ _ _, Throws (Error "boom");
     answer_wait := λ _ _, Returns None;
     answer_attempt := λ _ _, Attempted NotOk |}.

(** [select({ a: ch.raceRead(), f: signal => { throw new Error("boom") } })] *)
Definition read_and_throwing_function : SelectOpsMap :=
  [("a"%string, Some (OpSelectable 0)); ("f"%string, Some (OpFunction 0))].

(** [select({ a: null, b: ch.raceRead() })] *)
Definition null_then_read : SelectOpsMap :=
  [("a"%string, None); ("b"%string, Some (OpSelectable 0))].

(** [select({ a: ch.raceRead() })] *)
Definition one_read : SelectOpsMap := [("a"%string, Some (OpSelectable 0))].

(** [select({ ch1: ch1.raceRead(), ch2: ch2.raceRead() })] *)
Definition two_reads : SelectOpsMap :=
  [("ch1"%string, Some (OpSelectable 1)); ("ch2"%string, Some (OpSelectable 2))].

(** User code whose calls return pending promises; the first attempt, call
    number 1, finds the readiness stolen, the later ones succeed with 1. *)
Definition env_stolen_once : Env :=
  {| random := half;
     answer_function := λ _ _, Returns None;
     answer_wait := λ _ _, Returns None;
     answer_attempt := λ _ call,
       if decide (call = 1) then Attempted NotOk else Attempted (Ok (Num 1)) |}.

(** The same user code, with [Math.random()] returning 0 every time: the
    shuffle of two entries exchanges them. *)
Definition env_stolen_once_swapped : Env :=
  {| random := λ _, 0%Q;
     answer_function := λ _ _, Returns None;
     answer_wait := λ _ _, Returns None;
     answer_attempt := λ _ call,
       if decide (call = 1) then Attempted NotOk else Attempted (Ok (Num 1)) |}.

(** [select({ s: ch.raceRead(), p: promise })] *)
Definition read_or_promise : SelectOpsMap :=
  [("s"%string, Some (OpSelectable 0)); ("p"%string, Some (OpPromise 0))].

(** In one job the promise is fulfilled with 7, then the first wait
    becomes ready. *)
Definition promise_then_first_wait : World :=
  initial_world nothing_settled
    [[(Given 0, Fulfilled (Num 7)); (Made 0, Fulfilled Undefined)]].

(** The first wait becomes ready.  Later, in one job, the promise is
    fulfilled with 7, then the wait made after the failed attempt (call
    number 2) becomes ready. *)
Definition promise_then_rearmed_wait : World :=
  initial_world nothing_settled
    [[(Made 0, Fulfilled Undefined)];
     [(Given 0, Fulfilled (Num 7)); (Made 2, Fulfilled Undefined)]].

(** The first wait becomes ready. *)
Definition first_wait_ready : World :=
  initial_world nothing_settled [[(Made 0, Fulfilled Undefined)]].

(** The first wait becomes ready; the wait made after the failed attempt
    is rejected. *)
Definition rearmed_wait_fails : World :=
  initial_world nothing_settled
    [[(Made 0, Fulfilled Undefined)]; [(Made 2, Rejected (Error "boom"))]].

End Examples.

(** ** [select]: the steps of a run *)

Module Steps.
Import Js Select.
Local Open Scope nat_scope.

(** The world after a call into user code that is logged as [ev]. *)
Definition called (ev : Event) (w : World) : World :=
  {| settled := settled w; turns := turns w; calls := S (calls w);
     controllers := controllers w; aborted := aborted w; log := log w ++ [ev] |}.

(** The world in which the promise returned by the call [call] is as the
    answer of user code says: pending, or settled already. *)
Definition promised (call : nat) (initial : option (Outcome Value)) (w : World) : World :=
  match initial with
  | None => w
  | Some o =>
      {| settled := settle (Made call) o (settled w); turns := turns w; calls := calls w;
         controllers := controllers w; aborted := aborted w; log := log w |}
  end.


(** The raced promise [p] was made for an operation of [ops]: it carries
    the name of an entry of [ops], and its source is the promise of this
    entry, or the promise returned by a call of its function, or of the
    [wait] of its [Selectable], that [events] records with the signal
    [c]. *)
Definition made_for (ops : SelectOpsMap) (c : AbortController) (events : list Event)
    (p : Raced) : Prop :=
  match p with
  | ThenTag (Given q) name => (name, Some (OpPromise q)) ∈ ops
  | ThenTag (Made call) name =>
      ∃ fn, (name, Some (OpFunction fn)) ∈ ops ∧ EvCall fn c call ∈ events
  | CatchWrap (Made call) (WaitSelectable n index self as tag) name =>
      n = name ∧ (name, Some (OpSelectable self)) ∈ ops ∧ EvWait self tag c call ∈ events
  | Waiting (Made call) (WaitSelectable name index self as tag) =>
      (name, Some (OpSelectable self)) ∈ ops ∧ EvWait self tag c call ∈ events
  | _ => False
  end.

(** An element of the raced array: a hole, or a promise made for an
    operation. *)
Definition slot_for (ops : SelectOpsMap) (c : AbortController) (events : list Event)
    (p : option Raced) : Prop :=
  match p with
  | None => True
  | Some p => made_for ops c events p
  end.

(** What [select] does between the making of its controller and its
    abort: a call of the function of an entry of [ops], a [wait] or an
    [attempt] of the [Selectable] of an entry of [ops], the calls being
    given the signal [c] and the [wait] the value that names the entry;
    or a race. *)
Definition call_of (ops : SelectOpsMap) (c : AbortController) (ev : Event) : Prop :=
  match ev with
  | EvCall fn signal _ => signal = c ∧ ∃ name, (name, Some (OpFunction fn)) ∈ ops
  | EvWait self tag signal _ =>
      signal = c ∧
      ∃ name index, tag = WaitSelectable name index self ∧
                    (name, Some (OpSelectable self)) ∈ ops
  | EvAttempt self _ => ∃ name, (name, Some (OpSelectable self)) ∈ ops
  | EvRace _ => True
  | _ => False
  end.


(** An attempt that performs the operation or throws: one that does not
    answer [{ ok: false }]. *)
Definition decisive (ev : Event) : Prop :=
  match ev with
  | EvAttempt _ (Attempted NotOk) => False
  | EvAttempt _ _ => True
  | _ => False
  end.

(** The way [select] ends after the attempt logged as [ev]: with the
    value of the attempt under the name of the operation, or with its
    exception in a [SelectError] that carries this name. *)
Definition ended_by (ops : SelectOpsMap) (r : Completion SelectResult) (ev : Event) : Prop :=
  match ev with
  | EvAttempt self (Attempted (Ok v)) =>
      ∃ name, (name, Some (OpSelectable self)) ∈ ops ∧
              r = Normal {| type := name; value := v |}
  | EvAttempt self (AttemptThrows e) =>
      ∃ name, (name, Some (OpSelectable self)) ∈ ops ∧ r = Throw (SelectError name e)
  | _ => False
  end.


(** In [events] every attempt comes right after a race, and is made on a
    [Selectable] a [wait] of which, called before with the signal [c],
    has returned a promise that is in this race and, as [s] says,
    fulfilled. *)
Definition attempts_when_ready (c : AbortController)
    (s : PromiseRef → option (Outcome Value)) (events : list Event) : Prop :=
  ∀ before self answer after,
    events = before ++ EvAttempt self answer :: after →
    ∃ before' ps tag call v p,
      before = before' ++ [EvRace ps] ∧
      EvWait self tag c call ∈ before' ∧
      Some p ∈ ps ∧ source_of p = Made call ∧
      s (Made call) = Some (Fulfilled v).


(** The operation [op] has failed with [cause] in the world [w]: its
    promise, or the promise returned by its function or by its [wait]
    called with the signal [c], is rejected with [cause]; or its
    [attempt] has thrown [cause]. *)
Definition failed (w : World) (c : AbortController) (op : SelectOp) (cause : Value) : Prop :=
  match op with
  | OpPromise q => settled w (Given q) = Some (Rejected cause)
  | OpFunction fn =>
      ∃ call, EvCall fn c call ∈ log w ∧ settled w (Made call) = Some (Rejected cause)
  | OpSelectable self =>
      (∃ tag call, EvWait self tag c call ∈ log w ∧
                   settled w (Made call) = Some (Rejected cause)) ∨
      EvAttempt self (AttemptThrows cause) ∈ log w
  end.

(** An attempt has found the readiness stolen. *)
Definition stolen (events : list Event) : Prop :=
  ∃ self, EvAttempt self (Attempted NotOk) ∈ events.

(** An element of the raced array as [waitForOp] makes it: a promise made
    for an operation, with its continuation. *)
Definition adapted_for (ops : SelectOpsMap) (c : AbortController) (events : list Event)
    (p : option Raced) : Prop :=
  ∃ q, p = Some q ∧ made_for ops c events q ∧ continuations q = 1.

(** What a call of user code logged as [ev] has thrown. *)
Definition thrown_by (env : Env) (c : AbortController) (ev : Event) (e : Value) : Prop :=
  match ev with
  | EvCall fn signal call => signal = c ∧ answer_function env fn call = Throws e
  | EvWait self _ signal call => signal = c ∧ answer_wait env self call = Throws e
  | _ => False
  end.


(** The number of calls of the function [fn] that [events] records, and
    the number of entries of the map that hold [fn]. *)
Definition is_call_of (fn : FunctionId) (ev : Event) : bool :=
  match ev with
  | EvCall f _ _ => bool_decide (f = fn)
  | _ => false
  end.

Fixpoint calls_of (fn : FunctionId) (events : list Event) : nat :=
  match events with
  | [] => 0
  | ev :: rest => (if is_call_of fn ev then 1 else 0) + calls_of fn rest
  end.

Definition holds_function (fn : FunctionId) (e : string * NullableSelectOp) : bool :=
  match e.2 with
  | Some (OpFunction f) => bool_decide (f = fn)
  | _ => false
  end.

Fixpoint entries_of (fn : FunctionId) (ops : SelectOpsMap) : nat :=
  match ops with
  | [] => 0
  | e :: rest => (if holds_function fn e then 1 else 0) + entries_of fn rest
  end.


(** The raced array that the start of [select] makes from entries that
    are promises or [null]. *)
Fixpoint promise_slots (nameAndOp : list (string * NullableSelectOp)) : list (option Raced) :=
  match nameAndOp with
  | [] => []
  | (name, Some (OpPromise q)) :: rest => Some (ThenTag (Given q) name) :: promise_slots rest
  | _ :: rest => promise_slots rest
  end.

(** The entry is a promise or [null]; and, moreover, a promise that is
    not settled. *)
Definition promise_or_null (e : string * NullableSelectOp) : Prop :=
  match e.2 with
  | None | Some (OpPromise _) => True
  | _ => False
  end.

Definition pending_in (s : PromiseRef → option (Outcome Value))
    (e : string * NullableSelectOp) : Prop :=
  match e.2 with
  | None => True
  | Some (OpPromise q) => s (Given q) = None
  | _ => False
  end.

(** How [select] ends when the promise of the entry [name] wins settled
    as [o]. *)
Definition outcome_of (name : string) (o : Outcome Value) : Completion SelectResult :=
  match o with
  | Fulfilled v => Normal {| type := name; value := v |}
  | Rejected cause => Throw (SelectError name cause)
  end.


(** The element [p] at position [k] of the raced array is the promise of
    the entry [e]: it carries the name of [e] and comes from the
    operation of [e]; the value of a [wait] carries [k] as [index]. *)
Definition raced_for (k : nat) (e : string * NullableSelectOp) (p : option Raced) : Prop :=
  match e.2, p with
  | Some (OpPromise q), Some (ThenTag (Given q') name) => q' = q ∧ name = e.1
  | Some (OpFunction fn), Some (ThenTag (Made _) name) => name = e.1
  | Some (OpSelectable self), Some (CatchWrap (Made _) tag name) =>
      tag = WaitSelectable e.1 k self ∧ name = e.1
  | Some (OpSelectable self), Some (Waiting (Made _) tag) =>
      tag = WaitSelectable e.1 k self
  | _, _ => False
  end.

(** The raced array holds one promise for each entry, at the position of
    the entry. *)
Definition one_each (nameAndOp : list (string * NullableSelectOp))
    (ps : list (option Raced)) : Prop :=
  length ps = length nameAndOp ∧
  ∀ k e p, nameAndOp !! k = Some e → ps !! k = Some p → raced_for k e p.


(** The promises that the start of [select] pushes for the entries
    [nameAndOp], the first of them at the position [index] and the next
    call being the one numbered [call]: what [waitForOp] returns for each
    operation, nothing for [null]. *)
Fixpoint start_promises (nameAndOp : list (string * NullableSelectOp)) (index call : nat)
    : list (option Raced) :=
  match nameAndOp with
  | [] => []
  | (name, None) :: rest => start_promises rest (S index) call
  | (name, Some (OpPromise q)) :: rest =>
      Some (ThenTag (Given q) name) :: start_promises rest (S index) call
  | (name, Some (OpFunction fn)) :: rest =>
      Some (ThenTag (Made call) name) :: start_promises rest (S index) (S call)
  | (name, Some (OpSelectable self)) :: rest =>
      Some (CatchWrap (Made call) (WaitSelectable name index self) name)
      :: start_promises rest (S index) (S call)
  end.

(** The value that the promise of a [wait] resolves with. *)
Definition tag_of (p : Raced) : option WaitResult :=
  match p with
  | ThenTag _ _ => None
  | CatchWrap _ tag _ | Waiting _ tag => Some tag
  end.

(** The array [ps] that is raced after the events [before].  When no race
    was made before, it is [first].  Else the last race, of the array
    [prev], was won by a [wait] whose attempt failed: [wait] was called
    again, as call number [call], and [ps] is [prev] with the promise
    returned by this call, raced as it is, in the place [index] of the
    promise of the same operation. *)
Definition raced_next (c : AbortController) (first : list (option Raced))
    (before : list Event) (ps : list (option Raced)) : Prop :=
  ((∀ ps0, EvRace ps0 ∉ before) ∧ ps = first) ∨
  ∃ earlier prev self name index call old,
    before = earlier ++ [EvRace prev; EvAttempt self (Attempted NotOk);
                         EvWait self (WaitSelectable name index self) c call] ∧
    prev !! index = Some (Some old) ∧
    tag_of old = Some (WaitSelectable name index self) ∧
    ps = <[index := Some (Waiting (Made call) (WaitSelectable name index self))]> prev.

(** Every race of [events] is between one promise for each entry, and
    its array follows from the race before. *)
Definition races_follow (nameAndOp : list (string * NullableSelectOp))
    (c : AbortController) (first : list (option Raced)) (events : list Event) : Prop :=
  ∀ before ps after, events = before ++ EvRace ps :: after →
    one_each nameAndOp ps ∧ raced_next c first before ps.

(** The calls that the start of [select] makes for the entries
    [nameAndOp], the first of them at the position [index] and the next
    call being the one numbered [call]: none for [null] and for a
    promise, the call of the function with the signal, the [wait] of the
    [Selectable] with the value that carries the name and the position of
    the entry. *)
Fixpoint start_calls (c : AbortController) (nameAndOp : list (string * NullableSelectOp))
    (index call : nat) : list Event :=
  match nameAndOp with
  | [] => []
  | (name, None) :: rest => start_calls c rest (S index) call
  | (name, Some (OpPromise _)) :: rest => start_calls c rest (S index) call
  | (name, Some (OpFunction fn)) :: rest =>
      EvCall fn c call :: start_calls c rest (S index) (S call)
  | (name, Some (OpSelectable self)) :: rest =>
      EvWait self (WaitSelectable name index self) c call
      :: start_calls c rest (S index) (S call)
  end.

End Steps.

(** ** More inputs used as examples *)

Module Cases.
Import Js Select Examples.
Local Open Scope nat_scope.

(** [Math.random()] returns 0 every time: the shuffle of two entries
    exchanges them. *)
Definition env_zero : Env :=
  {| random := λ _, 0%Q;
     answer_function := λ _ _, Returns None;
     answer_wait := λ _ _, Returns None;
     answer_attempt := λ _ _, Attempted (Ok (Num 1)) |}.

(** [select({ a: p, b: q })] for two promises. *)
Definition two_promises : SelectOpsMap :=
  [("a"%string, Some (OpPromise 0)); ("b"%string, Some (OpPromise 1))].

(** [p] is fulfilled with 1 and [q] with 2. *)
Definition fulfilled_1_2 : PromiseRef → option (Outcome Value) :=
  λ ref, match ref with
         | Given 0 => Some (Fulfilled (Num 1))
         | Given 1 => Some (Fulfilled (Num 2))
         | _ => None
         end.

Definition both_fulfilled : World := initial_world fulfilled_1_2 [].

(** [select({ ch: ch.raceRead(), p: Promise.reject(new Error("Too bad")) })] *)
Definition read_and_promise : SelectOpsMap :=
  [("ch"%string, Some (OpSelectable 0)); ("p"%string, Some (OpPromise 0))].

Definition rejected_too_bad : PromiseRef → option (Outcome Value) :=
  λ ref, match ref with
         | Given 0 => Some (Rejected (Error "Too bad"))
         | _ => None
         end.

Definition promise_rejected : World := initial_world rejected_too_bad [].

End Cases.

(** ** [sleep] with or without a signal *)

Module Sleeping.
Import Js Sleep.


End Sleeping.

(** ** [select-helpers.ts]: [returnOnAbort] *)

Module Signals.
Import Js.
Local Open Scope nat_scope.

Definition Signal := nat.
Definition FutureId := nat.
Definition ListenerId := nat.

(** The listeners of the [abort] event: the one that [returnOnAbort]
    adds, [() => resolve(signal.reason)], and the abort listener of
    [makeAbortablePromise]. *)
Inductive Listener : Type :=
| ResolveWithReason (future : FutureId) (signal : Signal)
| Cancel (future : FutureId).

(** The teardown that the producer of [returnOnAbort] returns:
    [() => { signal.removeEventListener('abort', listener) }]. *)
Inductive Teardown : Type :=
| RemoveListener (signal : Signal) (listener : ListenerId).

(** The host: the signals aborted, with their reason; the listeners of
    [abort] events, in the order in which they were added; and the
    futures made by [makeAbortablePromise]: their state and, while they
    are pending, their abort listener and their teardown. *)
Record Host : Type := {
  reason : Signal → option Value;
  next_listener : ListenerId;
  listeners : list (Signal * ListenerId * Listener);
  next_future : FutureId;
  settled : FutureId → option (Outcome Value);
  live : list (FutureId * option (Signal * ListenerId) * Teardown);
  torn_down : list FutureId;
}.

Definition fresh : Host :=
  {| reason := λ _, None; next_listener := 0; listeners := []; next_future := 0;
     settled := λ _, None; live := []; torn_down := [] |}.

(** [signal.addEventListener('abort', listener, { once: true })]: on a
    signal that is aborted already the listener is added and never
    called. *)
Definition addEventListener (signal : Signal) (listener : Listener) (h : Host)
    : ListenerId * Host :=
  (next_listener h,
   {| reason := reason h; next_listener := S (next_listener h);
      listeners := listeners h ++ [(signal, next_listener h, listener)];
      next_future := next_future h; settled := settled h; live := live h;
      torn_down := torn_down h |}).

(** [signal.removeEventListener('abort', listener)] *)
Definition removeEventListener (signal : Signal) (listener : ListenerId) (h : Host) : Host :=
  {| reason := reason h; next_listener := next_listener h;
     listeners := filter (λ x, ¬ (x.1.1 = signal ∧ x.1.2 = listener)) (listeners h);
     next_future := next_future h; settled := settled h; live := live h;
     torn_down := torn_down h |}.

Definition run_teardown (future : FutureId) (teardown : Teardown) (h : Host) : Host :=
  match teardown with
  | RemoveListener signal listener =>
      let h := removeEventListener signal listener h in
      {| reason := reason h; next_listener := next_listener h; listeners := listeners h;
         next_future := next_future h; settled := settled h; live := live h;
         torn_down := torn_down h ++ [future] |}
  end.

(** The future settles, its abort listener is removed. *)
Definition settle_future (future : FutureId) (o : Outcome Value)
    (cancel : option (Signal * ListenerId)) (h : Host) : Host :=
  let h :=
    match cancel with
    | Some (signal, listener) => removeEventListener signal listener h
    | None => h
    end in
  {| reason := reason h; next_listener := next_listener h; listeners := listeners h;
     next_future := next_future h;
     settled := λ f, if decide (f = future) then Some o else settled h f;
     live := filter (λ l, l.1.1 ≠ future) (live h);
     torn_down := torn_down h |}.

(** Modelled from the spec: [makeAbortablePromise], which is not among
    the sources: on the first resolution from the producer, the listener
    is removed and the teardown is called; a later resolution does
    nothing. *)
Definition resolve_from_producer (future : FutureId) (value : Value) (h : Host) : Host :=
  match list_find (λ l, l.1.1 = future) (live h) with
  | Some (_, (_, cancel, teardown)) =>
      run_teardown future teardown (settle_future future (Fulfilled value) cancel h)
  | None => h
  end.

(** Modelled from the spec: [makeAbortablePromise], which is not among
    the sources: the abort listener (a) rejects the future with
    [AbortedError], (b) calls the teardown, (c) removes itself. *)
Definition abort_listener (future : FutureId) (h : Host) : Host :=
  match list_find (λ l, l.1.1 = future) (live h) with
  | Some (_, (_, cancel, teardown)) =>
      run_teardown future teardown (settle_future future (Rejected AbortedError) cancel h)
  | None => h
  end.

(** [signal?.aborted] *)
Definition is_aborted (signal : option Signal) (h : Host) : bool :=
  match signal with
  | Some sig => bool_decide (is_Some (reason h sig))
  | None => false
  end.

(** Modelled from the spec: [makeAbortablePromise(producer, signal)],
    which is not among the sources.  With a signal that is aborted
    already, the future is rejected with [AbortedError] at once and the
    producer is not called; else the producer runs and returns the
    teardown, and the abort listener is installed on the signal. *)
Definition makeAbortablePromise (producer : FutureId → Host → Teardown * Host)
    (signal : option Signal) (h : Host) : FutureId * Host :=
  let future := next_future h in
  let h :=
    {| reason := reason h; next_listener := next_listener h; listeners := listeners h;
       next_future := S future; settled := settled h; live := live h;
       torn_down := torn_down h |} in
  if is_aborted signal h
  then (future, settle_future future (Rejected AbortedError) None h)
  else
    let '(teardown, h) := producer future h in
    let '(cancel, h) :=
      match signal with
      | Some sig =>
          let '(listener, h) := addEventListener sig (Cancel future) h in
          (Some (sig, listener), h)
      | None => (None, h)
      end in
    (future,
     {| reason := reason h; next_listener := next_listener h; listeners := listeners h;
        next_future := next_future h; settled := settled h;
        live := live h ++ [(future, cancel, teardown)]; torn_down := torn_down h |}).

(** [returnOnAbort(signal)(cancelSignal)] *)
Definition returnOnAbort (signal : Signal) (cancelSignal : option Signal) (h : Host)
    : FutureId * Host :=
  makeAbortablePromise
    (λ resolve h,
       let '(listener, h) := addEventListener signal (ResolveWithReason resolve signal) h in
       (RemoveListener signal listener, h))
    cancelSignal h.

(** The listener runs: [resolve(signal.reason)], or the abort listener. *)
Definition run_listener (listener : Listener) (h : Host) : Host :=
  match listener with
  | ResolveWithReason future signal =>
      resolve_from_producer future (default Undefined (reason h signal)) h
  | Cancel future => abort_listener future h
  end.

(** A listener of the event is called if it is still there; added with
    [once], it is removed before it runs. *)
Definition dispatch (x : Signal * ListenerId * Listener) (h : Host) : Host :=
  if bool_decide (x.1.2 ∈ (λ y, y.1.2) <$> listeners h)
  then run_listener x.2 (removeEventListener x.1.1 x.1.2 h)
  else h.

(** [controller.abort(reason)] for the controller of [sig]: on a signal
    that is aborted already nothing happens; else the signal gets its
    reason and the listeners added to it are called, in the order in
    which they were added. *)
Definition abort (sig : Signal) (r : Value) (h : Host) : Host :=
  match reason h sig with
  | Some _ => h
  | None =>
      let h' :=
        {| reason := λ s, if decide (s = sig) then Some r else reason h s;
           next_listener := next_listener h; listeners := listeners h;
           next_future := next_future h; settled := settled h; live := live h;
           torn_down := torn_down h |} in
      foldl (λ h x, dispatch x h) h' (filter (λ x, x.1.1 = sig) (listeners h))
  end.

End Signals.

(** ** [_shuffle.ts]: the calls of [Math.random()] counted *)

Module Counted.
Section Arrays.
Context {A : Type}.

(** A piece of code that calls [Math.random()]: from the number of calls
    made before it to its result and the number of calls made after
    it. *)
Definition Random (T : Type) : Type := nat → T * nat.

(** [Math.random()]; [rnd k] is the result of the [k]-th call. *)
Definition Math_random (rnd : nat → Q) : Random Q := λ calls, (rnd calls, S calls).

(** [randomInt(minInclusive, maxExclusive)] *)
Definition randomInt (rnd : nat → Q) (minInclusive maxExclusive : Z) : Random Z :=
  λ calls,
  let '(r, calls) := Math_random rnd calls in
  (Shuffle.randomInt minInclusive maxExclusive r, calls).

(** The loop [for (let i = 1; i <= array.length - 1; ++i)], entered at
    [i] with [remaining] iterations left; it ends in [None], as the loop
    of [Shuffle] does, at an index outside the bounds of the array. *)
Fixpoint shuffle_loop (rnd : nat → Q) (remaining : nat) (i : Z) (array : list A)
    : Random (option (list A)) :=
  λ calls,
  match remaining with
  | O => (Some array, calls)
  | S remaining' =>
      let '(j, calls) := randomInt rnd 0 (i + 1) calls in
      match Shuffle.swap array i j with
      | Some array' => shuffle_loop rnd remaining' (i + 1) array' calls
      | None => (None, calls)
      end
  end.

Definition shuffle (rnd : nat → Q) (array : list A) : Random (option (list A)) :=
  shuffle_loop rnd (length array - 1) 1 array.

End Arrays.
End Counted.

(** * Properties *)

(** ** The shuffle *)

Section ShuffleFacts.
Import Shuffle.
Context {A : Type}.
Implicit Types (array p b : list A) (i j : Z) (js : list Z).

Lemma scaled_draw i r :
  (r * inject_Z (i + 1 - 0) + inject_Z 0 == r * inject_Z (i + 1))%Q.
Proof. replace (i + 1 - 0) with (i + 1) by lia. change (inject_Z 0) with 0%Q. ring. Qed.

Lemma inject_Z_pos i : 0 ≤ i → (0 < inject_Z (i + 1))%Q.
Proof. intros. change 0%Q with (inject_Z 0). rewrite <- Zlt_Qlt. lia. Qed.

Lemma randomInt_interval i j r :
  0 ≤ i →
  randomInt 0 (i + 1) r = j ↔
  (inject_Z j / inject_Z (i + 1) <= r)%Q ∧ (r < inject_Z (j + 1) / inject_Z (i + 1))%Q.
Proof.
  intros Hi. unfold randomInt. cbv zeta.
  rewrite (Qfloor_comp _ _ (scaled_draw i r)).
  pose proof (inject_Z_pos i Hi) as Hpos.
  split.
  - intros <-. split.
    + apply Qle_shift_div_r; [done|]. apply Qfloor_le.
    + apply Qlt_shift_div_l; [done|]. apply Qlt_floor.
  - intros [Hlo Hhi].
    assert (Hlo' : (inject_Z j <= r * inject_Z (i + 1))%Q).
    { apply (Qmult_le_r _ _ _ Hpos) in Hlo.
      rewrite Qmult_comm, Qmult_div_r in Hlo; [done|]. by apply Qnot_eq_sym, Qlt_not_eq. }
    assert (Hhi' : (r * inject_Z (i + 1) < inject_Z (j + 1))%Q).
    { apply (Qmult_lt_r _ _ _ Hpos) in Hhi.
      rewrite (Qmult_comm (_ / _)), Qmult_div_r in Hhi; [done|]. by apply Qnot_eq_sym, Qlt_not_eq. }
    pose proof (Qfloor_le (r * inject_Z (i + 1))) as H1.
    pose proof (Qlt_floor (r * inject_Z (i + 1))) as H2.
    assert (Qfloor (r * inject_Z (i + 1)) < j + 1).
    { rewrite Zlt_Qlt. by eapply Qle_lt_trans. }
    assert (j < Qfloor (r * inject_Z (i + 1)) + 1).
    { rewrite Zlt_Qlt. by eapply Qle_lt_trans. }
    lia.
Qed.

Lemma randomInt_bounds i r :
  0 ≤ i → unit_draw r → 0 ≤ randomInt 0 (i + 1) r ≤ i.
Proof.
  intros Hi [H0 H1]. unfold randomInt. cbv zeta.
  rewrite (Qfloor_comp _ _ (scaled_draw i r)).
  pose proof (inject_Z_pos i Hi) as Hpos.
  split.
  - rewrite <- (Qfloor_Z 0) at 1. apply Qfloor_resp_le.
    apply Qmult_le_0_compat; [done | by apply Qlt_le_weak].
  - cut (Qfloor (r * inject_Z (i + 1)) < i + 1); [lia|].
    rewrite Zlt_Qlt. eapply Qle_lt_trans; [apply Qfloor_le|].
    eapply Qlt_le_trans; [apply Qmult_lt_compat_r; [exact Hpos | exact H1]|].
    rewrite Qmult_1_l. apply Qle_refl.
Qed.

(** *** One swap *)

Lemma swap_Some array i j x y :
  array_get array i = Some x → array_get array j = Some y →
  swap array i j = Some (<[Z.to_nat j := x]> (<[Z.to_nat i := y]> array)).
Proof.
  unfold swap, array_get, array_set. intros Hx Hy. rewrite Hx, Hy. simpl.
  repeat case_decide; try done.
  all: try (apply lookup_lt_Some in Hx; lia).
  - simpl. rewrite length_insert. case_decide; [done|].
    apply lookup_lt_Some in Hy. lia.
Qed.

Lemma array_get_Some array k x :
  array_get array k = Some x ↔ 0 ≤ k ∧ array !! Z.to_nat k = Some x.
Proof. unfold array_get. case_decide; [tauto|]. split; [done|tauto]. Qed.

Lemma array_get_nat array (k : nat) : array_get array (Z.of_nat k) = array !! k.
Proof. unfold array_get. case_decide; [by rewrite Nat2Z.id | lia]. Qed.

Lemma swap_inv array i j array' :
  swap array i j = Some array' →
  ∃ x y, array_get array i = Some x ∧ array_get array j = Some y ∧
         array' = <[Z.to_nat j := x]> (<[Z.to_nat i := y]> array).
Proof.
  intros H. destruct (array_get array i) as [x|] eqn:Hx; [|by unfold swap in H; rewrite Hx in H].
  destruct (array_get array j) as [y|] eqn:Hy;
    [|by unfold swap in H; rewrite Hx in H; simpl in H; rewrite Hy in H].
  rewrite (swap_Some _ _ _ _ _ Hx Hy) in H. naive_solver.
Qed.

Lemma swap_in_bounds array i j :
  0 ≤ i < Z.of_nat (length array) → 0 ≤ j < Z.of_nat (length array) →
  is_Some (swap array i j).
Proof.
  intros Hi Hj.
  destruct (lookup_lt_is_Some_2 array (Z.to_nat i)) as [x Hx]; [lia|].
  destruct (lookup_lt_is_Some_2 array (Z.to_nat j)) as [y Hy]; [lia|].
  rewrite (swap_Some array i j x y); [done| |]; apply array_get_Some; split; (lia || done).
Qed.

Lemma swap_Permutation array i j array' : swap array i j = Some array' → array' ≡ₚ array.
Proof.
  intros (x & y & [? Hx]%array_get_Some & [? Hy]%array_get_Some & ->)%swap_inv.
  by apply Permutation_insert_swap.
Qed.

Lemma swap_length array i j array' :
  swap array i j = Some array' → length array' = length array.
Proof. intros H%swap_Permutation. by rewrite H. Qed.

Lemma swap_lookup_i array i j array' :
  swap array i j = Some array' → array_get array' j = array_get array i.
Proof.
  intros (x & y & Hx & Hy & ->)%swap_inv. rewrite Hx.
  apply array_get_Some in Hx as [? Hx]. apply array_get_Some in Hy as [? Hy].
  apply array_get_Some. split; [done|].
  apply list_lookup_insert_eq. rewrite length_insert. by eapply lookup_lt_Some.
Qed.

Lemma swap_lookup_other array i j array' (k : nat) :
  swap array i j = Some array' → Z.of_nat k ≠ i → Z.of_nat k ≠ j →
  array' !! k = array !! k.
Proof.
  intros (x & y & [? Hx]%array_get_Some & [? Hy]%array_get_Some & ->)%swap_inv ??.
  rewrite !list_lookup_insert_ne by lia. done.
Qed.

Lemma swap_involutive array i j array' :
  swap array i j = Some array' → swap array' i j = Some array.
Proof.
  intros (x & y & [? Hx]%array_get_Some & [? Hy]%array_get_Some & ->)%swap_inv.
  pose proof (lookup_lt_Some _ _ _ Hx). pose proof (lookup_lt_Some _ _ _ Hy).
  destruct (decide (Z.to_nat i = Z.to_nat j)) as [Heq|Hne].
  - assert (i = j) as -> by lia. assert (x = y) as -> by congruence.
    rewrite list_insert_insert_eq, (list_insert_id _ _ _ Hy).
    erewrite swap_Some; [|by apply array_get_Some..].
    by rewrite list_insert_insert_eq, (list_insert_id _ _ _ Hy).
  - erewrite (swap_Some _ i j y x).
    + f_equal. apply list_eq. intros k.
      destruct (decide (k = Z.to_nat j)) as [->|];
        [by rewrite list_lookup_insert_eq by (by rewrite !length_insert)|].
      rewrite list_lookup_insert_ne by done.
      destruct (decide (k = Z.to_nat i)) as [->|];
        [by rewrite list_lookup_insert_eq by (by rewrite !length_insert)|].
      by rewrite !list_lookup_insert_ne by done.
    + apply array_get_Some. split; [done|].
      rewrite list_lookup_insert_ne by done.
      by rewrite list_lookup_insert_eq.
    + apply array_get_Some. split; [done|].
      rewrite list_lookup_insert_eq; [done|by rewrite length_insert].
Qed.

(** *** The loop *)

Lemma swaps_app i js js' array :
  swaps i (js ++ js') array =
  swaps i js array ≫= swaps (i + Z.of_nat (length js)) js'.
Proof.
  revert i array. induction js as [|j js IH]; intros i array; simpl.
  - by rewrite Z.add_0_r.
  - destruct (swap array i j) as [array'|]; simpl; [|done].
    rewrite IH. do 2 f_equal. lia.
Qed.

Lemma swaps_snoc i js j array :
  swaps i (js ++ [j]) array =
  swaps i js array ≫= λ b, swap b (i + Z.of_nat (length js)) j.
Proof.
  rewrite swaps_app. destruct (swaps i js array) as [b|]; simpl; [|done].
  by destruct (swap b _ j).
Qed.

Lemma shuffle_loop_swaps rnd calls remaining i array :
  shuffle_loop rnd calls remaining i array =
  swaps i (drawn rnd calls remaining i) array.
Proof.
  revert calls i array. induction remaining as [|m IH]; intros calls i array; simpl; [done|].
  destruct (swap _ _ _); simpl; [apply IH | done].
Qed.

Lemma shuffle_swaps rnd (array : list A) :
  shuffle rnd array = swaps 1 (drawn rnd 0 (length array - 1) 1) array.
Proof. apply shuffle_loop_swaps. Qed.

Lemma drawn_length rnd calls remaining i : length (drawn rnd calls remaining i) = remaining.
Proof. revert calls i. induction remaining; intros; simpl; [done|by f_equal]. Qed.

Lemma drawn_lookup rnd calls remaining i (k : nat) :
  (k < remaining)%nat →
  drawn rnd calls remaining i !! k =
  Some (randomInt 0 (i + Z.of_nat k + 1) (rnd (calls + k)%nat)).
Proof.
  revert calls i k. induction remaining as [|m IH]; intros calls i k Hk; [lia|].
  destruct k as [|k]; simpl.
  - by rewrite Z.add_0_r, Nat.add_0_r.
  - rewrite IH by lia.
    replace (i + 1 + Z.of_nat k + 1) with (i + Z.pos (Pos.of_succ_nat k) + 1) by lia.
    by replace (S calls + k)%nat with (calls + S k)%nat by lia.
Qed.

Lemma drawn_valid rnd n :
  (∀ k, unit_draw (rnd k)) → valid_draws n (drawn rnd 0 (n - 1) 1).
Proof.
  intros Hrnd. split; [apply drawn_length|].
  intros k j Hk. pose proof (lookup_lt_Some _ _ _ Hk) as Hlt.
  rewrite drawn_length in Hlt. rewrite drawn_lookup in Hk by done.
  injection Hk as <-.
  pose proof (randomInt_bounds (1 + Z.of_nat k) (rnd k) ltac:(lia) (Hrnd _)). lia.
Qed.

(** *** Arrays reached after [m] iterations *)


Lemma draws_upto_app js j :
  draws_upto (js ++ [j]) ↔ draws_upto js ∧ 0 ≤ j ≤ Z.of_nat (length js) + 1.
Proof.
  unfold draws_upto. split.
  - intros H. split.
    + intros k j' Hk. apply H. by rewrite lookup_app_l by (by eapply lookup_lt_Some).
    + apply H. by rewrite list_lookup_middle.
  - intros [H Hj] k j' Hk.
    destruct (decide (k < length js)%nat).
    + rewrite lookup_app_l in Hk by done. by apply H.
    + rewrite lookup_app_r in Hk by lia.
      apply list_lookup_singleton_Some in Hk as [? <-]. lia.
Qed.

Lemma swaps_reach js array :
  draws_upto js → (length js < length array)%nat →
  ∃ p, swaps 1 js array = Some p ∧ reach (length js) array p.
Proof.
  induction js as [|j js IH] using rev_ind; intros Hjs Hlen.
  - exists array. split; [done|]. split; done.
  - apply draws_upto_app in Hjs as [Hjs Hj]. rewrite length_app in Hlen. simpl in Hlen.
    destruct IH as (b & Hb & Hperm & Hfix); [done|lia|].
    rewrite swaps_snoc, Hb. simpl.
    destruct (swap_in_bounds b (1 + Z.of_nat (length js)) j) as [p Hp].
    { rewrite Hperm. lia. } { rewrite Hperm. lia. }
    rewrite Hp. exists p. split; [done|]. split.
    + by rewrite (swap_Permutation _ _ _ _ Hp).
    + intros k Hk. rewrite length_app in Hk. simpl in Hk.
      rewrite (swap_lookup_other _ _ _ _ k Hp) by lia. apply Hfix. lia.
Qed.

Lemma reach_0 array p : NoDup array → reach 0 array p → p = array.
Proof.
  intros Hnd [Hperm Hfix].
  destruct array as [|a0 array], p as [|p0 p].
  - done.
  - by apply Permutation_length in Hperm.
  - by apply Permutation_length in Hperm.
  - assert (p = array) as ->.
    { apply list_eq. intros k. apply (Hfix (S k)). lia. }
    f_equal. assert (Hin : p0 ∈ a0 :: array) by (rewrite <- Hperm; left).
    apply elem_of_cons in Hin as [|Hin]; [done|].
    rewrite <- Hperm in Hnd. apply NoDup_cons in Hnd as [Hnd _]. done.
Qed.

Lemma swaps_injective js js' array p :
  NoDup array → draws_upto js → draws_upto js' →
  length js = length js' → (length js < length array)%nat →
  swaps 1 js array = Some p → swaps 1 js' array = Some p → js = js'.
Proof.
  intros Hnd. revert js' p.
  induction js as [|j js IH] using rev_ind; intros js' p Hjs Hjs' Hlen Hlt Hp Hp'.
  - by destruct js'.
  - destruct js' as [|j' js' _] using rev_ind; [rewrite length_app in Hlen; simpl in Hlen; lia|].
    rewrite !length_app in Hlen. simpl in Hlen.
    rewrite length_app in Hlt. simpl in Hlt.
    apply draws_upto_app in Hjs as [Hjs Hj]. apply draws_upto_app in Hjs' as [Hjs' Hj'].
    destruct (swaps_reach js array) as (b & Hb & Hperm & Hfix); [done|lia|].
    destruct (swaps_reach js' array) as (b' & Hb' & Hperm' & Hfix'); [done|lia|].
    rewrite swaps_snoc, Hb in Hp. rewrite swaps_snoc, Hb' in Hp'. simpl in Hp, Hp'.
    assert (Hm : length js' = length js) by lia. rewrite Hm in Hp', Hfix'.
    set (m := 1 + Z.of_nat (length js)) in *.
    assert (Hx : array_get b m = array_get b' m).
    { unfold m. replace (1 + Z.of_nat (length js)) with (Z.of_nat (S (length js))) by lia.
      rewrite !array_get_nat, Hfix, Hfix' by lia. done. }
    pose proof (swap_lookup_i _ _ _ _ Hp) as Hpj.
    pose proof (swap_lookup_i _ _ _ _ Hp') as Hpj'.
    destruct (array_get b m) as [x|] eqn:Hbm.
    2:{ apply swap_inv in Hp as (? & ? & ? & _). congruence. }
    rewrite <- Hx in Hpj'.
    apply array_get_Some in Hpj as [_ Hpj]. apply array_get_Some in Hpj' as [_ Hpj'].
    assert (Hndp : NoDup p).
    { by rewrite (swap_Permutation _ _ _ _ Hp), Hperm. }
    pose proof (NoDup_lookup _ _ _ _ Hndp Hpj Hpj') as Hjj.
    assert (j = j') as <- by lia.
    apply swap_involutive in Hp, Hp'. rewrite Hp in Hp'. injection Hp' as <-.
    f_equal. apply (IH js' b); try done; lia.
Qed.

Lemma swaps_surjective m array p :
  NoDup array → (m < length array)%nat → reach m array p →
  ∃ js, length js = m ∧ draws_upto js ∧ swaps 1 js array = Some p.
Proof.
  intros Hnd. revert p. induction m as [|m IH]; intros p Hlt Hreach.
  - apply reach_0 in Hreach as ->; [|done]. by exists [].
  - destruct Hreach as [Hperm Hfix].
    destruct (lookup_lt_is_Some_2 array (S m)) as [x Hx]; [done|].
    assert (Hin : x ∈ p) by (rewrite Hperm; by eapply list_elem_of_lookup_2).
    apply list_elem_of_lookup_1 in Hin as [j Hj].
    assert (Hjm : (j ≤ S m)%nat).
    { destruct (decide (j ≤ S m)%nat); [done|].
      rewrite Hfix in Hj by lia.
      pose proof (NoDup_lookup _ _ _ _ Hnd Hj Hx). lia. }
    destruct (swap_in_bounds p (Z.of_nat (S m)) (Z.of_nat j)) as [b Hb].
    { rewrite Hperm. lia. } { rewrite Hperm. lia. }
    destruct (IH b) as (js & Hlen & Hjs & Hswaps); [lia| |].
    { split; [by rewrite (swap_Permutation _ _ _ _ Hb)|].
      intros k Hk. destruct (decide (k = S m)) as [->|].
      - apply swap_involutive in Hb.
        pose proof (swap_lookup_i _ _ _ _ Hb) as Hb'.
        rewrite !array_get_nat in Hb'. congruence.
      - rewrite (swap_lookup_other _ _ _ _ k Hb) by lia. apply Hfix. lia. }
    exists (js ++ [Z.of_nat j]). split; [rewrite length_app; simpl; lia|]. split.
    + apply draws_upto_app. split; [done|]. lia.
    + rewrite swaps_snoc, Hswaps. simpl. rewrite Hlen.
      replace (1 + Z.of_nat m) with (Z.of_nat (S m)) by lia.
      by apply swap_involutive.
Qed.

Lemma swaps_total js array :
  valid_draws (length array) js →
  ∃ p, swaps 1 js array = Some p ∧ p ≡ₚ array.
Proof.
  intros [Hlen Hjs]. destruct array as [|a array].
  - destruct js; [|done]. by exists [].
  - destruct (swaps_reach js (a :: array)) as (p & Hp & Hperm & _); [done|simpl in *; lia|].
    by exists p.
Qed.

Lemma swaps_bijective array p :
  NoDup array → p ≡ₚ array →
  ∃ js, valid_draws (length array) js ∧ swaps 1 js array = Some p ∧
        ∀ js', valid_draws (length array) js' → swaps 1 js' array = Some p → js' = js.
Proof.
  intros Hnd Hperm. destruct array as [|a array].
  - apply Permutation_nil_r in Hperm as ->. exists []. split; [by split|]. split; [done|].
    intros js' [Hlen _] _. by destruct js'.
  - destruct (swaps_surjective (length array) (a :: array) p) as (js & Hlen & Hjs & Hp);
      [done|simpl; lia| |].
    { split; [done|]. intros k Hk.
      rewrite !lookup_ge_None_2; [done|simpl; lia|rewrite Hperm; simpl; lia]. }
    exists js. split; [split; [simpl; lia|done]|]. split; [done|].
    intros js' [Hlen' Hjs'] Hp'. simpl in Hlen'.
    apply (swaps_injective js' js (a :: array) p); try done; [lia|simpl; lia].
Qed.

Lemma swaps_Permutation i js array p : swaps i js array = Some p → p ≡ₚ array.
Proof.
  revert i array. induction js as [|j js IH]; intros i array; simpl.
  - by intros [= ->].
  - destruct (swap array i j) as [array'|] eqn:Hswap; simpl; [|done].
    intros H%IH. by rewrite H, (swap_Permutation _ _ _ _ Hswap).
Qed.

Lemma shuffle_Permutation rnd array p : shuffle rnd array = Some p → p ≡ₚ array.
Proof. rewrite shuffle_swaps. apply swaps_Permutation. Qed.

Lemma shuffle_Some rnd array :
  (∀ k, unit_draw (rnd k)) → ∃ p, shuffle rnd array = Some p ∧ p ≡ₚ array.
Proof.
  intros Hrnd. rewrite shuffle_swaps. apply swaps_total. by apply drawn_valid.
Qed.
End ShuffleFacts.

Section ShuffleNatural.
Import Shuffle.
Context {A B : Type} (f : B → A).

Lemma array_get_fmap (tags : list B) k :
  array_get (f <$> tags) k = f <$> array_get tags k.
Proof. unfold array_get. case_decide; [apply list_lookup_fmap|done]. Qed.

Lemma array_set_fmap (tags : list B) k x :
  array_set (f <$> tags) k (f x) = fmap (M:=list) f <$> array_set tags k x.
Proof.
  unfold array_set. rewrite length_fmap. case_decide; simpl; [|done].
  by rewrite list_fmap_insert.
Qed.

Lemma swap_fmap (tags : list B) i j :
  swap (f <$> tags) i j = fmap (M:=list) f <$> swap tags i j.
Proof.
  unfold swap. rewrite !array_get_fmap.
  destruct (array_get tags i) as [x|]; simpl; [|done].
  destruct (array_get tags j) as [y|]; simpl; [|done].
  rewrite array_set_fmap.
  destruct (array_set tags i y) as [tags1|]; simpl; [|done].
  apply array_set_fmap.
Qed.

Lemma swaps_fmap (tags : list B) i js :
  swaps i js (f <$> tags) = fmap (M:=list) f <$> swaps i js tags.
Proof.
  revert i tags. induction js as [|j js IH]; intros i tags; simpl; [done|].
  rewrite swap_fmap. destruct (swap tags i j) as [tags'|]; simpl; [apply IH|done].
Qed.
End ShuffleNatural.

Section Counting.
Import Shuffle.

Lemma length_bind_const {X Y} (g : X → list Y) (l : list X) (c : nat) :
  (∀ x, length (g x) = c) → length (l ≫= g) = (length l * c)%nat.
Proof.
  intros Hg. induction l as [|x l IH]; [done|].
  rewrite bind_cons, length_app, IH, Hg. simpl. lia.
Qed.

Lemma all_draws_upto_length m : length (all_draws_upto m) = fact (S m).
Proof.
  induction m as [|m IH]; [done|].
  cbn [all_draws_upto].
  rewrite (length_bind_const _ _ (S (S m))).
  - rewrite IH. change (fact (S (S m))) with (S (S m) * fact (S m))%nat. lia.
  - intros js. rewrite (length_bind_const _ _ 1); [rewrite length_seq; lia|done].
Qed.

Lemma all_draws_upto_elem m js :
  js ∈ all_draws_upto m ↔ length js = m ∧ draws_upto js.
Proof.
  revert js. induction m as [|m IH]; intros js.
  - simpl. rewrite list_elem_of_singleton. split.
    + intros ->. split; [done|]. intros k j Hk. done.
    + intros [Hlen _]. by destruct js.
  - cbn [all_draws_upto]. rewrite list_elem_of_bind. split.
    + intros (js0 & Hin & (Hlen & Hjs)%IH).
      apply list_elem_of_bind in Hin as (j & Hin & Hj%elem_of_seq).
      apply list_elem_of_singleton in Hin as ->. split.
      * rewrite length_app. simpl. lia.
      * apply draws_upto_app. split; [done|]. lia.
    + intros [Hlen Hjs].
      destruct js as [|j js _] using rev_ind; [done|].
      rewrite length_app in Hlen. simpl in Hlen.
      apply draws_upto_app in Hjs as [Hjs Hj].
      exists js. split; [|apply IH; split; [lia|done]].
      apply list_elem_of_bind. exists (Z.to_nat j). split.
      * apply list_elem_of_singleton. by rewrite Z2Nat.id by lia.
      * apply elem_of_seq. lia.
Qed.

Lemma all_draws_upto_NoDup m : NoDup (all_draws_upto m).
Proof.
  induction m as [|m IH]; [apply NoDup_singleton|].
  cbn [all_draws_upto]. apply NoDup_bind; [| |done].
  - intros js1 js2 js _ _ (j1 & ->%list_elem_of_singleton & _)%list_elem_of_bind
      (j2 & Heq%list_elem_of_singleton & _)%list_elem_of_bind.
    by apply app_inj_tail in Heq as [].
  - intros js _. apply NoDup_bind; [| |apply NoDup_seq].
    + intros j1 j2 y _ _ ->%list_elem_of_singleton Heq%list_elem_of_singleton.
      apply app_inj_tail in Heq as [_ ?]. lia.
    + intros j _. apply NoDup_singleton.
Qed.

Lemma all_draws_enumerates n :
  NoDup (all_draws n) ∧ length (all_draws n) = fact n ∧
  ∀ js, js ∈ all_draws n ↔ valid_draws n js.
Proof.
  unfold all_draws, valid_draws. split; [apply all_draws_upto_NoDup|]. split.
  - rewrite all_draws_upto_length. by destruct n as [|[|n]].
  - intros js. apply all_draws_upto_elem.
Qed.
End Counting.

Section ShuffleClaims.
Import Shuffle.
Context {A : Type}.

(** C10. Whatever [Math.random()] returns in [[0,1)], every index [j]
    drawn at position [i] satisfies [0 <= j <= i <= array.length - 1],
    no element is read or written outside the bounds of the array (the
    run ends in [Some]), and the array ends as a permutation of the
    original one; arrays of length 0 or 1 are left as they are. *)
Theorem shuffle_in_bounds_permutation (rnd : nat → Q) (array : list A) :
  (∀ k, unit_draw (rnd k)) →
  (∀ k : nat, (k < length array - 1)%nat →
     let i := Z.of_nat k + 1 in
     drawn rnd 0 (length array - 1) 1 !! k = Some (randomInt 0 (i + 1) (rnd k)) ∧
     0 ≤ randomInt 0 (i + 1) (rnd k) ≤ i ∧ i < Z.of_nat (length array)) ∧
  ∃ array', shuffle rnd array = Some array' ∧ array' ≡ₚ array ∧
            ((length array ≤ 1)%nat → array' = array).
Proof.
  intros Hrnd. split.
  - intros k Hk i. split; [|split].
    + rewrite drawn_lookup by done. unfold i. simpl. do 2 f_equal. lia.
    + apply randomInt_bounds; [lia|done].
    + lia.
  - destruct (shuffle_Some rnd array Hrnd) as (p & Hp & Hperm).
    exists p. split; [done|]. split; [done|].
    intros Hlen. unfold shuffle in Hp.
    replace (length array - 1)%nat with 0%nat in Hp by lia.
    simpl in Hp. congruence.
Qed.

(** C4. The loop permutes positions: on [f <$> tags] it returns the image
    of what it returns on [tags].  With pairwise distinct [tags], the
    drawn tuple of a run of [shuffle] is a tuple of [valid_draws]; the
    index [j] of [[0,i]] is drawn exactly when [Math.random()] falls in
    [[j/(i+1), (j+1)/(i+1))], an interval of length [1/(i+1)] whatever
    [j]; every tuple of [valid_draws] yields a permutation, every
    permutation comes from exactly one such tuple, and there are [n!]
    of them. *)
Theorem shuffle_uniform {B : Type} (f : B → A) (tags : list B) :
  NoDup tags →
  let n := length tags in
  (∀ rnd, (∀ k, unit_draw (rnd k)) →
     valid_draws n (drawn rnd 0 (n - 1) 1) ∧
     shuffle rnd tags = swaps 1 (drawn rnd 0 (n - 1) 1) tags) ∧
  (∀ i j r, 0 ≤ i →
     randomInt 0 (i + 1) r = j ↔
     (inject_Z j / inject_Z (i + 1) <= r)%Q ∧
     (r < inject_Z (j + 1) / inject_Z (i + 1))%Q) ∧
  (∀ rnd, shuffle rnd (f <$> tags) = fmap (M:=list) f <$> shuffle rnd tags) ∧
  (∀ js, valid_draws n js → ∃ p, swaps 1 js tags = Some p ∧ p ≡ₚ tags) ∧
  (∀ p, p ≡ₚ tags →
     ∃ js, valid_draws n js ∧ swaps 1 js tags = Some p ∧
           ∀ js', valid_draws n js' → swaps 1 js' tags = Some p → js' = js) ∧
  NoDup (all_draws n) ∧ length (all_draws n) = fact n ∧
  (∀ js, js ∈ all_draws n ↔ valid_draws n js).
Proof.
  intros Hnd n.
  split; [intros rnd Hrnd; split; [by apply drawn_valid | apply shuffle_swaps]|].
  split; [intros; by apply randomInt_interval|].
  split; [intros rnd; rewrite !shuffle_swaps, length_fmap; apply swaps_fmap|].
  split; [intros js; apply swaps_total|].
  split; [intros p; by apply swaps_bijective|].
  apply all_draws_enumerates.
Qed.
End ShuffleClaims.

Lemma shuffle_in_bounds_permutation_witness :
∃ array', Shuffle.shuffle (λ _, 1 # 2)%Q [10; 20; 30] = Some array' ∧
          array' ≡ₚ [10; 20; 30].
Proof.
destruct (shuffle_in_bounds_permutation (λ _, 1 # 2)%Q [10; 20; 30])
  as (_ & array' & H1 & H2 & _).
- intros _. split; [discriminate | reflexivity].
- exists array'. split; assumption.
Defined.

Lemma shuffle_uniform_witness :
length (Shuffle.all_draws 3) = 6%nat ∧
∃ js, Shuffle.swaps 1 js [0; 1; 2]%nat = Some [1; 0; 2]%nat.
Proof.
destruct (shuffle_uniform (A:=nat) id [0; 1; 2]%nat) as (_ & _ & _ & _ & Hbij & _ & Hlen & _).
- exact (NoDup_seq 0 3).
- split; [exact Hlen|].
  destruct (Hbij [1; 0; 2]%nat) as (js & _ & Hjs & _).
  + apply perm_swap.
  + by exists js.
Defined.

(** ** [select]: how the world evolves *)

Section SelectFacts.
Import Js Select.
Local Open Scope nat_scope.
Implicit Types (w : World) (s : PromiseRef → option (Outcome Value)).

Lemma bind_inv {A B} (m : M A) (k : A → M B) w r w' :
  (m ≫= k) w = (r, w') →
  (∃ a w1, m w = (Normal a, w1) ∧ k a w1 = (r, w')) ∨
  (m w = (Throw match r with Throw e => e | _ => Undefined end, w')
     ∧ ∃ e, r = Throw e) ∨
  (m w = (Suspended, w') ∧ r = Suspended) ∨
  (m w = (OutOfFuel, w') ∧ r = OutOfFuel).
Proof.
  unfold mbind, M_bind, bind. destruct (m w) as [[a|e| |] w1]; intros H.
  - left. eauto.
  - injection H as <- <-. right. left. eauto.
  - injection H as <- <-. right. right. by left.
  - injection H as <- <-. right. right. by right.
Qed.

Lemma bind_normal {A B} (m : M A) (k : A → M B) w a w1 :
  m w = (Normal a, w1) → (m ≫= k) w = k a w1.
Proof. unfold mbind, M_bind, bind. by intros ->. Qed.

Lemma evolves_refl P w : evolves P w w.
Proof. split; [exists []; by rewrite app_nil_r|done]. Qed.

Lemma evolves_trans P w1 w2 w3 : evolves P w1 w2 → evolves P w2 w3 → evolves P w1 w3.
Proof.
  intros [(ev1 & Hl1 & HP1) (Hs1 & Ha1 & Hc1)] [(ev2 & Hl2 & HP2) (Hs2 & Ha2 & Hc2)].
  split; [|split; [|split]].
  - exists (ev1 ++ ev2). rewrite Hl2, Hl1, app_assoc. split; [done|]. by apply Forall_app.
  - eauto.
  - congruence.
  - congruence.
Qed.

Lemma evolves_weaken (P Q : Event → Prop) w w' :
  (∀ ev, P ev → Q ev) → evolves P w w' → evolves Q w w'.
Proof.
  intros HPQ [(ev & Hl & HP) ?]. split; [|done].
  exists ev. split; [done|]. by eapply Forall_impl.
Qed.

Lemma evolving_ret P {A} (a : A) : evolving P (mret a).
Proof. intros w r w' [= <- <-]. apply evolves_refl. Qed.

Lemma evolving_throw P {A} e : evolving P (@throw A e).
Proof. intros w r w' [= <- <-]. apply evolves_refl. Qed.

Lemma evolving_bind P {A B} (m : M A) (k : A → M B) :
  evolving P m → (∀ a, evolving P (k a)) → evolving P (m ≫= k).
Proof.
  intros Hm Hk w r w' H. apply bind_inv in H as [(a & w1 & H1 & H2)|[[H _]|[[H _]|[H _]]]].
  - eapply evolves_trans; [by eapply Hm|by eapply Hk].
  - by eapply Hm.
  - by eapply Hm.
  - by eapply Hm.
Qed.

Lemma evolving_try_catch P {A} (m : M A) handler :
  evolving P m → (∀ e, evolving P (handler e)) → evolving P (try_catch m handler).
Proof.
  intros Hm Hh w r w'. unfold try_catch.
  destruct (m w) as [[a|e| |] w1] eqn:H; intros H'.
  - injection H' as <- <-. by eapply Hm.
  - eapply evolves_trans; [by eapply Hm|by eapply Hh].
  - injection H' as <- <-. by eapply Hm.
  - injection H' as <- <-. by eapply Hm.
Qed.

Lemma evolving_emit (P : Event → Prop) ev : P ev → evolving P (emit ev).
Proof.
  intros HP w r w' [= <- <-]. split; [|done].
  exists [ev]. split; [done|]. by apply Forall_singleton.
Qed.

Lemma evolving_next_call P : evolving P next_call.
Proof. intros w r w' [= <- <-]. split; [exists []; by rewrite app_nil_r|done]. Qed.

Lemma settle_keeps ref o s r o' : s r = Some o' → settle ref o s r = Some o'.
Proof. unfold settle. intros H. case_decide; by rewrite H. Qed.

Lemma evolving_returned P call answer : evolving P (returned call answer).
Proof.
  destruct answer as [[o|]|e]; simpl; [|apply evolving_ret|apply evolving_throw].
  apply evolving_bind; [|intros; apply evolving_ret].
  intros w r w' [= <- <-]. split; [exists []; by rewrite app_nil_r|]. simpl.
  split; [|done]. intros. by apply settle_keeps.
Qed.

Section WithEnv.
Context (env : Env).

Lemma evolving_call_function (P : Event → Prop) fn signal :
  (∀ call, P (EvCall fn signal call)) → evolving P (call_function env fn signal).
Proof.
  intros HP. apply evolving_bind; [apply evolving_next_call|]. intros call.
  apply evolving_bind; [by apply evolving_emit|]. intros _. apply evolving_returned.
Qed.

Lemma evolving_wait (P : Event → Prop) self tag signal :
  (∀ call, P (EvWait self tag signal call)) → evolving P (wait env self tag signal).
Proof.
  intros HP. apply evolving_bind; [apply evolving_next_call|]. intros call.
  apply evolving_bind; [by apply evolving_emit|]. intros _. apply evolving_returned.
Qed.

Lemma evolving_attempt (P : Event → Prop) self :
  (∀ answer, P (EvAttempt self answer)) → evolving P (attempt env self).
Proof.
  intros HP. apply evolving_bind; [apply evolving_next_call|]. intros call.
  apply evolving_bind; [by apply evolving_emit|]. intros _.
  destruct (answer_attempt env self call); [apply evolving_ret|apply evolving_throw].
Qed.
End WithEnv.

(** *** The race *)

Lemma below_settle ref o s : below s (settle ref o s).
Proof. intros r o'. apply settle_keeps. Qed.

Lemma observe_below s s' p o : below s s' → observe s p = Some o → observe s' p = Some o.
Proof.
  intros Hs. destruct p as [p|]; simpl; [|done].
  destruct (s (source_of p)) as [o'|] eqn:Hsrc; [|done].
  by rewrite (Hs _ _ Hsrc).
Qed.

Lemma first_settled_Some s promises o :
  first_settled s promises = Some o →
  ∃ i p, promises !! i = Some p ∧ observe s p = Some o.
Proof.
  induction promises as [|p rest IH]; simpl; [done|].
  destruct (observe s p) as [o'|] eqn:Hp.
  - intros [= ->]. by exists 0%nat, p.
  - intros (i & q & Hi & Hq)%IH. by exists (S i), q.
Qed.

Lemma play_turn_below turn s promises winner s' winner' :
  play_turn turn s promises winner = (s', winner') → below s s'.
Proof.
  revert s winner. induction turn as [|[ref o] rest IH]; intros s winner; simpl.
  - intros [= <- <-]. by intros ??.
  - intros H%IH. intros r o' Hr. apply H. by apply settle_keeps.
Qed.

Lemma play_turn_winner turn s promises winner s' o :
  play_turn turn s promises winner = (s', Some o) →
  winner = Some o ∨ ∃ i p, promises !! i = Some p ∧ observe s' p = Some o.
Proof.
  revert s winner. induction turn as [|[ref o'] rest IH]; intros s winner; simpl.
  - intros [= <- <-]. by left.
  - intros H. pose proof (play_turn_below _ _ _ _ _ _ H) as Hbelow.
    apply IH in H as [H|H]; [|by right].
    destruct winner as [o''|]; [by left|]. right.
    apply first_settled_Some in H as (i & p & Hi & Hp).
    exists i, p. split; [done|]. by eapply observe_below.
Qed.

Lemma race_turn_below turn s promises s' winner :
  race_turn turn s promises = (s', winner) → below s s'.
Proof.
  unfold race_turn.
  destruct (play_turn turn s (filter immediate promises) None) as [s1 [o1|]] eqn:Hturn.
  - intros [= <- <-]. by eapply play_turn_below.
  - apply play_turn_below.
Qed.

Lemma race_turn_winner turn s promises s' o :
  race_turn turn s promises = (s', Some o) →
  ∃ i p, promises !! i = Some p ∧ observe s' p = Some o.
Proof.
  unfold race_turn.
  destruct (play_turn turn s (filter immediate promises) None) as [s1 [o1|]] eqn:Hturn.
  - intros [= <- <-]. apply play_turn_winner in Hturn as [|(i & p & Hi & Hp)]; [done|].
    apply list_elem_of_lookup_2, list_elem_of_filter in Hi as [_ Hin].
    apply list_elem_of_lookup_1 in Hin as [j Hj]. by exists j, p.
  - intros H. by apply play_turn_winner in H as [|].
Qed.

Lemma await_turns_below t s promises s' t' o :
  await_turns t s promises = (s', t', o) → below s s'.
Proof.
  revert s. induction t as [|turn rest IH]; intros s; simpl.
  - intros [= <- <- <-]. by intros ??.
  - destruct (race_turn turn s promises) as [s1 [o1|]] eqn:Hturn.
    + intros [= <- <- <-]. by eapply race_turn_below.
    + intros H%IH. intros r o' Hr. eapply H, race_turn_below; done.
Qed.

Lemma await_turns_winner t s promises s' t' o :
  await_turns t s promises = (s', t', Some o) →
  ∃ i p, promises !! i = Some p ∧ observe s' p = Some o.
Proof.
  revert s. induction t as [|turn rest IH]; intros s; simpl; [done|].
  destruct (race_turn turn s promises) as [s1 [o1|]] eqn:Hturn.
  - intros [= <- <- <-]. by eapply race_turn_winner.
  - apply IH.
Qed.

Lemma race_settlement_spec promises w r w' :
  race_settlement promises w = (r, w') →
  log w' = log w ∧ below (settled w) (settled w') ∧
  aborted w' = aborted w ∧ controllers w' = controllers w ∧ calls w' = calls w ∧
  match r with
  | Normal winner => settled_with (settled w') promises (Fulfilled winner)
  | Throw reason => settled_with (settled w') promises (Rejected reason)
  | Suspended => True
  | OutOfFuel => False
  end.
Proof.
  unfold race_settlement.
  destruct (first_settled (settled w) promises) as [o|] eqn:Hfirst.
  - apply first_settled_Some in Hfirst.
    destruct o; simpl; intros [= <- <-]; (repeat split; [by intros ??|done]).
  - destruct (await_turns (turns w) (settled w) promises) as [[s' t'] o] eqn:Hturns.
    pose proof (await_turns_below _ _ _ _ _ _ Hturns) as Hbelow.
    destruct o as [o|].
    + apply await_turns_winner in Hturns.
      destruct o; simpl; intros [= <- <-]; simpl; done.
    + simpl. intros [= <- <-]. done.
Qed.

Lemma evolving_await_race (P : Event → Prop) promises :
  P (EvRace promises) → evolving P (await_race promises).
Proof.
  intros HP. apply evolving_bind; [by apply evolving_emit|]. intros _.
  intros w r w' (Hlog & Hbelow & Ha & Hc & _)%race_settlement_spec.
  split; [exists []; by rewrite app_nil_r|done].
Qed.

(** *** Calls into user code *)

Section Calls.
Context (env : Env).

Lemma call_function_spec fn signal w r w' :
  call_function env fn signal w = (r, w') →
  log w' = log w ++ [EvCall fn signal (calls w)] ∧
  match r with
  | Normal source => source = Made (calls w)
  | Throw e => answer_function env fn (calls w) = Throws e
  | _ => False
  end.
Proof.
  unfold call_function, mbind, M_bind, bind, next_call, emit, returned. simpl.
  destruct (answer_function env fn (calls w)) as [[o|]|e]; simpl; intros [= <- <-]; done.
Qed.

Lemma wait_spec self tag signal w r w' :
  wait env self tag signal w = (r, w') →
  log w' = log w ++ [EvWait self tag signal (calls w)] ∧
  match r with
  | Normal source => source = Made (calls w)
  | Throw e => answer_wait env self (calls w) = Throws e
  | _ => False
  end.
Proof.
  unfold wait, mbind, M_bind, bind, next_call, emit, returned. simpl.
  destruct (answer_wait env self (calls w)) as [[o|]|e]; simpl; intros [= <- <-]; done.
Qed.

Lemma attempt_spec self w r w' :
  attempt env self w = (r, w') →
  log w' = log w ++ [EvAttempt self (answer_attempt env self (calls w))] ∧
  settled w' = settled w ∧
  match r with
  | Normal result => answer_attempt env self (calls w) = Attempted result
  | Throw e => answer_attempt env self (calls w) = AttemptThrows e
  | _ => False
  end.
Proof.
  unfold attempt, mbind, M_bind, bind, next_call, emit. simpl.
  destruct (answer_attempt env self (calls w)) as [result|e]; simpl; intros [= <- <-]; done.
Qed.

Lemma attempt_wrapped_spec self name w r w' :
  try_catch (attempt env self) (λ exception, throw (SelectError name exception)) w = (r, w') →
  log w' = log w ++ [EvAttempt self (answer_attempt env self (calls w))] ∧
  settled w' = settled w ∧
  match r with
  | Normal result => answer_attempt env self (calls w) = Attempted result
  | Throw e => ∃ cause, e = SelectError name cause ∧
                        answer_attempt env self (calls w) = AttemptThrows cause
  | _ => False
  end.
Proof.
  unfold try_catch. destruct (attempt env self w) as [[result|e| |] w1] eqn:H.
  all: apply attempt_spec in H as (Hlog & Hs & H).
  - by intros [= <- <-].
  - intros [= <- <-]. eauto.
  - done.
  - done.
Qed.
End Calls.

(** *** Raced promises come from the operations *)

Lemma of_operation_more ops events events' p :
  of_operation ops events p → of_operation ops (events ++ events') p.
Proof.
  destruct p as [[[q|call] name|source [|n i self] name|source [|n i self]]|]; simpl; try done.
  intros (fn & signal & ? & ?). exists fn, signal. split; [done|].
  apply elem_of_app. by left.
Qed.

Lemma array_assign_Forall {X} (P : option X → Prop) promises index (p : X) :
  P None → P (Some p) → Forall P promises → Forall P (array_assign promises index p).
Proof.
  intros HN HS Hall. unfold array_assign. case_decide.
  - by apply Forall_insert.
  - apply Forall_app. split; [done|]. apply Forall_app. split.
    + by apply Forall_replicate.
    + by apply Forall_singleton.
Qed.

Section Loop.
Context (env : Env) (ops : SelectOpsMap).

Lemma waitForOp_of_operation op name index c w p w' :
  (name, Some op) ∈ ops →
  waitForOp env op name index c w = (Normal p, w') →
  of_operation ops (log w') (Some p).
Proof.
  intros Hin. destruct op as [self|q|fn]; simpl.
  - intros [(source & w1 & Hw & [= <- <-])|[[_ [? [=]]]|[[_ [=]]|[_ [=]]]]]%bind_inv.
    done.
  - by intros [= <- <-].
  - intros [(source & w1 & Hw & [= <- <-])|[[_ [? [=]]]|[[_ [=]]|[_ [=]]]]]%bind_inv.
    apply call_function_spec in Hw as [Hlog ->]. simpl.
    exists fn, c. split; [done|]. rewrite Hlog. apply elem_of_app. right. by left.
Qed.

Lemma evolving_waitForOp (P : Event → Prop) op name index c :
  (∀ fn call, P (EvCall fn c call)) → (∀ self tag call, P (EvWait self tag c call)) →
  evolving P (waitForOp env op name index c).
Proof.
  intros HPc HPw. destruct op as [self|q|fn]; simpl.
  - apply evolving_bind; [by apply evolving_wait|]. intros; apply evolving_ret.
  - apply evolving_ret.
  - apply evolving_bind; [by apply evolving_call_function|]. intros; apply evolving_ret.
Qed.

Lemma evolving_forEach (P : Event → Prop) c nameAndOp index promises :
  (∀ fn call, P (EvCall fn c call)) → (∀ self tag call, P (EvWait self tag c call)) →
  evolving P (forEach env c nameAndOp index promises).
Proof.
  intros HPc HPw. revert index promises.
  induction nameAndOp as [|[name [op|]] rest IH]; intros index promises; simpl.
  - apply evolving_ret.
  - apply evolving_bind; [by apply evolving_waitForOp|]. intros p. apply IH.
  - apply IH.
Qed.

Lemma forEach_of_operation c nameAndOp index promises w promises' w' :
  (∀ e, e ∈ nameAndOp → e ∈ ops) →
  Forall (of_operation ops (log w)) promises →
  forEach env c nameAndOp index promises w = (Normal promises', w') →
  Forall (of_operation ops (log w')) promises'.
Proof.
  revert index promises w.
  induction nameAndOp as [|[name [op|]] rest IH]; intros index promises w Hin Hall; simpl.
  - by intros [= <- <-].
  - intros [(p & w1 & Hw & Hrest)|[[_ [? [=]]]|[[_ [=]]|[_ [=]]]]]%bind_inv.
    eapply (IH _ _ w1); [|  |exact Hrest].
    + intros e He. apply Hin. by right.
    + destruct (evolving_waitForOp (λ _, True) op name index c ltac:(done) ltac:(done)
                  _ _ _ Hw) as [(events & Hlog & _) _].
      apply Forall_app. split.
      * rewrite Hlog. eapply Forall_impl; [exact Hall|]. intros. by apply of_operation_more.
      * apply Forall_singleton. eapply waitForOp_of_operation; [|exact Hw].
        apply Hin. by left.
  - apply IH; [|done]. intros e He. apply Hin. by right.
Qed.

Lemma forEach_nulls c nameAndOp index promises w :
  Forall (λ e, e.2 = None) nameAndOp →
  forEach env c nameAndOp index promises w = (Normal promises, w).
Proof.
  revert index. induction nameAndOp as [|[name op] rest IH]; intros index Hall; [done|].
  apply Forall_cons in Hall as [Hop Hall]. simpl in Hop. subst op. simpl. by apply IH.
Qed.

Lemma settled_with_operation s events promises winner :
  Forall (of_operation ops events) promises →
  settled_with s promises (Fulfilled (Some winner)) →
  match winner with
  | WaitPromise name value =>
      ∃ source, s source = Some (Fulfilled value) ∧
        match source with
        | Given q => (name, Some (OpPromise q)) ∈ ops
        | Made call => ∃ fn signal, (name, Some (OpFunction fn)) ∈ ops ∧
                                    EvCall fn signal call ∈ events
        end
  | WaitSelectable name index self => (name, Some (OpSelectable self)) ∈ ops
  end.
Proof.
  intros Hall (i & p & Hi & Hp).
  pose proof (Forall_lookup_1 _ _ _ _ Hall Hi) as Hof.
  destruct p as [[source name|source tag name|source tag]|]; simpl in Hp; [| | |done].
  - destruct (s source) as [[v|e]|] eqn:Hs; [|done..].
    injection Hp as <-. exists source. split; [done|]. by destruct source.
  - destruct (s source) as [[v|e]|] eqn:Hs; [|done..].
    injection Hp as <-. destruct tag; [done|]. by destruct Hof as [-> ?].
  - destruct (s source) as [[v|e]|] eqn:Hs; [|done..].
    injection Hp as <-. by destruct tag.
Qed.

Lemma race_loop_result fuel c promises w result w' :
  Forall (of_operation ops (log w)) promises →
  race_loop env fuel c promises w = (Normal result, w') →
  ∃ op, (type result, Some op) ∈ ops ∧ produced w' op (value result).
Proof.
  revert promises w. induction fuel as [|fuel IH]; intros promises w Hall; [done|].
  simpl.
  intros [(winner & w1 & Hrace & Hrest)|[[_ [? [=]]]|[[_ [=]]|[_ [=]]]]]%bind_inv.
  unfold await_race in Hrace.
  apply bind_inv in Hrace as [([] & w0 & [= <-] & Hrace)|[[_ [? [=]]]|[[_ [=]]|[_ [=]]]]].
  apply race_settlement_spec in Hrace as (Hlog & Hbelow & _ & _ & _ & Hwinner).
  simpl in Hlog.
  assert (Hall1 : Forall (of_operation ops (log w1)) promises).
  { rewrite Hlog. eapply Forall_impl; [exact Hall|]. intros. by apply of_operation_more. }
  destruct winner as [winner|]; [|done].
  pose proof (settled_with_operation _ _ _ _ Hall1 Hwinner) as Hop.
  destruct winner as [name value|name index self].
  - injection Hrest as <- <-. simpl.
    destruct Hop as (source & Hs & Hsource). destruct source as [q|call].
    + by exists (OpPromise q).
    + destruct Hsource as (fn & signal & Hin & Hev).
      exists (OpFunction fn). split; [done|]. simpl. eauto.
  - apply bind_inv in Hrest
      as [(attemptResult & w2 & Hattempt & Hrest)|[[_ [? [=]]]|[[_ [=]]|[_ [=]]]]].
    apply attempt_wrapped_spec in Hattempt as (Hlog2 & Hs2 & Hanswer).
    destruct attemptResult as [value|].
    + injection Hrest as <- <-. exists (OpSelectable self). split; [done|]. simpl.
      exists (log w1). by rewrite Hlog2, Hanswer.
    + apply bind_inv in Hrest
        as [(p & w3 & Hwait & Hrest)|[[_ [? [=]]]|[[_ [=]]|[_ [=]]]]].
      eapply (IH _ w3); [|exact Hrest].
      apply wait_spec in Hwait as [Hlog3 _].
      apply array_assign_Forall; [done|done|].
      rewrite Hlog3, Hlog2.
      eapply Forall_impl; [exact Hall1|]. intros. by do 2 apply of_operation_more.
Qed.
End Loop.

(** *** [select] as a whole *)

Section Whole.
Context (env : Env).

Lemma try_finally_abort_inv {A} (m : M A) c w r w' :
  try_finally m (abort c) w = (r, w') →
  (exited r ∧ ∃ w1, m w = (r, w1) ∧ w' = after_abort c w1) ∨
  (¬ exited r ∧ m w = (r, w')).
Proof.
  unfold try_finally. destruct (m w) as [[a|e| |] w1] eqn:H.
  - intros [= <- <-]. left. split; [done|]. by exists w1.
  - intros [= <- <-]. left. split; [done|]. by exists w1.
  - intros [= <- <-]. right. split; [by intros []|done].
  - intros [= <- <-]. right. split; [by intros []|done].
Qed.

Lemma select_inv fuel ops w r w' :
  select env fuel ops w = (r, w') →
  let c := controllers w in
  match Shuffle.shuffle (random env) ops with
  | None => r = Throw TypeError ∧ w' = after_new w
  | Some nameAndOp =>
      match forEach env c nameAndOp 0 [] (after_new w) with
      | (Normal promises, wf) =>
          if decide (length promises = 0)%nat
          then r = Throw (no_operation_error ops) ∧ w' = wf
          else try_finally (race_loop env fuel c promises) (abort c) wf = (r, w')
      | (Throw e, wf) => r = Throw e ∧ w' = wf
      | (Suspended, wf) => r = Suspended ∧ w' = wf
      | (OutOfFuel, wf) => r = OutOfFuel ∧ w' = wf
      end
  end.
Proof.
  unfold select, mbind, M_bind, bind, newAbortController, shuffled_entries.
  fold (after_new w). simpl.
  destruct (Shuffle.shuffle (random env) ops) as [nameAndOp|]; simpl.
  - destruct (forEach env (controllers w) nameAndOp 0 [] (after_new w))
      as [[promises|e| |] wf]; try (by intros [= <- <-]).
    case_decide; [by intros [= <- <-]|done].
  - by intros [= <- <-].
Qed.
End Whole.

Section Claims.
Context (env : Env).

Lemma select_normal_inv fuel ops w result w' :
  select env fuel ops w = (Normal result, w') →
  ∃ nameAndOp promises wf w1,
    nameAndOp ≡ₚ ops ∧
    forEach env (controllers w) nameAndOp 0 [] (after_new w) = (Normal promises, wf) ∧
    race_loop env fuel (controllers w) promises wf = (Normal result, w1) ∧
    w' = after_abort (controllers w) w1.
Proof.
  intros H%select_inv. cbv zeta in H.
  destruct (Shuffle.shuffle (random env) ops) as [nameAndOp|] eqn:Hshuffle; [|by destruct H].
  apply shuffle_Permutation in Hshuffle.
  destruct (forEach env (controllers w) nameAndOp 0 [] (after_new w))
    as [[promises|e| |] wf] eqn:Hfor; [|by destruct H..].
  case_decide; [by destruct H|].
  apply try_finally_abort_inv in H as [(_ & w1 & H & ->)|[Hne _]]; [|by destruct Hne].
  by exists nameAndOp, promises, wf, w1.
Qed.

Lemma select_without_operation fuel ops w :
  (∀ k, Shuffle.unit_draw (random env k)) → Forall (λ e, e.2 = None) ops →
  select env fuel ops w = (Throw (no_operation_error ops), after_new w).
Proof.
  intros Hrnd Hnull.
  destruct (shuffle_Some (random env) ops Hrnd) as (nameAndOp & Hshuffle & Hperm).
  destruct (select env fuel ops w) as [r w'] eqn:H.
  apply select_inv in H. cbv zeta in H. unfold NullableSelectOp in H. rewrite Hshuffle in H.
  rewrite forEach_nulls in H by (by rewrite Hperm). simpl in H.
  by destruct H as [-> ->].
Qed.

Lemma evolving_race_loop fuel c promises :
  evolving (signalled c) (race_loop env fuel c promises).
Proof.
  revert promises. induction fuel as [|fuel IH]; intros promises.
  - intros w r w' [= <- <-]. apply evolves_refl.
  - simpl. apply evolving_bind; [by apply evolving_await_race|].
    intros [[name value|name index self]|]; [apply evolving_ret| |apply evolving_throw].
    apply evolving_bind.
    { apply evolving_try_catch; [by apply evolving_attempt|]. intros; apply evolving_throw. }
    intros [value|]; [apply evolving_ret|].
    apply evolving_bind; [by apply evolving_wait|]. intros p. apply IH.
Qed.

Lemma start_event_signalled c ev : start_event c ev → signalled c ev.
Proof. by destruct ev. Qed.

Lemma select_events fuel ops w r w' :
  select env fuel ops w = (r, w') →
  let c := controllers w in
  (∃ started, log w' = log w ++ EvNewAbortController c :: started ∧
              Forall (start_event c) started ∧ aborted w' = aborted w) ∨
  (∃ events, Forall (signalled c) events ∧
     ((exited r ∧ log w' = log w ++ EvNewAbortController c :: events ++ [EvAbort c] ∧
       aborted w' = c :: aborted w) ∨
      (¬ exited r ∧ log w' = log w ++ EvNewAbortController c :: events ∧
       aborted w' = aborted w))).
Proof.
  intros H%select_inv c. cbv zeta in H. fold c in H.
  destruct (Shuffle.shuffle (random env) ops) as [nameAndOp|].
  2:{ destruct H as [-> ->]. left. by exists []. }
  destruct (forEach env c nameAndOp 0 [] (after_new w)) as [rf wf] eqn:Hfor.
  destruct (evolving_forEach env (start_event c) c nameAndOp 0 [] ltac:(done) ltac:(done)
              _ _ _ Hfor) as ((started & Hlog & Hstarted) & _ & Ha & _).
  simpl in Hlog, Ha. rewrite <- app_assoc in Hlog. simpl in Hlog.
  assert (Hleft : w' = wf →
    ∃ started, log w' = log w ++ EvNewAbortController c :: started ∧
               Forall (start_event c) started ∧ aborted w' = aborted w).
  { intros ->. by exists started. }
  destruct rf as [promises|e| |]; [|left; apply Hleft; by destruct H..].
  case_decide; [left; apply Hleft; by destruct H|]. right.
  apply try_finally_abort_inv in H as [(Hex & w1 & Hloop & ->)|[Hne Hloop]].
  - destruct (evolving_race_loop _ _ _ _ _ _ Hloop) as ((events & Hlog1 & Hevents) & _ & Ha1 & _).
    exists (started ++ events). split.
    { apply Forall_app. split; [|done].
      eapply Forall_impl; [exact Hstarted|]. apply start_event_signalled. }
    left. split; [done|]. simpl. rewrite Hlog1, Hlog, Ha1, Ha.
    split; [|done]. by rewrite <- !app_assoc.
  - destruct (evolving_race_loop _ _ _ _ _ _ Hloop) as ((events & Hlog1 & Hevents) & _ & Ha1 & _).
    exists (started ++ events). split.
    { apply Forall_app. split; [|done].
      eapply Forall_impl; [exact Hstarted|]. apply start_event_signalled. }
    right. split; [done|]. rewrite Hlog1, Hlog, Ha1, Ha.
    split; [|done]. by rewrite <- !app_assoc.
Qed.
End Claims.
End SelectFacts.

(** ** The promise jobs of the first race *)

Section MicrotaskFacts.
Import Js Select Microtask.
Local Open Scope nat_scope.
Implicit Types (e : Engine) (s : PromiseRef → option (Outcome Value)).

Lemma run_add a b e : run (a + b) e = run b (run a e).
Proof. revert e. induction a as [|a IH]; intros e; simpl; [done|apply IH]. Qed.

(** Making the raced promises of [ready_after_one]: their handlers are
    queued in the order of the array, and every promise is pending. *)
Lemma make_all_ready s k promises e :
  Forall (ready_after_one s) promises →
  (∀ i, state (cells e i) = None) →
  let e' := make_all s k promises e in
  queue e' = queue e ++ (handler_job <$> handlers s k promises) ∧
  (∀ i, state (cells e' i) = None) ∧
  race e' = race e ∧ awaiting e' = awaiting e ∧ resumed e' = resumed e.
Proof.
  revert k e. induction promises as [|p rest IH]; intros k e Hall Hcells; simpl.
  - by rewrite app_nil_r.
  - apply Forall_cons in Hall as [[Hc [o Ho]] Hall].
    destruct (IH (S k) (make s k p e) Hall) as (Hq & Hst & Hr & Ha & Hres).
    { intros i. unfold make. rewrite Hc, Ho. simpl. case_decide; [done|apply Hcells]. }
    assert (Hmake : make s k p e =
              enqueue (Adapt k p o) (set_cell k {| state := None; in_race := false |} e)).
    { unfold make. by rewrite Hc, Ho. }
    rewrite Ho. split; [|split; [exact Hst|]].
    + rewrite Hq, Hmake. simpl. by rewrite <- app_assoc.
    + by rewrite Hr, Ha, Hres, Hmake.
Qed.

Lemma handlers_ready s k promises :
  Forall (ready_after_one s) promises →
  length (handlers s k promises) = length promises ∧
  Forall (λ h, k ≤ h.1.1 < k + length promises) (handlers s k promises).
Proof.
  revert k. induction promises as [|p rest IH]; intros k Hall; simpl; [done|].
  apply Forall_cons in Hall as [[Hc [o Ho]] Hall]. rewrite Ho. simpl.
  destruct (IH (S k) Hall) as [Hlen Hk]. split; [by rewrite Hlen|].
  apply Forall_cons. split; [simpl; lia|].
  eapply Forall_impl; [exact Hk|]. simpl. intros; lia.
Qed.

Lemma race_all_pending k n e :
  (∀ i, state (cells e i) = None) →
  let e' := race_all k n e in
  queue e' = queue e ∧ (∀ i, state (cells e' i) = None) ∧
  (∀ i, k ≤ i < k + n → in_race (cells e' i) = true) ∧
  (∀ i, in_race (cells e i) = true → in_race (cells e' i) = true) ∧
  race e' = race e ∧ awaiting e' = awaiting e ∧ resumed e' = resumed e.
Proof.
  revert k e. induction n as [|n IH]; intros k e Hcells; simpl.
  - split; [done|]. split; [done|]. split; [intros; lia|done].
  - assert (Hone : race_one k e = set_cell k {| state := None; in_race := true |} e).
    { unfold race_one. by rewrite Hcells. }
    destruct (IH (S k) (race_one k e)) as (Hq & Hst & Hin & Hkeep & Hr & Ha & Hres).
    { intros i. rewrite Hone. simpl. case_decide; [done|apply Hcells]. }
    split; [by rewrite Hq, Hone|]. split; [exact Hst|].
    split; [|split; [|by rewrite Hr, Ha, Hres, Hone]].
    + intros i Hi. destruct (decide (i = k)) as [->|].
      * apply Hkeep. rewrite Hone. simpl. by case_decide.
      * apply Hin. lia.
    + intros i Hi. apply Hkeep. rewrite Hone. simpl. by case_decide.
Qed.

(** The handlers run: each settles its raced promise, and queues the
    reaction of the race. *)
Lemma run_handlers (hs : list (nat * Raced * Outcome Value)) (rest : list Job) e :
  queue e = (handler_job <$> hs) ++ rest →
  Forall (λ h, in_race (cells e h.1.1) = true) hs →
  queue (run (length hs) e) = rest ++ (Win ∘ handler_result <$> hs) ∧
  race (run (length hs) e) = race e ∧ awaiting (run (length hs) e) = awaiting e ∧
  resumed (run (length hs) e) = resumed e.
Proof.
  revert rest e. induction hs as [|[[k p] o] hs IH]; intros rest e Hq Hin.
  - simpl in *. by rewrite app_nil_r.
  - apply Forall_cons in Hin as [Hk Hin]. simpl in Hk.
    set (e1 := enqueue (Win (adapt p o))
                 (set_cell k {| state := Some (adapt p o); in_race := true |}
                    {| cells := cells e; registered := registered e;
                       queue := (handler_job <$> hs) ++ rest; race := race e;
                       awaiting := awaiting e; resumed := resumed e |})).
    assert (Hstep : step e = e1).
    { unfold step. rewrite Hq. simpl. unfold settle_raced. simpl. rewrite Hk. reflexivity. }
    simpl run. rewrite Hstep.
    destruct (IH (rest ++ [Win (adapt p o)]) e1) as (Hq' & Hr & Ha & Hres).
    { simpl. by rewrite <- app_assoc. }
    { simpl. eapply Forall_impl; [exact Hin|]. simpl. intros h Hh. by case_decide. }
    split; [rewrite Hq'; simpl; by rewrite <- app_assoc|].
    by rewrite Hr, Ha, Hres.
Qed.

(** Once the race is settled, the reactions of the other raced promises
    change nothing. *)
Lemma run_losers (os : list Settlement) (rest : list Job) e :
  queue e = (Win <$> os) ++ rest → is_Some (race e) →
  queue (run (length os) e) = rest ∧ race (run (length os) e) = race e ∧
  awaiting (run (length os) e) = awaiting e ∧ resumed (run (length os) e) = resumed e.
Proof.
  revert e. induction os as [|o os IH]; intros e Hq [r Hr]; [simpl in *; done|].
  set (e1 := {| cells := cells e; registered := registered e;
                queue := (Win <$> os) ++ rest; race := Some r;
                awaiting := awaiting e; resumed := resumed e |}).
  assert (Hstep : step e = e1).
  { unfold step. rewrite Hq. simpl. rewrite Hr. reflexivity. }
  simpl run. rewrite Hstep.
  destruct (IH e1) as (Hq' & Hr' & Ha & Hres); [reflexivity|by exists r|].
  by rewrite Hq', Hr', Ha, Hres, Hr.
Qed.

(** With every raced promise made by one continuation from a settled
    source, the race is won by the first promise of the array. *)
Lemma first_race_ready s p promises :
  Forall (ready_after_one s) (p :: promises) →
  first_race s (p :: promises) (2 * length (p :: promises) + 1) = observe s (Some p).
Proof.
  intros Hall. unfold first_race.
  set (n := length (p :: promises)).
  destruct (make_all_ready s 0 (p :: promises) empty Hall ltac:(done))
    as (Hq0 & Hst0 & Hr0 & Ha0 & Hres0).
  set (e0 := make_all s 0 (p :: promises) empty) in *.
  destruct (race_all_pending 0 n e0 Hst0) as (Hq1 & Hst1 & Hin1 & _ & Hr1 & Ha1 & Hres1).
  set (e1 := race_all 0 n e0) in *.
  set (e2 := {| cells := cells e1; registered := registered e1;
                queue := queue e1; race := None; awaiting := true;
                resumed := resumed e1 |}).
  assert (He2 : await e1 = e2).
  { unfold await. rewrite Hr1, Hr0. reflexivity. }
  rewrite He2.
  destruct (handlers_ready s 0 (p :: promises) Hall) as [Hlen Hks].
  assert (Hhs : ∃ o hs', s (source_of p) = Some o ∧
                         handlers s 0 (p :: promises) = (0, p, o) :: hs').
  { apply Forall_cons in Hall as [[_ [o Ho]] _]. exists o. simpl. rewrite Ho. eauto. }
  destruct Hhs as (o & hs' & Ho & Hhs).
  set (hs := handlers s 0 (p :: promises)) in *.
  destruct (run_handlers hs [] e2) as (Hq3 & Hr3 & Ha3 & Hres3).
  { simpl. rewrite Hq1, Hq0. simpl. by rewrite app_nil_r. }
  { eapply Forall_impl; [exact Hks|]. intros h Hh. apply Hin1. exact Hh. }
  set (e3 := run (length hs) e2) in *.
  set (os := Win ∘ handler_result <$> hs') in *.
  set (e4 := {| cells := cells e3; registered := registered e3;
                queue := os ++ [Resume (adapt p o)]; race := Some (adapt p o);
                awaiting := true; resumed := resumed e3 |}).
  assert (Hstep : step e3 = e4).
  { unfold step. rewrite Hq3, Hhs. simpl.
    rewrite Hr3, Ha3. reflexivity. }
  destruct (run_losers (handler_result <$> hs') [Resume (adapt p o)] e4)
    as (Hq5 & Hr5 & Ha5 & Hres5).
  { simpl. unfold os. by rewrite list_fmap_compose. }
  { by eexists. }
  rewrite length_fmap in Hq5, Hr5, Ha5, Hres5.
  replace (2 * n + 1) with (length hs + (1 + (length hs' + 1))).
  2:{ rewrite Hlen. unfold n. rewrite <- Hlen, Hhs. simpl. lia. }
  rewrite run_add. fold e3. rewrite run_add. simpl run at 2. rewrite Hstep.
  rewrite run_add. simpl. unfold step. rewrite Hq5. simpl. by rewrite Ho.
Qed.

(** What [waitForOp] returns for each form of operation: the promise of
    user code, given or returned by the call that is logged, behind one
    [then()] or [catch()] that tags its settlement with the name of the
    operation. *)
Lemma waitForOp_adapts (env : Env) op name index signal w p w' :
  waitForOp env op name index signal w = (Normal p, w') →
  continuations p = 1 ∧
  match op with
  | OpPromise q => p = ThenTag (Given q) name ∧ w' = w
  | OpFunction fn =>
      p = ThenTag (Made (calls w)) name ∧
      log w' = log w ++ [EvCall fn signal (calls w)]
  | OpSelectable self =>
      p = CatchWrap (Made (calls w)) (WaitSelectable name index self) name ∧
      log w' = log w ++ [EvWait self (WaitSelectable name index self) signal (calls w)]
  end.
Proof.
  destruct op as [self|q|fn]; simpl.
  - unfold wait, returned, mbind, M_bind, bind, next_call, emit, set_settled, mret, M_ret, ret, throw.
    simpl. destruct (answer_wait env self (calls w)) as [[o|]|ex]; simpl;
      intros [= <- <-]; done.
  - by intros [= <- <-].
  - unfold call_function, returned, mbind, M_bind, bind, next_call, emit, set_settled, mret,
      M_ret, ret, throw.
    simpl. destruct (answer_function env fn (calls w)) as [[o|]|ex]; simpl;
      intros [= <- <-]; done.
Qed.

(** A raced promise with no continuation, as the one that [select] stores
    after a failed attempt, is seen by the race before the promises that
    have one, even from the last place of the array. *)
Lemma race_prefers_fewer_continuations :
  let s : PromiseRef → option (Outcome Value) := λ _, Some (Fulfilled (Num 1)) in
  let tag := WaitSelectable "b" 2 0 in
  first_race s [ThenTag (Given 1) "p"; ThenTag (Made 0) "f"; Waiting (Made 1) tag] 7
  = Some (Fulfilled (Some tag)).
Proof. reflexivity. Qed.

(** The race over a turn, as [select] is modelled with it, is the race
    of the queue of promise jobs: on every array of at most two raced
    promises and every turn of at most three settlements of the small
    cases. *)
Lemma race_turn_as_queued_small promises turn :
  promises ∈ small_arrays 2 0 → turn ∈ small_turns 3 →
  later_race promises turn 8 = (race_turn turn (λ _, None) (Some <$> promises)).2.
Proof.
  intros Hps Ht.
  assert (H : forallb (λ ps, forallb (queued_as_raced 8 ps) (small_turns 3))
                (small_arrays 2 0) = true) by (vm_compute; reflexivity).
  rewrite forallb_forall in H. apply list_elem_of_In in Hps, Ht.
  specialize (H promises Hps). rewrite forallb_forall in H.
  specialize (H turn Ht). by apply bool_decide_eq_true in H.
Qed.

(** The same on arrays of a promise and of a wait, made again or behind a
    [catch()], settled in either order. *)
Lemma race_turn_as_queued :
  let tag := WaitSelectable "s" 0 0 in
  let again := Waiting (Made 2) tag in
  let caught := CatchWrap (Made 2) tag "s" in
  let p := ThenTag (Given 0) "p" in
  let resolves := (Given 0, Fulfilled (Num 7)) in
  let ready := (Made 2, Fulfilled Undefined) in
  let fails := (Made 2, Rejected (Error "boom")) in
  Forall (λ case : list Raced * Turn,
            later_race case.1 case.2 6
            = (race_turn case.2 (λ _, None) (Some <$> case.1)).2)
    [([again; p], [resolves; ready]); ([again; p], [ready; resolves]);
     ([p; again], [resolves; ready]); ([p; again], [resolves; fails]);
     ([p; again], [resolves]); ([p; again], []);
     ([caught; p], [resolves; ready]); ([caught; p], [ready; resolves]);
     ([p; caught], [ready; resolves]); ([p; caught], [fails; resolves]);
     ([p; p; again; again], [ready; resolves; ready])].
Proof. repeat constructor. Qed.
End MicrotaskFacts.


(** ** [select]: the claims *)

Section SelectClaims.
Import Js Select.
Local Open Scope nat_scope.
Context (env : Env).

Lemma exit_is_last (l : list Event) x before o after :
  Forall (λ ev, ¬ exit_event ev) l →
  l ++ [x] = before ++ o :: after → exit_event o → before = l ∧ o = x ∧ after = [].
Proof.
  intros Hl Heq Ho. destruct after as [|y after _] using rev_ind.
  - destruct (app_inj_tail _ _ _ _ Heq) as [H1 H2]. by subst.
  - change (o :: after ++ [y]) with ([o] ++ after ++ [y]) in Heq.
    rewrite !app_assoc in Heq. destruct (app_inj_tail _ _ _ _ Heq) as [H1 _]. subst l.
    rewrite <- app_assoc in Hl. apply Forall_app in Hl as [_ Hl].
    apply Forall_cons in Hl as [Hl _]. done.
Qed.

Lemma signalled_not_exit c ev : signalled c ev → ¬ exit_event ev.
Proof. destruct ev; simpl; tauto. Qed.

Lemma no_exit_event (l : list Event) before o after :
  Forall (λ ev, ¬ exit_event ev) l → l = before ++ o :: after → ¬ exit_event o.
Proof.
  intros Hl ->. apply Forall_app in Hl as [_ Hl]. by apply Forall_cons in Hl as [Hl _].
Qed.

(** C3 (amended). When [select] has come to its race, that is, inside
    its [try] block, every exit (a winner, a failure of a raced
    operation, an exception of [attempt]) is preceded by the abort of the
    one controller whose signal every [wait] and every abortable function
    was called with: the abort is the last thing done before the promise
    of [select] settles.  When no operation is given but [null], the
    error is thrown before the [try] block, and the signal, which nothing
    has received, is not aborted. *)
Theorem select_aborts_before_exit_from_race fuel ops s t :
  let w' := select_call env fuel ops (initial_world s t) in
  ((∃ promises, EvRace promises ∈ log w') →
     aborted_before_exit 0 (log w') ∧
     ((∃ o, exit_event o ∧ o ∈ log w') → aborted w' = [0%nat])) ∧
  ((∀ k, Shuffle.unit_draw (random env k)) → Forall (λ e, e.2 = None) ops →
     log w' = [EvNewAbortController 0; EvRejected (no_operation_error ops)] ∧
     aborted w' = []).
Proof.
  intros w'. split.
  - intros (promises & Hrace). subst w'. unfold select_call in *.
    destruct (select env fuel ops (initial_world s t)) as [r w1] eqn:Hsel.
    apply select_events in Hsel as [(started & Hlog & Hstarted & Ha)|(events & Hev & Hcases)].
    { exfalso. simpl in Hlog.
      assert (Hin : EvRace promises ∈ log w1 ∨ EvRace promises ∈ ([] : list Event)).
      { destruct r; simpl in Hrace; [|  |by left..].
        - apply elem_of_app in Hrace as [|Hr]; [by left|].
          by apply list_elem_of_singleton in Hr.
        - apply elem_of_app in Hrace as [|Hr]; [by left|].
          by apply list_elem_of_singleton in Hr. }
      destruct Hin as [Hin|Hin]; [|by apply elem_of_nil in Hin].
      rewrite Hlog in Hin. apply elem_of_cons in Hin as [|Hin]; [done|].
      by apply (Forall_forall _ _ ) with (x := EvRace promises) in Hstarted. }
    simpl in Hcases.
    assert (Hne : Forall (λ ev, ¬ exit_event ev) (EvNewAbortController 0 :: events)).
    { apply Forall_cons. split; [by intros []|].
      eapply Forall_impl; [exact Hev|]. apply signalled_not_exit. }
    destruct Hcases as [(Hex & Hlog & Ha)|(Hnex & Hlog & Ha)].
    + assert (Hne' : Forall (λ ev, ¬ exit_event ev) (log w1)).
      { rewrite Hlog. change (EvNewAbortController 0 :: events ++ [EvAbort 0])
          with ((EvNewAbortController 0 :: events) ++ [EvAbort 0]).
        apply Forall_app. split; [done|]. apply Forall_singleton. by intros []. }
      destruct r as [result|reason| |]; [| |done..]; simpl.
      * split; [|done]. intros before o after Heq Ho.
        apply exit_is_last in Heq as (-> & _ & _); [|done..].
        exists events. by rewrite Hlog.
      * split; [|done]. intros before o after Heq Ho.
        apply exit_is_last in Heq as (-> & _ & _); [|done..].
        exists events. by rewrite Hlog.
    + assert (Hne' : Forall (λ ev, ¬ exit_event ev) (log w1)) by (by rewrite Hlog).
      destruct r as [result|reason| |]; [by destruct Hnex..| |].
      * split.
        -- intros before o after Heq Ho. by destruct (no_exit_event _ _ _ _ Hne' Heq).
        -- intros (o & Ho & Hin). by apply (Forall_forall _ _) with (x := o) in Hne'.
      * split.
        -- intros before o after Heq Ho. by destruct (no_exit_event _ _ _ _ Hne' Heq).
        -- intros (o & Ho & Hin). by apply (Forall_forall _ _) with (x := o) in Hne'.
  - intros Hrnd Hnull. subst w'. unfold select_call.
    by rewrite select_without_operation.
Qed.

(** C5. The record that [select] resolves with has as [type] the key of
    an operation of the map and as [value] what this operation has
    produced: the value that the promise, or the promise returned by the
    function, is fulfilled with, or the value of the successful attempt
    of the [Selectable], made just before the abort. *)
Theorem select_result_of_winner fuel ops s t result w' :
  select env fuel ops (initial_world s t) = (Normal result, w') →
  ∃ op w1, (type result, Some op) ∈ ops ∧
           produced w1 op (value result) ∧ w' = after_abort 0 w1.
Proof.
  intros (nameAndOp & promises & wf & w1 & Hperm & Hfor & Hloop & ->)%select_normal_inv.
  simpl in *.
  eapply (forEach_of_operation env nameAndOp) in Hfor; [| |by apply Forall_nil].
  2:{ intros e He. exact He. }
  destruct (race_loop_result env nameAndOp _ _ _ _ _ _ Hfor Hloop) as (op & Hin & Hprod).
  exists op, w1. split; [by rewrite <- Hperm|done].
Qed.

(** C6. When every entry of the map is [null], the empty map included,
    [select] makes no call and awaits nothing: it throws the error that
    asks for an operation, and its promise is rejected with it. *)
Theorem select_nothing_but_null fuel ops s t :
  (∀ k, Shuffle.unit_draw (random env k)) → Forall (λ e, e.2 = None) ops →
  select env fuel ops (initial_world s t)
    = (Throw (no_operation_error ops), after_new (initial_world s t)) ∧
  log (select_call env fuel ops (initial_world s t))
    = [EvNewAbortController 0; EvRejected (no_operation_error ops)] ∧
  calls (select_call env fuel ops (initial_world s t)) = 0%nat ∧
  turns (select_call env fuel ops (initial_world s t)) = t.
Proof.
  intros Hrnd Hnull. split; [by apply select_without_operation|].
  unfold select_call. by rewrite select_without_operation.
Qed.
End SelectClaims.

Section SelectExamples.
Import Js Select Examples.
Local Open Scope nat_scope.

Lemma half_unit_draw k : Shuffle.unit_draw (half k).
Proof. split; [discriminate | reflexivity]. Qed.

Lemma select_aborts_before_exit_from_race_witness :
  aborted_before_exit 0 (log (select_call env_ready 1 two_reads first_wait_ready)) ∧
  log (select_call env_ready 1 [] first_wait_ready)
    = [EvNewAbortController 0; EvRejected (no_operation_error [])].
Proof.
  split.
  - apply (proj1 (select_aborts_before_exit_from_race env_ready 1 two_reads nothing_settled
                    [[(Made 0, Fulfilled Undefined)]])).
    exists [Some (CatchWrap (Made 0) (WaitSelectable "ch1" 0 1) "ch1");
            Some (CatchWrap (Made 1) (WaitSelectable "ch2" 1 2) "ch2")].
    apply (list_elem_of_lookup_2 _ 3). reflexivity.
  - apply (proj2 (select_aborts_before_exit_from_race env_ready 1 [] nothing_settled
                    [[(Made 0, Fulfilled Undefined)]])).
    + apply half_unit_draw.
    + apply Forall_nil_2.
Defined.

(** C3, as stated, fails: [select({})] exits, rejected, and its
    controller was not aborted. *)
Lemma select_exit_without_abort :
  ¬ aborted_before_exit 0 (log (select_call env_stolen 1 [] first_wait_ready)).
Proof.
  intros H.
  destruct (H [EvNewAbortController 0%nat] (EvRejected (no_operation_error [])) [])
    as (middle & Hmiddle & _); [reflexivity|exact I|].
  injection Hmiddle as Hmiddle. by destruct middle.
Qed.

Lemma select_result_of_winner_witness :
  ∃ op w1, ("ch1"%string, Some op) ∈ two_reads ∧ produced w1 op (Num 1).
Proof.
  destruct (select_result_of_winner env_ready 1 two_reads nothing_settled
              [[(Made 0, Fulfilled Undefined)]]
              {| type := "ch1"; value := Num 1 |}
              (snd (select env_ready 1 two_reads first_wait_ready)))
    as (op & w1 & Hin & Hprod & _).
  - vm_compute. reflexivity.
  - by exists op, w1.
Defined.

Lemma select_nothing_but_null_witness :
  log (select_call env_stolen 3 [("a"%string, None); ("b"%string, None)] first_wait_ready)
    = [EvNewAbortController 0;
       EvRejected (no_operation_error [("a"%string, None); ("b"%string, None)])].
Proof.
  apply (select_nothing_but_null env_stolen 3 [("a"%string, None); ("b"%string, None)]
           nothing_settled [[(Made 0, Fulfilled Undefined)]]).
  - apply half_unit_draw.
  - repeat constructor.
Defined.

(** C1, at [select({ a: null, b: ch.raceRead() })] with the entries in
    this order and the readiness of [ch] stolen: the promise of the new
    wait is stored at [winner.index = 1], past the end of [promises]; the
    settled promise stays in the race at position 0, wins the next race
    at once, and the attempt is made again. *)
Theorem select_rearm_beside_null :
  log (snd (select env_stolen 2 null_then_read first_wait_ready)) =
  let tag := WaitSelectable "b" 1 0 in
  [EvNewAbortController 0;
   EvWait 0 tag 0 0;
   EvRace [Some (CatchWrap (Made 0) tag "b")];
   EvAttempt 0 (Attempted NotOk);
   EvWait 0 tag 0 2;
   EvRace [Some (CatchWrap (Made 0) tag "b"); Some (Waiting (Made 2) tag)];
   EvAttempt 0 (Attempted NotOk);
   EvWait 0 tag 0 4].
Proof. reflexivity. Qed.

(** C2, at [select({ a: s })] where the readiness of [s] is stolen and the
    wait made again is rejected with [new Error("boom")]: [select] is
    rejected with this error as it is, not with a [SelectError]. *)
Theorem select_rearmed_wait_error_unwrapped :
  fst (select env_stolen 2 one_read rearmed_wait_fails) = Throw (Error "boom").
Proof. reflexivity. Qed.

(** C7, at [select({ s: ch.raceRead(), p: promise })] where the readiness
    of [ch] is stolen once.  On the promise of the first wait and on [p],
    [waitForOp] has put one continuation each: when [p] and that wait
    settle in one job, [p] first, the race is won by [p].  The promise of
    the wait made again after the failed attempt is raced with no
    continuation: when [p] and this wait settle in one job, [p] first,
    the race is won by the wait, be it stored before or after [p] in the
    array, and [select] resolves with the value of [ch].  In the queue of
    promise jobs, the reaction of the race on the wait runs before the
    handler of [p] has settled the promise raced for [p]; behind the
    [catch()] that [waitForOp] adds, it would run after it. *)
Theorem select_rearmed_wait_overtakes :
  let turn := [(Given 0, Fulfilled (Num 7)); (Made 2, Fulfilled Undefined)] in
  (fst (select env_stolen_once 2 read_or_promise promise_then_first_wait)
   = Normal {| type := "p"; value := Num 7 |}) ∧
  (let tag := WaitSelectable "s" 0 0 in
   select_call env_stolen_once 2 read_or_promise promise_then_rearmed_wait
   = {| settled := settle (Made 2) (Fulfilled Undefined)
                     (settle (Given 0) (Fulfilled (Num 7))
                        (settle (Made 0) (Fulfilled Undefined) nothing_settled));
        turns := []; calls := 4; controllers := 1; aborted := [0];
        log := [EvNewAbortController 0;
                EvWait 0 tag 0 0;
                EvRace [Some (CatchWrap (Made 0) tag "s"); Some (ThenTag (Given 0) "p")];
                EvAttempt 0 (Attempted NotOk);
                EvWait 0 tag 0 2;
                EvRace [Some (Waiting (Made 2) tag); Some (ThenTag (Given 0) "p")];
                EvAttempt 0 (Attempted (Ok (Num 1)));
                EvAbort 0;
                EvResolved {| type := "s"; value := Num 1 |}] |} ∧
   Microtask.later_race [Waiting (Made 2) tag; ThenTag (Given 0) "p"] turn 4
   = Some (Fulfilled (Some tag)) ∧
   Microtask.later_race [CatchWrap (Made 2) tag "s"; ThenTag (Given 0) "p"] turn 5
   = Some (Fulfilled (Some (WaitPromise "p" (Num 7))))) ∧
  (let tag := WaitSelectable "s" 1 0 in
   log (select_call env_stolen_once_swapped 2 read_or_promise promise_then_rearmed_wait)
   = [EvNewAbortController 0;
      EvWait 0 tag 0 0;
      EvRace [Some (ThenTag (Given 0) "p"); Some (CatchWrap (Made 0) tag "s")];
      EvAttempt 0 (Attempted NotOk);
      EvWait 0 tag 0 2;
      EvRace [Some (ThenTag (Given 0) "p"); Some (Waiting (Made 2) tag)];
      EvAttempt 0 (Attempted (Ok (Num 1)));
      EvAbort 0;
      EvResolved {| type := "s"; value := Num 1 |}] ∧
   Microtask.later_race [ThenTag (Given 0) "p"; Waiting (Made 2) tag] turn 4
   = Some (Fulfilled (Some tag)) ∧
   Microtask.later_race [ThenTag (Given 0) "p"; CatchWrap (Made 2) tag "s"] turn 5
   = Some (Fulfilled (Some (WaitPromise "p" (Num 7))))).
Proof. repeat split; reflexivity. Qed.
End SelectExamples.

(** ** [select]: the failed attempt beside a [null] entry *)

Section Spin.
Import Js Select Examples.
Local Open Scope nat_scope.

Lemma select_started env fuel ops w nameAndOp promises wf :
  Shuffle.shuffle (random env) ops = Some nameAndOp →
  forEach env (controllers w) nameAndOp 0 [] (after_new w) = (Normal promises, wf) →
  promises ≠ [] →
  select env fuel ops w
  = try_finally (race_loop env fuel (controllers w) promises) (abort (controllers w)) wf.
Proof.
  intros Hshuffle Hfor Hne.
  unfold select, mbind, M_bind, bind, newAbortController, shuffled_entries.
  fold (after_new w). unfold NullableSelectOp in *. rewrite Hshuffle. simpl.
  unfold NullableSelectOp in *. rewrite Hfor.
  case_decide as Hlen; [|done]. by apply length_zero_iff_nil in Hlen.
Qed.

Lemma await_race_settled promises w winner :
  first_settled (settled w) promises = Some (Fulfilled winner) →
  await_race promises w = (Normal winner, (emit (EvRace promises) w).2).
Proof.
  intros H. unfold await_race.
  rewrite (bind_normal _ _ w tt (emit (EvRace promises) w).2) by reflexivity.
  unfold race_settlement. simpl. by rewrite H.
Qed.

Lemma attempt_eq env self w :
  attempt env self w
  = (match answer_attempt env self (calls w) with
     | Attempted result => Normal result
     | AttemptThrows exception => Throw exception
     end,
     {| settled := settled w; turns := turns w; calls := S (calls w);
        controllers := controllers w; aborted := aborted w;
        log := log w ++ [EvAttempt self (answer_attempt env self (calls w))] |}).
Proof.
  unfold attempt, mbind, M_bind, bind, next_call, emit. simpl.
  by destruct (answer_attempt env self (calls w)).
Qed.

Lemma wait_pending_eq env self tag c w :
  answer_wait env self (calls w) = Returns None →
  wait env self tag c w
  = (Normal (Made (calls w)),
     {| settled := settled w; turns := turns w; calls := S (calls w);
        controllers := controllers w; aborted := aborted w;
        log := log w ++ [EvWait self tag c (calls w)] |}).
Proof.
  intros H. unfold wait, mbind, M_bind, bind, next_call, emit. simpl. by rewrite H.
Qed.

(** One iteration of the loop in which the attempt fails. *)
Lemma race_loop_stolen env fuel c promises w name index self w1 w2 q w3 :
  await_race promises w = (Normal (Some (WaitSelectable name index self)), w1) →
  attempt env self w1 = (Normal NotOk, w2) →
  wait env self (WaitSelectable name index self) c w2 = (Normal q, w3) →
  race_loop env (S fuel) c promises w
  = race_loop env fuel c
      (array_assign promises index (Waiting q (WaitSelectable name index self))) w3.
Proof.
  intros Hrace Hattempt Hwait. cbn [race_loop].
  rewrite (bind_normal _ _ _ _ _ Hrace). cbv beta iota.
  assert (Htry : try_catch (attempt env self)
                   (λ exception, throw (SelectError name exception)) w1 = (Normal NotOk, w2)).
  { unfold try_catch. by rewrite Hattempt. }
  rewrite (bind_normal _ _ _ _ _ Htry). cbv beta iota.
  by rewrite (bind_normal _ _ _ _ _ Hwait).
Qed.

(** *** Maps without [null]: the new wait takes the place of the old one *)

Lemma aligned_app_one promises p :
  aligned promises → index_of_tag p = None ∨ index_of_tag p = Some (length promises) →
  aligned (promises ++ [Some p]).
Proof.
  intros Hal Hp k e Hk.
  destruct (decide (k < length promises)) as [Hlt|Hge].
  - rewrite lookup_app_l in Hk by done. by apply Hal.
  - rewrite lookup_app_r in Hk by lia.
    apply list_lookup_singleton_Some in Hk as [Hk <-].
    exists p. split; [done|]. destruct Hp as [-> | ->]; [by left|right]. f_equal. lia.
Qed.

Lemma forEach_aligned env c nameAndOp promises w promises' w' :
  Forall (λ e, e.2 ≠ None) nameAndOp → aligned promises →
  forEach env c nameAndOp (length promises) promises w = (Normal promises', w') →
  aligned promises'.
Proof.
  revert promises w. induction nameAndOp as [|[name [op|]] rest IH];
    intros promises w Hall Hal; simpl.
  - by intros [= <- <-].
  - apply Forall_cons in Hall as [_ Hall].
    intros [(p & w1 & Hw & Hrest)|[[_ [? [=]]]|[[_ [=]]|[_ [=]]]]]%bind_inv.
    apply (IH (promises ++ [Some p]) w1); [done| |by rewrite length_app, Nat.add_1_r].
    apply aligned_app_one; [done|].
    destruct op as [self|q|fn]; simpl in Hw.
    + apply bind_inv in Hw
        as [(source & w2 & _ & [= <- _])|[[_ [? [=]]]|[[_ [=]]|[_ [=]]]]]. by right.
    + injection Hw as <- _. by left.
    + apply bind_inv in Hw
        as [(source & w2 & _ & [= <- _])|[[_ [? [=]]]|[[_ [=]]|[_ [=]]]]]. by left.
  - by apply Forall_cons in Hall as [[] _].
Qed.

(** In an aligned array the winner of the race is found at its own
    [index], and the assignment [promises[index] = p] replaces it and
    nothing else. *)
Lemma array_assign_aligned promises s name index self q :
  aligned promises →
  settled_with s promises (Fulfilled (Some (WaitSelectable name index self))) →
  let tag := WaitSelectable name index self in
  (∃ old, promises !! index = Some (Some old) ∧ adapt old (Fulfilled Undefined) = Fulfilled (Some tag)) ∧
  array_assign promises index (Waiting q tag) = <[index := Some (Waiting q tag)]> promises ∧
  aligned (array_assign promises index (Waiting q tag)).
Proof.
  intros Hal (k & e & Hk & He) tag.
  destruct (Hal k e Hk) as (old & -> & Hidx).
  assert (Hold : index_of_tag old = Some index ∧
                 adapt old (Fulfilled Undefined) = Fulfilled (Some tag)).
  { destruct old as [source n|source t n|source t]; simpl in He |- *.
    all: destruct (s source) as [[v|err]|]; simpl in He; try done.
    all: by injection He as ->. }
  destruct Hold as [Hi Hadapt]. rewrite Hi in Hidx.
  destruct Hidx as [|[= <-]]; [done|].
  pose proof (lookup_lt_Some _ _ _ Hk) as Hlt.
  assert (Heq : array_assign promises index (Waiting q tag)
                = <[index := Some (Waiting q tag)]> promises).
  { unfold array_assign. by case_decide. }
  split; [by exists old|]. split; [done|].
  rewrite Heq. intros k' e' Hk'.
  destruct (decide (k' = index)) as [->|Hne].
  - rewrite list_lookup_insert_eq in Hk' by done. injection Hk' as <-.
    exists (Waiting q tag). split; [done|]. by right.
  - rewrite list_lookup_insert_ne in Hk' by done. by apply Hal.
Qed.

(** With the settled promise of the operation left at position 0, every
    race is won at once by it, the attempt fails again, and the loop never
    suspends. *)
Lemma race_loop_spins fuel w rest :
  length rest ≤ 1 →
  settled w (Made 0) = Some (Fulfilled Undefined) →
  (race_loop env_stolen fuel 0
     (Some (CatchWrap (Made 0) (WaitSelectable "b" 1 0) "b") :: rest) w).1 = OutOfFuel.
Proof.
  revert w rest. induction fuel as [|fuel IH]; intros w rest Hlen Hs; [done|].
  erewrite race_loop_stolen;
    [|apply await_race_settled; simpl; by rewrite Hs
     |apply attempt_eq|by apply wait_pending_eq].
  destruct rest as [|p [|q rest]]; [| |simpl in Hlen; lia].
  - apply (IH _ [_]); done.
  - apply (IH _ [_]); done.
Qed.

(** At [select({ a: null, b: ch.raceRead() })] with the readiness stolen,
    [select] does not wait for the channel again: it runs for ever. *)
Lemma select_beside_null_spins fuel :
  (select env_stolen fuel null_then_read first_wait_ready).1 = OutOfFuel.
Proof.
  erewrite select_started; [|reflexivity|reflexivity|done].
  unfold try_finally.
  destruct fuel as [|fuel]; [reflexivity|].
  erewrite race_loop_stolen; [|reflexivity|apply attempt_eq|by apply wait_pending_eq].
  match goal with |- context [race_loop _ _ _ ?ps ?w] =>
    pose proof (race_loop_spins fuel w [Some (Waiting (Made 2) (WaitSelectable "b" 1 0))]
                  ltac:(done) ltac:(reflexivity)) as H;
    change ps with [Some (CatchWrap (Made 0) (WaitSelectable "b" 1 0) "b");
                    Some (Waiting (Made 2) (WaitSelectable "b" 1 0))]
  end.
  destruct (race_loop _ _ _ _ _) as [[] ?]; simpl in H; done.
Qed.

(** Without the [null] entry the same call stays suspended, as the tests
    of the library expect. *)
Lemma select_stolen_read_blocks :
  (select env_stolen 2 one_read first_wait_ready).1 = Suspended.
Proof. reflexivity. Qed.

(** *** An exception at the start *)

(** A function that throws when [forEach] calls it ends [select] before
    its [try] block: the wait started just before keeps a signal that is
    not aborted. *)
Lemma select_start_throw_skips_abort :
  let r := select env_throwing 1 read_and_throwing_function first_wait_ready in
  r.1 = Throw (Error "boom") ∧
  log r.2 = [EvNewAbortController 0; EvWait 0 (WaitSelectable "a" 0 0) 0 0; EvCall 0 0 1] ∧
  aborted r.2 = [].
Proof. vm_compute. done. Qed.
End Spin.

(** ** [sleep] *)

Section SleepFacts.
Import Js Sleep.











End SleepFacts.

Section SleepClaim.
Import Js Sleep.

End SleepClaim.


(** ** The channel *)

Section ChannelClaim.
Import Channel.
Context {T : Type}.

(** C8. On an open channel of capacity at least 1 that holds nothing,
    with no read and no write suspended, [write(v)] resolves at once, and
    the [read()] that follows resolves with [v] and leaves the channel
    empty. *)
Theorem channel_round_trip (ch : Channel T) (v : T) (w r : Resolver) :
  (1 ≤ capacity ch)%nat → is_empty ch →
  WriteResolved w ∈ (write v w ch).2 ∧
  (read r (write v w ch).1).2 = [ReadResolved r (Some v)] ∧
  is_empty (read r (write v w ch).1).1.
Proof.
  destruct ch as [cap buf cl pw pr rw ww]. unfold is_empty. simpl.
  intros Hcap (-> & -> & -> & ->).
  unfold write. simpl. destruct (decide (0 < cap)%nat) as [_|]; [|lia].
  simpl. split; [left|]. done.
Qed.
End ChannelClaim.

Lemma channel_round_trip_witness :
  (Channel.read 2%nat (Channel.write 42 1%nat (Channel.new 1%nat)).1).2
  = [Channel.ReadResolved 2%nat (Some 42)].
Proof.
  destruct (channel_round_trip (Channel.new 1%nat) 42 1%nat 2%nat) as (_ & H & _).
  - simpl. lia.
  - done.
  - exact H.
Defined.

(** * More properties *)

Section StepFacts.
Import Js Select Steps.
Local Open Scope nat_scope.
Context (env : Env).

Lemma call_function_eq fn c w :
  call_function env fn c w =
  match answer_function env fn (calls w) with
  | Throws e => (Throw e, called (EvCall fn c (calls w)) w)
  | Returns initial =>
      (Normal (Made (calls w)), promised (calls w) initial (called (EvCall fn c (calls w)) w))
  end.
Proof.
  unfold call_function, mbind, M_bind, bind, next_call, emit. simpl.
  by destruct (answer_function env fn (calls w)) as [[o|]|e].
Qed.

Lemma wait_eq self tag c w :
  wait env self tag c w =
  match answer_wait env self (calls w) with
  | Throws e => (Throw e, called (EvWait self tag c (calls w)) w)
  | Returns initial =>
      (Normal (Made (calls w)), promised (calls w) initial (called (EvWait self tag c (calls w)) w))
  end.
Proof.
  unfold wait, mbind, M_bind, bind, next_call, emit. simpl.
  by destruct (answer_wait env self (calls w)) as [[o|]|e].
Qed.

Lemma attempt_called self w :
  attempt env self w
  = (match answer_attempt env self (calls w) with
     | Attempted result => Normal result
     | AttemptThrows exception => Throw exception
     end,
     called (EvAttempt self (answer_attempt env self (calls w))) w).
Proof. apply attempt_eq. Qed.


Lemma race_loop_S fuel c ps w :
  race_loop env (S fuel) c ps w =
  match await_race ps w with
  | (Normal None, w1) => (Throw TypeError, w1)
  | (Normal (Some (WaitPromise name value)), w1) =>
      (Normal {| type := name; value := value |}, w1)
  | (Normal (Some (WaitSelectable name index self as tag)), w1) =>
      let answer := answer_attempt env self (calls w1) in
      let w2 := called (EvAttempt self answer) w1 in
      match answer with
      | AttemptThrows e => (Throw (SelectError name e), w2)
      | Attempted (Ok v) => (Normal {| type := name; value := v |}, w2)
      | Attempted NotOk =>
          let w3 := called (EvWait self tag c (calls w2)) w2 in
          match answer_wait env self (calls w2) with
          | Throws e => (Throw e, w3)
          | Returns initial =>
              race_loop env fuel c (array_assign ps index (Waiting (Made (calls w2)) tag))
                (promised (calls w2) initial w3)
          end
      end
  | (Throw e, w1) => (Throw e, w1)
  | (Suspended, w1) => (Suspended, w1)
  | (OutOfFuel, w1) => (OutOfFuel, w1)
  end.
Proof.
  cbn [race_loop]. unfold mbind at 1, M_bind at 1, bind at 1.
  destruct (await_race ps w) as [[[[name value|name index self]|]|e| |] w1]; try reflexivity.
  unfold mbind at 1, M_bind at 1, bind at 1, try_catch.
  rewrite attempt_called.
  destruct (answer_attempt env self (calls w1)) as [[v|]|e]; try reflexivity.
  unfold mbind at 1, M_bind at 1, bind at 1. rewrite wait_eq.
  cbn [calls called].
  by destruct (answer_wait env self (S (calls w1))) as [initial|e].
Qed.

Lemma await_race_spec ps w r w1 :
  await_race ps w = (r, w1) →
  log w1 = log w ++ [EvRace ps] ∧ below (settled w) (settled w1) ∧
  aborted w1 = aborted w ∧ controllers w1 = controllers w ∧ calls w1 = calls w ∧
  match r with
  | Normal winner => settled_with (settled w1) ps (Fulfilled winner)
  | Throw reason => settled_with (settled w1) ps (Rejected reason)
  | Suspended => True
  | OutOfFuel => False
  end.
Proof.
  unfold await_race.
  rewrite (bind_normal _ _ w tt (emit (EvRace ps) w).2) by reflexivity.
  intros Hrace. by apply race_settlement_spec in Hrace.
Qed.

(** The rule of the loop: [I] holds of the raced array and the world at
    the head of each turn, [Q] of the way the loop ends. *)
Lemma race_loop_rule c (I : list (option Raced) → World → Prop)
    (Q : Completion SelectResult → World → Prop) :
  (∀ ps w, I ps w → Q OutOfFuel w) →
  (∀ ps w r w1, I ps w → await_race ps w = (r, w1) →
     match r with
     | Normal None => Q (Throw TypeError) w1
     | Normal (Some (WaitPromise name value)) =>
         Q (Normal {| type := name; value := value |}) w1
     | Normal (Some (WaitSelectable name index self as tag)) =>
         let answer := answer_attempt env self (calls w1) in
         let w2 := called (EvAttempt self answer) w1 in
         match answer with
         | AttemptThrows e => Q (Throw (SelectError name e)) w2
         | Attempted (Ok v) => Q (Normal {| type := name; value := v |}) w2
         | Attempted NotOk =>
             let w3 := called (EvWait self tag c (calls w2)) w2 in
             match answer_wait env self (calls w2) with
             | Throws e => Q (Throw e) w3
             | Returns initial =>
                 I (array_assign ps index (Waiting (Made (calls w2)) tag))
                   (promised (calls w2) initial w3)
             end
         end
     | Throw e => Q (Throw e) w1
     | Suspended => Q Suspended w1
     | OutOfFuel => True
     end) →
  ∀ fuel ps w r w', I ps w → race_loop env fuel c ps w = (r, w') → Q r w'.
Proof.
  intros Hend Hstep fuel. induction fuel as [|fuel IH]; intros ps w r w' HI.
  - intros [= <- <-]. by apply (Hend ps).
  - rewrite race_loop_S.
    destruct (await_race ps w) as [r1 w1] eqn:Hrace.
    specialize (Hstep ps w r1 w1 HI Hrace).
    pose proof (await_race_spec _ _ _ _ Hrace) as (_ & _ & _ & _ & _ & Hr1).
    destruct r1 as [[[name value|name index self]|]|e| |];
      [by intros [= <- <-]| |by intros [= <- <-]..|done].
    cbv zeta in Hstep |- *.
    destruct (answer_attempt env self (calls w1)) as [[v|]|e];
      [by intros [= <- <-]| |by intros [= <- <-]].
    destruct (answer_wait env self _) as [initial|e]; [|by intros [= <- <-]].
    by apply IH.
Qed.


Lemma forEach_cons c name op rest index ps w :
  forEach env c ((name, op) :: rest) index ps w =
  match op with
  | None => forEach env c rest (S index) ps w
  | Some (OpPromise q) =>
      forEach env c rest (S index) (ps ++ [Some (ThenTag (Given q) name)]) w
  | Some (OpFunction fn) =>
      let w1 := called (EvCall fn c (calls w)) w in
      match answer_function env fn (calls w) with
      | Throws e => (Throw e, w1)
      | Returns initial =>
          forEach env c rest (S index) (ps ++ [Some (ThenTag (Made (calls w)) name)])
            (promised (calls w) initial w1)
      end
  | Some (OpSelectable self) =>
      let tag := WaitSelectable name index self in
      let w1 := called (EvWait self tag c (calls w)) w in
      match answer_wait env self (calls w) with
      | Throws e => (Throw e, w1)
      | Returns initial =>
          forEach env c rest (S index) (ps ++ [Some (CatchWrap (Made (calls w)) tag name)])
            (promised (calls w) initial w1)
      end
  end.
Proof.
  cbn [forEach]. destruct op as [[self|q|fn]|]; [| |  |done].
  - unfold mbind at 1, M_bind at 1, bind at 1. cbn [waitForOp].
    unfold mbind at 1, M_bind at 1, bind at 1. rewrite wait_eq.
    by destruct (answer_wait env self (calls w)).
  - reflexivity.
  - unfold mbind at 1, M_bind at 1, bind at 1. cbn [waitForOp].
    unfold mbind at 1, M_bind at 1, bind at 1. rewrite call_function_eq.
    by destruct (answer_function env fn (calls w)).
Qed.

Lemma log_promised call initial w : log (promised call initial w) = log w.
Proof. by destruct initial. Qed.

Lemma calls_promised call initial w : calls (promised call initial w) = calls w.
Proof. by destruct initial. Qed.

Lemma aborted_promised call initial w : aborted (promised call initial w) = aborted w.
Proof. by destruct initial. Qed.

Lemma below_promised call initial w : below (settled w) (settled (promised call initial w)).
Proof. destruct initial; [apply below_settle|by intros ??]. Qed.

End StepFacts.

(** ** [select]: what it calls *)

Section Calls.
Import Js Select Steps.
Local Open Scope nat_scope.
Context (env : Env) (ops : SelectOpsMap) (c : AbortController).

Lemma made_for_more events events' p :
  made_for ops c events p → made_for ops c (events ++ events') p.
Proof.
  destruct p as [[q|call] name|[q|call] [|n i self] name|[q|call] [|n i self]]; simpl; try done.
  - intros (fn & ? & ?). exists fn. split; [done|]. apply elem_of_app. by left.
  - intros (? & ? & ?). split_and!; [done..|]. apply elem_of_app. by left.
  - intros (? & ?). split; [done|]. apply elem_of_app. by left.
Qed.

Lemma slot_for_more events events' p :
  slot_for ops c events p → slot_for ops c (events ++ events') p.
Proof. destruct p; [apply made_for_more|done]. Qed.

Lemma slots_more events events' ps :
  Forall (slot_for ops c events) ps → Forall (slot_for ops c (events ++ events')) ps.
Proof. intros H. eapply Forall_impl; [exact H|]. intros. by apply slot_for_more. Qed.

(** The winner of a race, read back to the operation it was made for. *)
Lemma winner_selectable events s ps name index self :
  Forall (slot_for ops c events) ps →
  settled_with s ps (Fulfilled (Some (WaitSelectable name index self))) →
  (name, Some (OpSelectable self)) ∈ ops ∧
  ∃ call v, EvWait self (WaitSelectable name index self) c call ∈ events ∧
            s (Made call) = Some (Fulfilled v).
Proof.
  intros Hall (k & p & Hk & Hp).
  pose proof (Forall_lookup_1 _ _ _ _ Hall Hk) as Hof.
  destruct p as [[source n|source tag n|source tag]|]; simpl in Hp, Hof; [| | |done].
  - by destruct (s source) as [[v|e]|].
  - destruct (s source) as [[v|e]|] eqn:Hs; [|done..]. injection Hp as ->.
    destruct source as [q|call]; [done|]. destruct Hof as (-> & ? & ?). eauto.
  - destruct (s source) as [[v|e]|] eqn:Hs; [|done..]. injection Hp as ->.
    destruct source as [q|call]; [done|]. destruct Hof as (? & ?). eauto.
Qed.

Lemma forEach_slots nameAndOp index ps w r w' :
  (∀ e, e ∈ nameAndOp → e ∈ ops) →
  Forall (slot_for ops c (log w)) ps →
  forEach env c nameAndOp index ps w = (r, w') →
  (∃ events, log w' = log w ++ events ∧ Forall (call_of ops c) events) ∧
  match r with
  | Normal ps' => Forall (slot_for ops c (log w')) ps'
  | Throw _ => True
  | _ => False
  end.
Proof.
  revert index ps w.
  induction nameAndOp as [|[name op] rest IH]; intros index ps w Hin Hall.
  { intros [= <- <-]. split; [|done]. exists []. by rewrite app_nil_r. }
  assert (Hrest : ∀ e, e ∈ rest → e ∈ ops) by (intros e He; apply Hin; by right).
  assert (Hhere : (name, op) ∈ ops) by (apply Hin; by left).
  rewrite forEach_cons. destruct op as [[self|q|fn]|].
  - cbv zeta. destruct (answer_wait env self (calls w)) as [initial|e].
    + intros H. apply IH in H as [(events & Hlog & Hev) Hr]; [|done|].
      * rewrite log_promised in Hlog. simpl in Hlog. split; [|done].
        exists (EvWait self (WaitSelectable name index self) c (calls w) :: events).
        split; [by rewrite Hlog, <- app_assoc|].
        apply Forall_cons. split; [|done]. simpl. eauto.
      * rewrite log_promised. simpl. apply Forall_app. split; [by apply slots_more|].
        apply Forall_singleton. simpl. split_and!; [done..|].
        apply elem_of_app. right. by left.
    + intros [= <- <-]. split; [|done]. eexists. split; [done|].
      apply Forall_singleton. simpl. eauto.
  - intros H. apply IH in H; [done..|].
    apply Forall_app. split; [done|]. by apply Forall_singleton.
  - cbv zeta. destruct (answer_function env fn (calls w)) as [initial|e].
    + intros H. apply IH in H as [(events & Hlog & Hev) Hr]; [|done|].
      * rewrite log_promised in Hlog. simpl in Hlog. split; [|done].
        exists (EvCall fn c (calls w) :: events).
        split; [by rewrite Hlog, <- app_assoc|].
        apply Forall_cons. split; [|done]. simpl. eauto.
      * rewrite log_promised. simpl. apply Forall_app. split; [by apply slots_more|].
        apply Forall_singleton. simpl. exists fn. split; [done|].
        apply elem_of_app. right. by left.
    + intros [= <- <-]. split; [|done]. eexists. split; [done|].
      apply Forall_singleton. simpl. eauto.
  - by apply IH.
Qed.

Lemma race_loop_calls fuel ps w r w' :
  Forall (slot_for ops c (log w)) ps →
  race_loop env fuel c ps w = (r, w') →
  ∃ events, log w' = log w ++ events ∧ Forall (call_of ops c) events.
Proof.
  intros Hall.
  apply (race_loop_rule env c
    (λ ps w1, Forall (slot_for ops c (log w1)) ps ∧
              ∃ events, log w1 = log w ++ events ∧ Forall (call_of ops c) events)
    (λ _ w1, ∃ events, log w1 = log w ++ events ∧ Forall (call_of ops c) events)).
  - by intros ? ? [_ ?].
  - clear ps Hall. intros ps w0 r1 w1 [Hall (events & Hlog & Hev)] Hrace.
    apply await_race_spec in Hrace as (Hlog1 & _ & _ & _ & Hcalls & Hr1).
    assert (Hall1 : Forall (slot_for ops c (log w1)) ps).
    { rewrite Hlog1. by apply slots_more. }
    assert (H1 : ∃ events, log w1 = log w ++ events ∧ Forall (call_of ops c) events).
    { exists (events ++ [EvRace ps]). rewrite Hlog1, Hlog, <- app_assoc. split; [done|].
      apply Forall_app. split; [done|]. by apply Forall_singleton. }
    destruct r1 as [[[name value|name index self]|]|e| |]; [done| |done..].
    destruct (winner_selectable _ _ _ _ _ _ Hall1 Hr1) as (Hin & _).
    destruct H1 as (events1 & Hlog1' & Hev1). cbv zeta.
    set (answer := answer_attempt env self (calls w1)).
    assert (H2 : ∃ events, log (called (EvAttempt self answer) w1) = log w ++ events ∧
                           Forall (call_of ops c) events).
    { exists (events1 ++ [EvAttempt self answer]). simpl. rewrite Hlog1', <- app_assoc.
      split; [done|]. apply Forall_app. split; [done|]. apply Forall_singleton. simpl. eauto. }
    destruct answer as [[v|]|e]; [done| |done].
    destruct H2 as (events2 & Hlog2 & Hev2).
    set (tag := WaitSelectable name index self).
    assert (H3 : ∃ events,
               log (called (EvWait self tag c (S (calls w1)))
                      (called (EvAttempt self (Attempted NotOk)) w1)) = log w ++ events ∧
               Forall (call_of ops c) events).
    { exists (events2 ++ [EvWait self tag c (S (calls w1))]).
      simpl in Hlog2 |- *. rewrite Hlog2, <- app_assoc.
      split; [done|]. apply Forall_app. split; [done|]. apply Forall_singleton. simpl. eauto. }
    simpl calls. destruct (answer_wait env self (S (calls w1))) as [initial|e]; [|done].
    split; [|by rewrite log_promised].
    rewrite log_promised. simpl.
    apply array_assign_Forall; [done| |].
    + simpl. split; [done|]. apply elem_of_app. right. by left.
    + rewrite <- app_assoc. by apply slots_more.
  - split; [done|]. exists []. by rewrite app_nil_r.
Qed.

End Calls.

Section SelectCases.
Import Js Select Steps.
Local Open Scope nat_scope.
Context (env : Env).

Lemma forEach_exited c nameAndOp index ps w r w' :
  forEach env c nameAndOp index ps w = (r, w') → exited r.
Proof.
  revert index ps w. induction nameAndOp as [|[name op] rest IH]; intros index ps w.
  { by intros [= <- <-]. }
  rewrite forEach_cons. destruct op as [[self|q|fn]|]; cbv zeta.
  - destruct (answer_wait env self (calls w)); [apply IH|by intros [= <- <-]].
  - apply IH.
  - destruct (answer_function env fn (calls w)); [apply IH|by intros [= <- <-]].
  - apply IH.
Qed.

(** The ways [select] goes: the start fails; no operation is given; the
    loop is entered, and left through the [finally] or not at all. *)
Lemma select_cases fuel ops w r w' :
  select env fuel ops w = (r, w') →
  let c := controllers w in
  (Shuffle.shuffle (random env) ops = None ∧ r = Throw TypeError ∧ w' = after_new w) ∨
  ∃ nameAndOp, Shuffle.shuffle (random env) ops = Some nameAndOp ∧ nameAndOp ≡ₚ ops ∧
    ((∃ e, forEach env c nameAndOp 0 [] (after_new w) = (Throw e, w') ∧ r = Throw e) ∨
     (forEach env c nameAndOp 0 [] (after_new w) = (Normal [], w') ∧
      r = Throw (no_operation_error ops)) ∨
     (∃ ps wf, forEach env c nameAndOp 0 [] (after_new w) = (Normal ps, wf) ∧ ps ≠ [] ∧
        ((exited r ∧ ∃ w1, race_loop env fuel c ps wf = (r, w1) ∧ w' = after_abort c w1) ∨
         (¬ exited r ∧ race_loop env fuel c ps wf = (r, w'))))).
Proof.
  intros H%select_inv c. cbv zeta in H. fold c in H.
  destruct (Shuffle.shuffle (random env) ops) as [nameAndOp|] eqn:Hshuffle.
  2:{ left. by destruct H. }
  right. exists nameAndOp. split; [done|]. split; [by apply shuffle_Permutation in Hshuffle|].
  destruct (forEach env c nameAndOp 0 [] (after_new w)) as [rf wf] eqn:Hfor.
  pose proof (forEach_exited _ _ _ _ _ _ _ Hfor) as Hex.
  destruct rf as [ps|e| |]; [| |done..].
  - case_decide as Hlen.
    + apply length_zero_iff_nil in Hlen as ->. destruct H as [-> ->]. right. by left.
    + right. right. exists ps, wf. split; [done|].
      split; [by intros ->|]. by apply try_finally_abort_inv in H.
  - destruct H as [-> ->]. left. by exists e.
Qed.

End SelectCases.

Section CallsTheorem.
Import Js Select Steps.
Local Open Scope nat_scope.
Context (env : Env).

(** X1. What [select] does after making its controller [c] is: calls of
    functions that are operations of the map, [wait]s and [attempt]s of
    [Selectable]s that are operations of the map, and races; then, maybe,
    the abort of [c].  The functions and the [wait]s are given the signal
    of [c], and each [wait] the value
    [{ type: 'selectable', name, index, self }] where [name] is a key of
    the map that holds [self].  So a [null] entry makes no call, and
    nothing outside the map is called. *)
Theorem select_calls_only_operations fuel ops w r w' :
  select env fuel ops w = (r, w') →
  ∃ events,
    log w' = log w ++ EvNewAbortController (controllers w) :: events ∧
    Forall (λ ev, call_of ops (controllers w) ev ∨ ev = EvAbort (controllers w)) events.
Proof.
  intros H%select_cases. cbv zeta in H. set (c := controllers w) in *.
  assert (Hweak : ∀ events, Forall (call_of ops c) events →
                    Forall (λ ev, call_of ops c ev ∨ ev = EvAbort c) events).
  { intros events Hev. eapply Forall_impl; [exact Hev|]. by left. }
  destruct H as [(_ & _ & ->)|(nameAndOp & _ & Hperm & H)]; [by exists []|].
  assert (Hin : ∀ e, e ∈ nameAndOp → e ∈ ops) by (intros e; by rewrite Hperm).
  destruct H as [(e & Hfor & _)|[[Hfor _]|(ps & wf & Hfor & _ & H)]].
  - apply (forEach_slots env ops c) in Hfor as [(events & Hlog & Hev) _]; [|done..].
    exists events. simpl in Hlog. rewrite <- app_assoc in Hlog. split; [done|]. by apply Hweak.
  - apply (forEach_slots env ops c) in Hfor as [(events & Hlog & Hev) _]; [|done..].
    exists events. simpl in Hlog. rewrite <- app_assoc in Hlog. split; [done|]. by apply Hweak.
  - apply (forEach_slots env ops c) in Hfor as [(events & Hlog & Hev) Hall]; [|done..].
    simpl in Hlog. rewrite <- app_assoc in Hlog.
    destruct H as [(_ & w1 & Hloop & ->)|(_ & Hloop)].
    + apply (race_loop_calls env ops c) in Hloop as (events1 & Hlog1 & Hev1); [|done].
      exists (events ++ events1 ++ [EvAbort c]). simpl.
      rewrite Hlog1, Hlog, <- !app_assoc. split; [done|].
      apply Forall_app. split; [by apply Hweak|].
      apply Forall_app. split; [by apply Hweak|]. apply Forall_singleton. by right.
    + apply (race_loop_calls env ops c) in Hloop as (events1 & Hlog1 & Hev1); [|done].
      exists (events ++ events1). rewrite Hlog1, Hlog, <- !app_assoc. split; [done|].
      apply Forall_app. split; by apply Hweak.
Qed.
End CallsTheorem.

Lemma select_calls_only_operations_witness :
  ∃ events,
    Select.log (Select.select Examples.env_ready 1%nat Examples.two_reads Examples.first_wait_ready).2
    = [] ++ Select.EvNewAbortController 0%nat :: events ∧
    Forall (λ ev, Steps.call_of Examples.two_reads 0%nat ev ∨ ev = Select.EvAbort 0%nat) events.
Proof.
  apply (select_calls_only_operations Examples.env_ready 1%nat Examples.two_reads
           Examples.first_wait_ready
           (Select.select Examples.env_ready 1%nat Examples.two_reads Examples.first_wait_ready).1).
  by destruct (Select.select Examples.env_ready 1%nat Examples.two_reads Examples.first_wait_ready).
Defined.

(** ** [select]: the attempts *)

Section Lists.
Context {A : Type} (P : A → Prop).

(** The only element of its kind in a list is found where it is. *)
Lemma split_at_only (l1 : list A) x l2 before y after :
  Forall (λ a, ¬ P a) l1 → Forall (λ a, ¬ P a) l2 →
  l1 ++ x :: l2 = before ++ y :: after → P y →
  before = l1 ∧ y = x ∧ after = l2.
Proof.
  revert before. induction l1 as [|a l1 IH]; intros before H1 H2 Heq Hy.
  - destruct before as [|b before]; simpl in Heq.
    + by injection Heq as -> ->.
    + injection Heq as -> ->. apply Forall_app in H2 as [_ H2].
      by apply Forall_cons in H2 as [H2 _].
  - apply Forall_cons in H1 as [Ha H1]. destruct before as [|b before]; simpl in Heq.
    + injection Heq as -> _. done.
    + injection Heq as -> Heq. destruct (IH before H1 H2 Heq Hy) as (-> & -> & ->). done.
Qed.

Lemma none_of_kind (l : list A) before y after :
  Forall (λ a, ¬ P a) l → l = before ++ y :: after → ¬ P y.
Proof.
  intros Hl ->. apply Forall_app in Hl as [_ Hl]. by apply Forall_cons in Hl as [Hl _].
Qed.
End Lists.

Section Attempts.
Import Js Select Steps.
Local Open Scope nat_scope.
Context (env : Env).

Lemma start_event_not_decisive c ev : start_event c ev → ¬ decisive ev.
Proof. destruct ev; simpl; tauto. Qed.

Lemma forEach_start_events c nameAndOp index ps w r w' :
  forEach env c nameAndOp index ps w = (r, w') →
  ∃ events, log w' = log w ++ events ∧ Forall (start_event c) events.
Proof.
  intros H.
  by destruct (evolving_forEach env (start_event c) c nameAndOp index ps
                 ltac:(done) ltac:(done) _ _ _ H) as [? _].
Qed.

Lemma race_loop_decisive ops c fuel ps w r w' :
  Forall (slot_for ops c (log w)) ps →
  race_loop env fuel c ps w = (r, w') →
  ∃ events, log w' = log w ++ events ∧
    (Forall (λ ev, ¬ decisive ev) events ∨
     ∃ events' x, events = events' ++ [x] ∧ Forall (λ ev, ¬ decisive ev) events' ∧
                  decisive x ∧ ended_by ops r x).
Proof.
  intros Hall.
  apply (race_loop_rule env c
    (λ ps w1, Forall (slot_for ops c (log w1)) ps ∧
              ∃ events, log w1 = log w ++ events ∧ Forall (λ ev, ¬ decisive ev) events)
    (λ r w1, ∃ events, log w1 = log w ++ events ∧
       (Forall (λ ev, ¬ decisive ev) events ∨
        ∃ events' x, events = events' ++ [x] ∧ Forall (λ ev, ¬ decisive ev) events' ∧
                     decisive x ∧ ended_by ops r x))).
  - intros ? ? [_ (events & ? & ?)]. exists events. split; [done|]. by left.
  - clear ps Hall. intros ps w0 r1 w1 [Hall (events & Hlog & Hev)] Hrace.
    apply await_race_spec in Hrace as (Hlog1 & _ & _ & _ & Hcalls & Hr1).
    assert (Hall1 : Forall (slot_for ops c (log w1)) ps).
    { rewrite Hlog1. by apply slots_more. }
    assert (Hev1 : Forall (λ ev, ¬ decisive ev) (events ++ [EvRace ps])).
    { apply Forall_app. split; [done|]. apply Forall_singleton. by intros []. }
    assert (Hlog1' : log w1 = log w ++ events ++ [EvRace ps]).
    { by rewrite Hlog1, Hlog, <- app_assoc. }
    assert (Hquiet : ∀ r : Completion SelectResult,
       ∃ events, log w1 = log w ++ events ∧
       (Forall (λ ev, ¬ decisive ev) events ∨
        ∃ events' x, events = events' ++ [x] ∧ Forall (λ ev, ¬ decisive ev) events' ∧
                     decisive x ∧ ended_by ops r x)).
    { intros ?. eexists. split; [done|]. by left. }
    destruct r1 as [[[name value|name index self]|]|e| |]; [done| |done..].
    clear Hquiet.
    +
      destruct (winner_selectable _ _ _ _ _ _ _ _ Hall1 Hr1) as (Hin & _).
      cbv zeta. destruct (answer_attempt env self (calls w1)) as [[v|]|e] eqn:Hanswer.
      * exists ((events ++ [EvRace ps]) ++ [EvAttempt self (Attempted (Ok v))]). simpl.
        split; [by rewrite Hlog1', <- !app_assoc|].
        right. eexists _, _. split; [done|]. split; [done|]. split; [done|].
        simpl. eauto.
      * simpl calls. destruct (answer_wait env self (S (calls w1))) as [initial|e].
        -- rewrite !log_promised. simpl. split.
           ++ apply array_assign_Forall; [done| |].
              ** simpl. split; [done|]. apply elem_of_app. right. by left.
              ** rewrite <- app_assoc. by apply slots_more.
           ++ eexists. rewrite Hlog1', <- !app_assoc. split; [done|].
              apply Forall_app. split; [done|]. apply Forall_app. split.
              { apply Forall_singleton. by intros []. }
              apply Forall_cons. split; [by intros []|].
              apply Forall_singleton. by intros [].
        -- eexists. simpl. rewrite Hlog1', <- !app_assoc. split; [done|]. left.
           apply Forall_app. split; [done|]. apply Forall_app. split.
           { apply Forall_singleton. by intros []. }
           apply Forall_cons. split; [by intros []|].
           apply Forall_singleton. by intros [].
      * exists ((events ++ [EvRace ps]) ++ [EvAttempt self (AttemptThrows e)]). simpl.
        split; [by rewrite Hlog1', <- !app_assoc|].
        right. eexists _, _. split; [done|]. split; [done|]. split; [done|].
        simpl. eauto.
  - split; [done|]. exists []. by rewrite app_nil_r.
Qed.


Lemma ended_by_exited ops r ev : ended_by ops r ev → exited r.
Proof.
  destruct ev as [| | | |self [[v|]|e]| | |]; simpl; try done.
  - by intros (? & _ & ->).
  - by intros (? & _ & ->).
Qed.

(** X2. [select] performs at most one operation.  An attempt that does
    not answer [{ ok: false }] is the last thing [select] does before the
    abort of its controller: every attempt before it has found the
    readiness stolen, and [select] ends as this attempt says, resolved
    with its value under the name of the operation, or rejected with its
    exception in a [SelectError] that carries this name. *)
Theorem select_performs_one_operation fuel ops w r w' :
  select env fuel ops w = (r, w') →
  ∀ before ev after,
    log w' = log w ++ before ++ ev :: after → decisive ev →
    Forall (λ ev, ¬ decisive ev) before ∧ ended_by ops r ev ∧
    after = [EvAbort (controllers w)].
Proof.
  intros H%select_cases before ev after Hlog' Hdec. cbv zeta in H.
  set (c := controllers w) in *.
  assert (Hnone : ∀ started, Forall (start_event c) started →
            log w' = (log w ++ [EvNewAbortController c]) ++ started → False).
  { intros started Hst Hlog. rewrite Hlog', <- app_assoc in Hlog.
    apply app_inv_head in Hlog. symmetry in Hlog.
    apply (none_of_kind decisive) in Hlog; [done|].
    apply Forall_cons. split; [by intros []|].
    eapply Forall_impl; [exact Hst|]. apply start_event_not_decisive. }
  destruct H as [(_ & _ & ->)|(nameAndOp & _ & Hperm & H)].
  { destruct (Hnone []); [done|]. simpl. by rewrite app_nil_r. }
  assert (Hin : ∀ e, e ∈ nameAndOp → e ∈ ops) by (intros e; by rewrite Hperm).
  destruct H as [(e & Hfor & _)|[[Hfor _]|(ps & wf & Hfor & _ & H)]].
  - apply forEach_start_events in Hfor as (started & Hlog & Hst). by destruct (Hnone started).
  - apply forEach_start_events in Hfor as (started & Hlog & Hst). by destruct (Hnone started).
  - pose proof (forEach_start_events _ _ _ _ _ _ _ Hfor) as (started & Hlog & Hst).
    apply (forEach_slots env ops c) in Hfor as [_ Hall]; [|done..].
    simpl in Hlog.
    assert (Hstarted : Forall (λ ev, ¬ decisive ev) (EvNewAbortController c :: started)).
    { apply Forall_cons. split; [by intros []|].
      eapply Forall_impl; [exact Hst|]. apply start_event_not_decisive. }
    assert (Hloop : ∃ w1, race_loop env fuel c ps wf = (r, w1) ∧
              ((exited r ∧ w' = after_abort c w1) ∨ (¬ exited r ∧ w' = w1))).
    { destruct H as [(? & w1 & ? & ->)|(? & ?)]; eauto. }
    destruct Hloop as (w1 & Hloop & Hw').
    apply (race_loop_decisive ops) in Hloop as (events & Hlog1 & Hevents); [|done].
    destruct Hevents as [Hquiet|(events' & x & -> & Hquiet & Hx & Hended)].
    + exfalso.
      assert (Hall' : Forall (λ ev, ¬ decisive ev)
                        ((EvNewAbortController c :: started ++ events) ++ [EvAbort c])).
      { apply Forall_app. split; [|apply Forall_singleton; by intros []].
        rewrite app_comm_cons. by apply Forall_app. }
      destruct Hw' as [[_ ->]|[_ ->]]; simpl in Hlog'; rewrite Hlog1, Hlog in Hlog'.
      * rewrite <- !app_assoc in Hlog'. apply app_inv_head in Hlog'. simpl in Hlog'.
        apply (none_of_kind decisive) in Hlog'; [done|].
        simpl in Hall'. by rewrite <- app_assoc in Hall'.
      * rewrite <- !app_assoc in Hlog'. apply app_inv_head in Hlog'. simpl in Hlog'.
        apply (none_of_kind decisive) in Hlog'; [done|].
        apply Forall_app in Hall' as [Hall' _]. done.
    + pose proof (ended_by_exited _ _ _ Hended) as Hex.
      destruct Hw' as [[_ ->]|[Hne _]]; [|done]. simpl in Hlog'.
      rewrite Hlog1, Hlog in Hlog'. rewrite <- !app_assoc in Hlog'.
      apply app_inv_head in Hlog'. simpl in Hlog'.
      assert (Heq : (EvNewAbortController c :: started ++ events') ++ x :: [EvAbort c]
                    = before ++ ev :: after).
      { rewrite <- Hlog'. simpl. by rewrite <- app_assoc. }
      assert (Hbefore : Forall (λ ev, ¬ decisive ev)
                          (EvNewAbortController c :: started ++ events')).
      { rewrite app_comm_cons. by apply Forall_app. }
      apply (split_at_only decisive) in Heq as (-> & -> & ->); [done|done| |done].
      apply Forall_singleton. by intros [].
Qed.

End Attempts.

Section AttemptExamples.
Import Js Select Steps Examples.
Local Open Scope nat_scope.

Lemma select_performs_one_operation_witness :
  ended_by two_reads
    (select env_ready 1 two_reads first_wait_ready).1
    (EvAttempt 1 (Attempted (Ok (Num 1)))).
Proof.
  set (tag1 := WaitSelectable "ch1" 0 1).
  set (tag2 := WaitSelectable "ch2" 1 2).
  apply (select_performs_one_operation env_ready 1 two_reads
           first_wait_ready
           (select env_ready 1 two_reads
              first_wait_ready).1
           (select env_ready 1 two_reads
              first_wait_ready).2
           ltac:(by destruct (select _ _ _ _))
           [EvNewAbortController 0;
            EvWait 1 tag1 0 0; EvWait 2 tag2 0 1;
            EvRace [Some (CatchWrap (Made 0) tag1 "ch1");
                           Some (CatchWrap (Made 1) tag2 "ch2")]]
           (EvAttempt 1 (Attempted (Ok (Num 1))))
           [EvAbort 0]).
  - vm_compute. reflexivity.
  - exact I.
Defined.
End AttemptExamples.

Section Ready.
Import Js Select Steps.
Local Open Scope nat_scope.
Context (env : Env).

Lemma snoc_split {A} (l : list A) x before y after :
  l ++ [x] = before ++ y :: after →
  (after = [] ∧ before = l ∧ y = x) ∨
  (∃ after', after = after' ++ [x] ∧ l = before ++ y :: after').
Proof.
  intros Heq. destruct after as [|z after _] using rev_ind.
  - left. apply app_inj_tail in Heq as [-> ->]. done.
  - right. exists after.
    change (y :: after ++ [z]) with ((y :: after) ++ [z]) in Heq.
    rewrite app_assoc in Heq. apply app_inj_tail in Heq as [-> ->]. done.
Qed.

Lemma attempts_when_ready_below c s s' events :
  below s s' → attempts_when_ready c s events → attempts_when_ready c s' events.
Proof.
  intros Hbelow H before self answer after Heq.
  destruct (H _ _ _ _ Heq) as (before' & ps & tag & call & v & p & ? & ? & ? & ? & Hs).
  exists before', ps, tag, call, v, p. split_and!; [done..|]. by apply Hbelow.
Qed.

Lemma attempts_when_ready_snoc c s events ev :
  (∀ self answer, ev ≠ EvAttempt self answer) →
  attempts_when_ready c s events → attempts_when_ready c s (events ++ [ev]).
Proof.
  intros Hev H before self answer after Heq.
  apply snoc_split in Heq as [(_ & _ & Heq)|(after' & _ & Heq)].
  - by destruct (Hev self answer).
  - by apply H in Heq.
Qed.

Lemma attempts_when_ready_attempt c s events ps self answer tag call v p :
  attempts_when_ready c s (events ++ [EvRace ps]) →
  EvWait self tag c call ∈ events → Some p ∈ ps → source_of p = Made call →
  s (Made call) = Some (Fulfilled v) →
  attempts_when_ready c s ((events ++ [EvRace ps]) ++ [EvAttempt self answer]).
Proof.
  intros H Hwait Hp Hsource Hs before self' answer' after Heq.
  apply snoc_split in Heq as [(_ & -> & [= -> ->])|(after' & _ & Heq)].
  - exists events, ps, tag, call, v, p. done.
  - by apply H in Heq.
Qed.

Lemma attempts_when_ready_start c s events :
  Forall (λ ev, ¬ decisive ev ∧ ∀ self, ev ≠ EvAttempt self (Attempted NotOk)) events →
  attempts_when_ready c s events.
Proof.
  intros Hall before self answer after ->.
  apply Forall_app in Hall as [_ Hall]. apply Forall_cons in Hall as [[Hd Hn] _].
  destruct answer as [[v|]|e]; [by destruct Hd|by destruct (Hn self)|by destruct Hd].
Qed.

(** The winner of a race with its place in the array. *)
Lemma winner_selectable_source ops c events s ps name index self :
  Forall (slot_for ops c events) ps →
  settled_with s ps (Fulfilled (Some (WaitSelectable name index self))) →
  ∃ call v p, EvWait self (WaitSelectable name index self) c call ∈ events ∧
              Some p ∈ ps ∧ source_of p = Made call ∧
              s (Made call) = Some (Fulfilled v).
Proof.
  intros Hall (k & p & Hk & Hp).
  pose proof (Forall_lookup_1 _ _ _ _ Hall Hk) as Hof.
  apply list_elem_of_lookup_2 in Hk.
  destruct p as [[source n|source tag n|source tag]|]; simpl in Hp, Hof; [| | |done].
  - by destruct (s source) as [[v|e]|].
  - destruct (s source) as [[v|e]|] eqn:Hs; [|done..]. injection Hp as ->.
    destruct source as [q|call]; [done|]. destruct Hof as (<- & ? & ?).
    by exists call, v, (CatchWrap (Made call) (WaitSelectable name index self) name).
  - destruct (s source) as [[v|e]|] eqn:Hs; [|done..]. injection Hp as ->.
    destruct source as [q|call]; [done|]. destruct Hof as (? & ?).
    by exists call, v, (Waiting (Made call) (WaitSelectable name index self)).
Qed.

Lemma race_loop_attempts_when_ready ops c fuel ps w r w' :
  Forall (slot_for ops c (log w)) ps →
  attempts_when_ready c (settled w) (log w) →
  race_loop env fuel c ps w = (r, w') →
  attempts_when_ready c (settled w') (log w').
Proof.
  intros Hall Hready.
  apply (race_loop_rule env c
    (λ ps w1, Forall (slot_for ops c (log w1)) ps ∧
              attempts_when_ready c (settled w1) (log w1))
    (λ _ w1, attempts_when_ready c (settled w1) (log w1))); [by intros ? ? [_ ?]| |done].
  clear. intros ps w0 r1 w1 [Hall Hready] Hrace.
  apply await_race_spec in Hrace as (Hlog1 & Hbelow & _ & _ & Hcalls & Hr1).
  assert (Hall1 : Forall (slot_for ops c (log w1)) ps).
  { rewrite Hlog1. by apply slots_more. }
  assert (Hready1 : attempts_when_ready c (settled w1) (log w1)).
  { rewrite Hlog1. apply attempts_when_ready_snoc; [done|].
    by apply (attempts_when_ready_below c (settled w0)). }
  destruct r1 as [[[name value|name index self]|]|e| |]; [done| |done..].
  destruct (winner_selectable_source _ _ _ _ _ _ _ _ Hall Hr1)
    as (call & v & p & Hwait & Hp & Hsource & Hs).
  cbv zeta. set (answer := answer_attempt env self (calls w1)).
  assert (Hready2 : attempts_when_ready c (settled w1) (log w1 ++ [EvAttempt self answer])).
  { rewrite Hlog1. eapply attempts_when_ready_attempt; [|done..]. by rewrite <- Hlog1. }
  destruct answer as [[v'|]|e]; [done| |done].
  simpl calls. set (tag := WaitSelectable name index self).
  assert (Hready3 : attempts_when_ready c (settled w1)
            ((log w1 ++ [EvAttempt self (Attempted NotOk)]) ++ [EvWait self tag c (S (calls w1))])).
  { by apply attempts_when_ready_snoc. }
  destruct (answer_wait env self (S (calls w1))) as [initial|e]; [|done].
  rewrite log_promised. simpl. split.
  - apply array_assign_Forall; [done| |].
    + simpl. split; [by apply (winner_selectable _ _ _ _ _ _ _ _ Hall1 Hr1)|].
      apply elem_of_app. right. by left.
    + rewrite <- app_assoc. by apply slots_more.
  - eapply attempts_when_ready_below; [|exact Hready3].
    apply (below_promised (S (calls w1)) initial
             (called (EvWait self tag c (S (calls w1)))
                (called (EvAttempt self (Attempted NotOk)) w1))).
Qed.

(** X3. [select] attempts an operation only when it is ready: every call
    of [attempt()] comes right after a race, and is made on a
    [Selectable] whose [wait], called before by [select] with its signal,
    has returned a promise that is in this race and fulfilled. *)
Theorem select_attempts_when_ready fuel ops s t r w' :
  select env fuel ops (initial_world s t) = (r, w') →
  attempts_when_ready 0 (settled w') (log w').
Proof.
  intros H%select_cases. cbv zeta in H. simpl in H.
  assert (Hstart : ∀ w1 started,
            log w1 = [EvNewAbortController 0] ++ started → Forall (start_event 0) started →
            attempts_when_ready 0 (settled w1) (log w1)).
  { intros w1 started -> Hst. apply attempts_when_ready_start.
    apply Forall_cons. split; [split; [by intros []|done]|].
    eapply Forall_impl; [exact Hst|]. intros ev Hev.
    split; [by apply (start_event_not_decisive 0)|]. by intros self ->. }
  destruct H as [(_ & _ & ->)|(nameAndOp & _ & Hperm & H)].
  { by apply (Hstart _ []). }
  assert (Hin : ∀ e, e ∈ nameAndOp → e ∈ ops) by (intros e; by rewrite Hperm).
  destruct H as [(e & Hfor & _)|[[Hfor _]|(ps & wf & Hfor & _ & H)]].
  - apply forEach_start_events in Hfor as (started & Hlog & Hst). by apply (Hstart _ started).
  - apply forEach_start_events in Hfor as (started & Hlog & Hst). by apply (Hstart _ started).
  - pose proof (forEach_start_events _ _ _ _ _ _ _ _ Hfor) as (started & Hlog & Hst).
    apply (forEach_slots env ops 0) in Hfor as [_ Hall]; [|done..].
    pose proof (Hstart _ _ Hlog Hst) as Hready.
    destruct H as [(_ & w1 & Hloop & ->)|(_ & Hloop)].
    + apply (race_loop_attempts_when_ready ops) in Hloop; [|done..]. simpl.
      by apply attempts_when_ready_snoc.
    + by apply (race_loop_attempts_when_ready ops) in Hloop.
Qed.

End Ready.

(** ** [select]: the errors *)

Section Errors.
Import Js Select Steps.
Local Open Scope nat_scope.
Context (env : Env).

Lemma adapted_for_more ops c events events' p :
  adapted_for ops c events p → adapted_for ops c (events ++ events') p.
Proof.
  intros (q & -> & Hq & Hone). exists q. split; [done|]. split; [|done].
  by apply made_for_more.
Qed.

Lemma adapted_more ops c events events' ps :
  Forall (adapted_for ops c events) ps → Forall (adapted_for ops c (events ++ events')) ps.
Proof. intros H. eapply Forall_impl; [exact H|]. intros. by apply adapted_for_more. Qed.

Lemma adapted_slots ops c events ps :
  Forall (adapted_for ops c events) ps → Forall (slot_for ops c events) ps.
Proof. intros H. eapply Forall_impl; [exact H|]. by intros p (q & -> & ? & _). Qed.

Lemma forEach_adapted ops c nameAndOp index ps w ps' w' :
  (∀ e, e ∈ nameAndOp → e ∈ ops) →
  Forall (adapted_for ops c (log w)) ps →
  forEach env c nameAndOp index ps w = (Normal ps', w') →
  Forall (adapted_for ops c (log w')) ps'.
Proof.
  revert index ps w.
  induction nameAndOp as [|[name op] rest IH]; intros index ps w Hin Hall.
  { by intros [= <- <-]. }
  assert (Hrest : ∀ e, e ∈ rest → e ∈ ops) by (intros e He; apply Hin; by right).
  assert (Hhere : (name, op) ∈ ops) by (apply Hin; by left).
  rewrite forEach_cons. destruct op as [[self|q|fn]|].
  - cbv zeta. destruct (answer_wait env self (calls w)) as [initial|e]; [|done].
    intros H. apply IH in H; [done..|].
    rewrite log_promised. simpl. apply Forall_app. split; [by apply adapted_more|].
    apply Forall_singleton. eexists. split; [done|]. split; [|done]. simpl.
    split_and!; [done..|]. apply elem_of_app. right. by left.
  - intros H. apply IH in H; [done..|].
    apply Forall_app. split; [done|]. apply Forall_singleton. by eexists.
  - cbv zeta. destruct (answer_function env fn (calls w)) as [initial|e]; [|done].
    intros H. apply IH in H; [done..|].
    rewrite log_promised. simpl. apply Forall_app. split; [by apply adapted_more|].
    apply Forall_singleton. eexists. split; [done|]. split; [|done]. simpl.
    exists fn. split; [done|]. apply elem_of_app. right. by left.
  - by apply IH.
Qed.

(** A race between adapted promises: a rejection is wrapped, and there is
    no hole to win. *)
Lemma adapted_rejected ops c w ps e :
  Forall (adapted_for ops c (log w)) ps →
  settled_with (settled w) ps (Rejected e) →
  ∃ name op cause, e = SelectError name cause ∧ (name, Some op) ∈ ops ∧ failed w c op cause.
Proof.
  intros Hall (k & p & Hk & Hp).
  destruct (Forall_lookup_1 _ _ _ _ Hall Hk) as (q & -> & Hq & Hone).
  destruct q as [source name|source tag name|source tag]; simpl in Hp, Hq, Hone; [| |done].
  - destruct (settled w source) as [[v|cause]|] eqn:Hs; [done| |done].
    injection Hp as <-. destruct source as [q|call].
    + exists name, (OpPromise q), cause. done.
    + destruct Hq as (fn & ? & ?). exists name, (OpFunction fn), cause.
      split; [done|]. split; [done|]. simpl. eauto.
  - destruct (settled w source) as [[v|cause]|] eqn:Hs; [done| |done].
    injection Hp as <-. destruct source as [q|call]; [done|].
    destruct tag as [|n i self]; [done|]. destruct Hq as (-> & ? & ?).
    exists name, (OpSelectable self), cause. split; [done|]. split; [done|].
    simpl. left. eauto.
Qed.

Lemma adapted_no_hole ops c events s ps :
  Forall (adapted_for ops c events) ps → ¬ settled_with s ps (Fulfilled None).
Proof.
  intros Hall (k & p & Hk & Hp).
  destruct (Forall_lookup_1 _ _ _ _ Hall Hk) as (q & -> & Hq & Hone).
  destruct q as [source name|source tag name|source tag]; simpl in Hp.
  all: by destruct (s source) as [[v|cause]|].
Qed.

Lemma failed_more w w' c op cause :
  (∀ ev, ev ∈ log w → ev ∈ log w') → below (settled w) (settled w') →
  failed w c op cause → failed w' c op cause.
Proof.
  intros Hlog Hbelow. destruct op as [self|q|fn]; simpl.
  - intros [(tag & call & ? & ?)|?]; [left|right]; eauto 10.
  - by apply Hbelow.
  - intros (call & ? & ?). eauto.
Qed.

Lemma race_loop_wrapped ops c fuel ps w r w' :
  Forall (adapted_for ops c (log w)) ps →
  race_loop env fuel c ps w = (r, w') →
  stolen (log w') ∨
  ∀ e, r = Throw e →
    ∃ name op cause, e = SelectError name cause ∧ (name, Some op) ∈ ops ∧ failed w' c op cause.
Proof.
  intros Hall.
  apply (race_loop_rule env c
    (λ ps w1, stolen (log w1) ∨ Forall (adapted_for ops c (log w1)) ps)
    (λ r w1, stolen (log w1) ∨
       ∀ e, r = Throw e →
         ∃ name op cause, e = SelectError name cause ∧ (name, Some op) ∈ ops ∧
                          failed w1 c op cause)).
  - intros ? ? [?|_]; [by left|by right].
  - clear ps Hall. intros ps w0 r1 w1 HI Hrace.
    apply await_race_spec in Hrace as (Hlog1 & _ & _ & _ & Hcalls & Hr1).
    assert (Hkeep : ∀ w2 events, log w2 = log w0 ++ events → stolen (log w0) → stolen (log w2)).
    { intros w2 events -> [self Hs]. exists self. apply elem_of_app. by left. }
    destruct HI as [Hstolen|Hall].
    { assert (Hs1 : stolen (log w1)) by (by eapply Hkeep).
      destruct r1 as [[[name value|name index self]|]|e| |]; [by left| |by left..|done].
      cbv zeta. set (answer := answer_attempt env self (calls w1)).
      assert (Hs2 : stolen (log (called (EvAttempt self answer) w1))).
      { destruct Hs1 as [self' ?]. exists self'. simpl. apply elem_of_app. by left. }
      destruct answer as [[v|]|e]; [by left| |by left].
      set (w2 := called _ w1) in *.
      assert (Hs3 : ∀ ev, stolen (log (called ev w2))).
      { intros ev. destruct Hs2 as [self' ?]. exists self'. simpl. apply elem_of_app. by left. }
      destruct (answer_wait env self (calls w2)); left; [rewrite log_promised|]; apply Hs3. }
    assert (Hall1 : Forall (adapted_for ops c (log w1)) ps).
    { rewrite Hlog1. by apply adapted_more. }
    destruct r1 as [[[name value|name index self]|]|e| |]; [| | | |by right|done].
    + by right.
    + cbv zeta.
      destruct (winner_selectable ops c _ _ _ _ _ _ (adapted_slots _ _ _ _ Hall1) Hr1)
        as (Hin & _).
      destruct (answer_attempt env self (calls w1)) as [[v|]|e] eqn:Hanswer.
      * by right.
      * set (w2 := called _ w1) in *.
        assert (Hs2 : stolen (log w2)).
        { exists self. simpl. apply elem_of_app. right. by left. }
        assert (Hs3 : ∀ ev, stolen (log (called ev w2))).
        { intros ev. destruct Hs2 as [self' ?]. exists self'. simpl. apply elem_of_app. by left. }
        destruct (answer_wait env self (calls w2)); left; [rewrite log_promised|]; apply Hs3.
      * right. intros ? [= <-]. exists name, (OpSelectable self), e.
        split; [done|]. split; [done|]. simpl. right. apply elem_of_app. right. by left.
    + by destruct (adapted_no_hole _ _ _ _ _ Hall1 Hr1).
    + right. intros ? [= <-]. by apply (adapted_rejected ops c w1 ps).
  - by right.
Qed.

(** X4. As long as no attempt has found the readiness stolen, an error
    that [select] surfaces after aborting its controller is a
    [SelectError] that carries the name of an operation of the map and,
    as cause, what this operation has failed with: the reason its
    promise, or the promise returned by its function or by its [wait],
    is rejected with, or the exception its [attempt] has thrown. *)
Theorem select_errors_wrapped fuel ops s t e w' :
  select env fuel ops (initial_world s t) = (Throw e, w') →
  aborted w' = [0] → ¬ stolen (log w') →
  ∃ name op cause, e = SelectError name cause ∧ (name, Some op) ∈ ops ∧ failed w' 0 op cause.
Proof.
  intros H%select_cases Habort Hnot. cbv zeta in H. simpl in H.
  destruct H as [(_ & _ & Hw)|(nameAndOp & _ & Hperm & H)];
    [subst w'; simpl in Habort; discriminate|].
  assert (Hin : ∀ e, e ∈ nameAndOp → e ∈ ops) by (intros ?; by rewrite Hperm).
  assert (Hstart : ∀ r w1, forEach env 0 nameAndOp 0 [] (after_new (initial_world s t)) = (r, w1) →
                     aborted w1 = []).
  { intros r w1 Hfor.
    by destruct (evolving_forEach env (λ _, True) 0 nameAndOp 0 []
                   ltac:(done) ltac:(done) _ _ _ Hfor) as (_ & _ & ? & _). }
  destruct H as [(e' & Hfor & _)|[[Hfor _]|(ps & wf & Hfor & _ & H)]].
  - apply Hstart in Hfor. by rewrite Hfor in Habort.
  - apply Hstart in Hfor. by rewrite Hfor in Habort.
  - apply (forEach_adapted ops) in Hfor; [|done..].
    destruct H as [(_ & w1 & Hloop & ->)|(Hne & _)]; [|by destruct Hne].
    apply (race_loop_wrapped ops) in Hloop as [[self Hs]|Hloop]; [| |done].
    + destruct Hnot. exists self. simpl. apply elem_of_app. by left.
    + destruct (Hloop e eq_refl) as (name & op & cause & -> & Hop & Hfailed).
      exists name, op, cause. split; [done|]. split; [done|].
      eapply failed_more; [| |exact Hfailed]; [|by intros ??].
      intros ev Hev. simpl. apply elem_of_app. by left.
Qed.

End Errors.

(** ** [select]: the start *)

Section Start.
Import Js Select Steps.
Local Open Scope nat_scope.
Context (env : Env).

Lemma forEach_length c nameAndOp index ps w ps' w' :
  forEach env c nameAndOp index ps w = (Normal ps', w') →
  length ps' = length ps + length (filter (λ e, is_Some e.2) nameAndOp).
Proof.
  revert index ps w. induction nameAndOp as [|[name op] rest IH]; intros index ps w.
  { intros [= <- <-]. rewrite filter_nil. simpl. by rewrite Nat.add_0_r. }
  rewrite forEach_cons. destruct op as [[self|q|fn]|]; cbv zeta.
  - destruct (answer_wait env self (calls w)); [|done].
    intros H%IH. rewrite filter_cons_True by (by eexists).
    rewrite H, length_app. simpl. rewrite <- Nat.add_assoc. reflexivity.
  - intros H%IH. rewrite filter_cons_True by (by eexists).
    rewrite H, length_app. simpl. rewrite <- Nat.add_assoc. reflexivity.
  - destruct (answer_function env fn (calls w)); [|done].
    intros H%IH. rewrite filter_cons_True by (by eexists).
    rewrite H, length_app. simpl. rewrite <- Nat.add_assoc. reflexivity.
  - intros H%IH. rewrite filter_cons_False; [done|]. by intros [? [=]].
Qed.

Lemma forEach_throws c nameAndOp index ps w e w' :
  forEach env c nameAndOp index ps w = (Throw e, w') →
  ∃ events ev, log w' = log w ++ events ++ [ev] ∧
               Forall (start_event c) events ∧ thrown_by env c ev e ∧
               aborted w' = aborted w.
Proof.
  revert index ps w. induction nameAndOp as [|[name op] rest IH]; intros index ps w; [done|].
  rewrite forEach_cons. destruct op as [[self|q|fn]|]; cbv zeta.
  - destruct (answer_wait env self (calls w)) as [initial|e'] eqn:Hanswer.
    + intros (events & ev & Hlog & Hev & Hthrown & Ha)%IH.
      rewrite log_promised in Hlog. rewrite aborted_promised in Ha. simpl in Hlog, Ha.
      exists (EvWait self (WaitSelectable name index self) c (calls w) :: events), ev.
      split; [by rewrite Hlog, <- app_assoc|]. split; [|done]. by apply Forall_cons.
    + intros [= <- <-]. by exists [], (EvWait self (WaitSelectable name index self) c (calls w)).
  - apply IH.
  - destruct (answer_function env fn (calls w)) as [initial|e'] eqn:Hanswer.
    + intros (events & ev & Hlog & Hev & Hthrown & Ha)%IH.
      rewrite log_promised in Hlog. rewrite aborted_promised in Ha. simpl in Hlog, Ha.
      exists (EvCall fn c (calls w) :: events), ev.
      split; [by rewrite Hlog, <- app_assoc|]. split; [|done]. by apply Forall_cons.
    + intros [= <- <-]. by exists [], (EvCall fn c (calls w)).
  - apply IH.
Qed.

Lemma cons_neq_self {A} (x : A) (l : list A) : x :: l ≠ l.
Proof. intros H. apply (f_equal length) in H. simpl in H. lia. Qed.

(** X5. When [select] is rejected and its controller has not been
    aborted, the rejection comes from the start of [select], before its
    [try] block: either the map holds no operation but [null], and the
    error is the one that asks for an operation; or the last thing
    [select] did was to call a function of the map, or the [wait] of a
    [Selectable] of the map, which threw, and [select] is rejected with
    this exception as it is: it is not wrapped in a [SelectError], and the
    operations started before keep a signal that is not aborted.
    ([Math.random()] is in [[0,1)].) *)
Theorem select_start_error fuel ops w e w' :
  (∀ k, Shuffle.unit_draw (random env k)) →
  select env fuel ops w = (Throw e, w') → aborted w' = aborted w →
  (Forall (λ e, e.2 = None) ops ∧ e = no_operation_error ops ∧ w' = after_new w) ∨
  (∃ events ev,
     log w' = log w ++ EvNewAbortController (controllers w) :: events ++ [ev] ∧
     Forall (start_event (controllers w)) events ∧ thrown_by env (controllers w) ev e).
Proof.
  intros Hrnd H%select_cases Habort. cbv zeta in H.
  destruct (shuffle_Some (random env) ops Hrnd) as (? & Hsome & _).
  destruct H as [(Hnone & _)|(nameAndOp & _ & Hperm & H)].
  { unfold NullableSelectOp in *. by rewrite Hsome in Hnone. }
  destruct H as [(e' & Hfor & [= <-])|[[Hfor [= ->]]|(ps & wf & Hfor & _ & H)]].
  - right. apply forEach_throws in Hfor as (events & ev & Hlog & Hev & Hthrown & _).
    exists events, ev. simpl in Hlog. by rewrite <- app_assoc in Hlog.
  - left. pose proof (forEach_length _ _ _ _ _ _ _ Hfor) as Hlen. simpl in Hlen.
    assert (Hnull : Forall (λ e, e.2 = None) nameAndOp).
    { apply Forall_forall. intros entry Hx.
      destruct (entry.2) as [op|] eqn:Hop; [|done].
      assert (Hx' : entry ∈ filter (λ e, is_Some e.2) nameAndOp).
      { apply list_elem_of_filter. split; [by rewrite Hop|done]. }
      destruct (filter _ nameAndOp); [by apply elem_of_nil in Hx'|done]. }
    rewrite Hperm in Hnull. split; [done|]. split; [done|].
    rewrite forEach_nulls in Hfor; [|by rewrite Hperm]. by injection Hfor as <-.
  - destruct H as [(_ & w1 & Hloop & ->)|(Hne & _)]; [|by destruct Hne].
    destruct (evolving_race_loop env _ _ _ _ _ _ Hloop) as (_ & _ & Ha1 & _).
    destruct (evolving_forEach env (λ _, True) (controllers w) nameAndOp 0 []
                ltac:(done) ltac:(done) _ _ _ Hfor) as (_ & _ & Haf & _).
    simpl in Habort, Haf. rewrite Ha1, Haf in Habort. by apply cons_neq_self in Habort.
Qed.

End Start.

Section StartExamples.
Import Js Select Steps Examples.
Local Open Scope nat_scope.

Lemma select_start_error_witness :
  ∃ events ev,
    log (select env_throwing 1 read_and_throwing_function first_wait_ready).2
    = [] ++ EvNewAbortController 0 :: events ++ [ev] ∧
    Forall (start_event 0) events ∧ thrown_by env_throwing 0 ev (Error "boom").
Proof.
  destruct (select_start_error env_throwing 1 read_and_throwing_function first_wait_ready
              (Error "boom")
              (select env_throwing 1 read_and_throwing_function first_wait_ready).2)
    as [(Hnull & _)|H].
  - apply half_unit_draw.
  - vm_compute. reflexivity.
  - reflexivity.
  - apply Forall_cons in Hnull as [Hnull _]. simpl in Hnull. discriminate.
  - exact H.
Defined.
End StartExamples.

(** ** [select]: the calls of the functions *)

Section Functions.
Import Js Select Steps.
Local Open Scope nat_scope.
Context (env : Env) (fn : FunctionId).

Lemma calls_of_app events events' :
  calls_of fn (events ++ events') = calls_of fn events + calls_of fn events'.
Proof. induction events as [|ev events IH]; simpl; [done|]. rewrite IH. lia. Qed.

Lemma calls_of_none events :
  Forall (λ ev, is_call_of fn ev = false) events → calls_of fn events = 0.
Proof. induction 1 as [|ev events Hev _ IH]; simpl; [done|]. by rewrite Hev, IH. Qed.

Lemma entries_of_Permutation ops ops' : ops ≡ₚ ops' → entries_of fn ops = entries_of fn ops'.
Proof. induction 1; simpl; lia. Qed.

Lemma forEach_calls_of c nameAndOp index ps w r w' :
  forEach env c nameAndOp index ps w = (r, w') →
  ∃ events, log w' = log w ++ events ∧ Forall (start_event c) events ∧
    calls_of fn events ≤ entries_of fn nameAndOp ∧
    (∀ ps', r = Normal ps' → calls_of fn events = entries_of fn nameAndOp).
Proof.
  revert index ps w. induction nameAndOp as [|[name op] rest IH]; intros index ps w.
  { intros [= <- <-]. exists []. by rewrite app_nil_r. }
  rewrite forEach_cons. destruct op as [[self|q|f]|]; cbv zeta.
  - destruct (answer_wait env self (calls w)) as [initial|e].
    + intros (events & Hlog & Hst & Hle & Heq)%IH.
      rewrite log_promised in Hlog. simpl in Hlog.
      exists (EvWait self (WaitSelectable name index self) c (calls w) :: events).
      split; [by rewrite Hlog, <- app_assoc|]. split; [by apply Forall_cons|]. done.
    + intros [= <- <-]. eexists [_]. split; [done|].
      split; [by apply Forall_singleton|]. simpl. unfold holds_function. simpl. split; [lia|done].
  - apply IH.
  - destruct (answer_function env f (calls w)) as [initial|e].
    + intros (events & Hlog & Hst & Hle & Heq)%IH.
      rewrite log_promised in Hlog. simpl in Hlog.
      exists (EvCall f c (calls w) :: events).
      split; [by rewrite Hlog, <- app_assoc|]. split; [by apply Forall_cons|].
      simpl. unfold holds_function. simpl. destruct (bool_decide (f = fn)).
      all: split; [lia|]; intros ps' Hr; by rewrite (Heq ps' Hr).
    + intros [= <- <-]. eexists [_]. split; [done|].
      split; [by apply Forall_singleton|]. simpl. unfold holds_function. simpl.
      destruct (bool_decide (f = fn)); split; [lia|done|lia|done].
  - apply IH.
Qed.

Lemma signalled_loop_no_call c fuel ps w r w' :
  race_loop env fuel c ps w = (r, w') →
  ∃ events, log w' = log w ++ events ∧ Forall (λ ev, is_call_of fn ev = false) events ∧
            (r ≠ OutOfFuel → ∃ ps', EvRace ps' ∈ events).
Proof.
  apply (race_loop_rule env c
    (λ _ w1, ∃ events, log w1 = log w ++ events ∧ Forall (λ ev, is_call_of fn ev = false) events)
    (λ r w1, ∃ events, log w1 = log w ++ events ∧
               Forall (λ ev, is_call_of fn ev = false) events ∧
               (r ≠ OutOfFuel → ∃ ps', EvRace ps' ∈ events))).
  - intros _ w1 (events & ? & ?). exists events. done.
  - intros ps0 w0 r1 w1 (events & Hlog & Hev) Hrace.
    apply await_race_spec in Hrace as (Hlog1 & _ & _ & _ & _ & Hr1).
    assert (Hmore : ∀ more w2, log w2 = log w1 ++ more →
              Forall (λ ev, is_call_of fn ev = false) more →
              ∃ events, log w2 = log w ++ events ∧
                Forall (λ ev, is_call_of fn ev = false) events ∧
                ∃ ps', EvRace ps' ∈ events).
    { intros more w2 Hlog2 Hmore. exists (events ++ [EvRace ps0] ++ more).
      rewrite Hlog2, Hlog1, Hlog, <- !app_assoc. split; [done|]. split.
      - apply Forall_app. split; [done|]. apply Forall_app. split; [|done].
        by apply Forall_singleton.
      - exists ps0. apply elem_of_app. right. by left. }
    assert (H1 : ∀ r : Completion SelectResult,
              ∃ events, log w1 = log w ++ events ∧
                Forall (λ ev, is_call_of fn ev = false) events ∧
                (r ≠ OutOfFuel → ∃ ps', EvRace ps' ∈ events)).
    { intros ?. destruct (Hmore [] w1) as (ev1 & ? & ? & ?); [by rewrite app_nil_r|done|].
      exists ev1. done. }
    destruct r1 as [[[name value|name index self]|]|e| |]; [done| |done..].
    cbv zeta. set (answer := answer_attempt env self (calls w1)).
    assert (H2 : ∀ r : Completion SelectResult,
              ∃ events, log (called (EvAttempt self answer) w1) = log w ++ events ∧
                Forall (λ ev, is_call_of fn ev = false) events ∧
                (r ≠ OutOfFuel → ∃ ps', EvRace ps' ∈ events)).
    { intros ?. destruct (Hmore [EvAttempt self answer] (called (EvAttempt self answer) w1))
        as (ev1 & ? & ? & ?); [done|by apply Forall_singleton|]. exists ev1. done. }
    destruct answer as [[v|]|e]; [done| |done].
    set (w2 := called _ w1) in *.
    set (tag := WaitSelectable name index self).
    destruct (Hmore [EvAttempt self (Attempted NotOk); EvWait self tag c (calls w2)]
                (called (EvWait self tag c (calls w2)) w2)) as (ev3 & Hlog3 & Hev3 & Hrace3).
    { simpl. by rewrite <- app_assoc. }
    { by repeat constructor. }
    destruct (answer_wait env self (calls w2)) as [initial|e].
    + rewrite log_promised. eauto.
    + exists ev3. done.
  - exists []. by rewrite app_nil_r.
Qed.

(** X6. [select] calls an abortable function only at its start, once for
    each entry of the map that holds it: it never calls a function more
    often than the map holds it, and when [select] has come to a race
    each function has been called exactly as often as the map holds it
    (once, when it is held by one entry).  No function is called again
    when a [wait] is made again. *)
Theorem select_calls_functions_once fuel ops w r w' events :
  select env fuel ops w = (r, w') → log w' = log w ++ events →
  calls_of fn events ≤ entries_of fn ops ∧
  ((∃ ps, EvRace ps ∈ events) → calls_of fn events = entries_of fn ops).
Proof.
  intros H%select_cases Hevents. cbv zeta in H. set (c := controllers w) in *.
  assert (Hno_race : ∀ started ps, Forall (start_event c) started →
            EvRace ps ∈ EvNewAbortController c :: started → False).
  { intros started ps Hst [Heq|Hin]%elem_of_cons; [done|].
    by apply (Forall_forall _ _) with (x := EvRace ps) in Hst. }
  destruct H as [(_ & _ & ->)|(nameAndOp & _ & Hperm & H)].
  { simpl in Hevents. apply app_inv_head in Hevents as <-. simpl.
    split; [lia|]. intros [ps Hin]. by destruct (Hno_race [] ps). }
  rewrite <- (entries_of_Permutation _ _ Hperm).
  assert (Hstart : ∀ wf started,
            log wf = log (after_new w) ++ started → Forall (start_event c) started →
            calls_of fn started ≤ entries_of fn nameAndOp →
            w' = wf →
            calls_of fn events ≤ entries_of fn nameAndOp ∧
            ((∃ ps, EvRace ps ∈ events) → calls_of fn events = entries_of fn nameAndOp)).
  { intros wf started Hlog Hst Hle ->. simpl in Hlog.
    rewrite Hevents, <- app_assoc in Hlog. apply app_inv_head in Hlog as ->. simpl.
    split; [done|]. intros [ps Hin]. by destruct (Hno_race started ps). }
  destruct H as [(e & Hfor & _)|[[Hfor _]|(ps & wf & Hfor & _ & H)]].
  - apply forEach_calls_of in Hfor as (started & Hlog & Hst & Hle & _). by eapply Hstart.
  - apply forEach_calls_of in Hfor as (started & Hlog & Hst & Hle & _). by eapply Hstart.
  - apply forEach_calls_of in Hfor as (started & Hlog & Hst & _ & Heq).
    specialize (Heq ps eq_refl). simpl in Hlog.
    assert (Hloop : ∃ w1 tail, race_loop env fuel c ps wf = (r, w1) ∧
              log w' = log w1 ++ tail ∧ calls_of fn tail = 0).
    { destruct H as [(_ & w1 & ? & ->)|(_ & ?)].
      - exists w1, [EvAbort c]. done.
      - exists w', []. by rewrite app_nil_r. }
    destruct Hloop as (w1 & tail & Hloop & Hlog' & Htail).
    apply signalled_loop_no_call in Hloop as (looped & Hlog1 & Hlooped & _).
    rewrite Hlog', Hlog1, Hlog, <- !app_assoc in Hevents.
    apply app_inv_head in Hevents. simpl in Hevents. subst events.
    simpl. rewrite !calls_of_app, (calls_of_none looped Hlooped), Htail, Heq.
    split; [lia|]. intros _. lia.
Qed.

End Functions.

(** ** [select]: settled promises *)

Section Settled.
Import Js Select Steps.
Local Open Scope nat_scope.
Context (env : Env).

Lemma await_race_first ps w o :
  first_settled (settled w) ps = Some o →
  await_race ps w =
  (match o with Fulfilled winner => Normal winner | Rejected e => Throw e end,
   (emit (EvRace ps) w).2).
Proof.
  intros H. unfold await_race.
  rewrite (bind_normal _ _ w tt (emit (EvRace ps) w).2) by reflexivity.
  unfold race_settlement. simpl. rewrite H. by destruct o.
Qed.

Lemma forEach_promises c nameAndOp index ps w :
  Forall promise_or_null nameAndOp →
  forEach env c nameAndOp index ps w = (Normal (ps ++ promise_slots nameAndOp), w).
Proof.
  revert index ps. induction nameAndOp as [|[name op] rest IH]; intros index ps Hall.
  { simpl. by rewrite app_nil_r. }
  apply Forall_cons in Hall as [Hop Hall]. rewrite forEach_cons.
  destruct op as [[self|q|fn]|]; [done| |done|].
  - rewrite IH by done. simpl. by rewrite <- app_assoc.
  - by rewrite IH.
Qed.

Lemma promise_slots_app l l' : promise_slots (l ++ l') = promise_slots l ++ promise_slots l'.
Proof.
  induction l as [|[name [[self|q|fn]|]] l IH]; simpl; [done| | | |]; by rewrite ?IH.
Qed.

Lemma first_settled_pending s before rest :
  Forall (pending_in s) before →
  first_settled s (promise_slots before ++ rest) = first_settled s rest.
Proof.
  induction 1 as [|[name [[self|q|fn]|]] before Hop _ IH]; simpl; [done|done| |done|done].
  unfold pending_in in Hop. simpl in Hop. by rewrite Hop.
Qed.

(** X7. Between promises, [select] is decided by the shuffle: when the
    operations of the map are promises (or [null]), the one that comes
    first in the shuffled order among those that are settled when
    [select] is called wins, whatever the order of the keys in the map.
    [select] then makes no call into user code, resolves with the value
    of this promise under its name, or is rejected with its reason in a
    [SelectError], and aborts its controller. *)
Theorem select_first_settled_promise fuel ops w before name q after o :
  Forall promise_or_null ops →
  Shuffle.shuffle (random env) ops = Some (before ++ (name, Some (OpPromise q)) :: after) →
  Forall (pending_in (settled w)) before →
  settled w (Given q) = Some o →
  let result := select env (S fuel) ops w in
  result.1 = outcome_of name o ∧
  calls result.2 = calls w ∧
  aborted result.2 = controllers w :: aborted w.
Proof.
  intros Hops Hshuffle Hbefore Hq.
  assert (Hall : Forall promise_or_null (before ++ (name, Some (OpPromise q)) :: after)).
  { by rewrite (shuffle_Permutation _ _ _ Hshuffle). }
  set (ps := promise_slots (before ++ (name, Some (OpPromise q)) :: after)).
  assert (Hfirst : first_settled (settled w) ps
                   = Some (adapt (ThenTag (Given q) name) o)).
  { unfold ps. rewrite promise_slots_app, first_settled_pending by done.
    simpl. by rewrite Hq. }
  cbv zeta.
  erewrite select_started; [|exact Hshuffle|by apply forEach_promises|].
  2:{ simpl. rewrite promise_slots_app. simpl. by destruct (promise_slots before). }
  unfold try_finally. rewrite race_loop_S. simpl app. fold ps.
  rewrite (await_race_first ps (after_new w) _ Hfirst).
  by destruct o as [v|cause].
Qed.

End Settled.

(** ** [select]: maps without [null] *)

Section OneEach.
Import Js Select Steps.
Local Open Scope nat_scope.
Context (env : Env).

Lemma one_each_snoc entries ps e p :
  one_each entries ps → raced_for (length ps) e p → one_each (entries ++ [e]) (ps ++ [p]).
Proof.
  intros [Hlen Hall] Hp. split; [rewrite !length_app; simpl; lia|].
  intros k e' p' He Hp'.
  destruct (decide (k < length ps)) as [Hlt|Hge].
  - rewrite lookup_app_l in He by lia. rewrite lookup_app_l in Hp' by lia. by eapply Hall.
  - rewrite lookup_app_r in He by lia. rewrite lookup_app_r in Hp' by lia.
    apply list_lookup_singleton_Some in Hp' as [Hk <-].
    rewrite <- Hlen in He. apply list_lookup_singleton_Some in He as [_ <-].
    replace k with (length ps) by lia. done.
Qed.

Lemma forEach_one_each c entries rest ps w ps' w' :
  Forall (λ e, e.2 ≠ None) rest → one_each entries ps →
  forEach env c rest (length ps) ps w = (Normal ps', w') →
  one_each (entries ++ rest) ps'.
Proof.
  revert entries ps w. induction rest as [|[name op] rest IH]; intros entries ps w Hall Hone.
  { intros [= <- <-]. by rewrite app_nil_r. }
  apply Forall_cons in Hall as [Hop Hall]. rewrite forEach_cons.
  assert (Hnext : ∀ p w1,
            raced_for (length ps) (name, op) p →
            forEach env c rest (S (length ps)) (ps ++ [p]) w1 = (Normal ps', w') →
            one_each (entries ++ (name, op) :: rest) ps').
  { intros p w1 Hp Hfor. rewrite (cons_middle _ entries rest), app_assoc.
    eapply (IH _ (ps ++ [p]) w1); [done|by apply one_each_snoc|].
    by rewrite length_app, Nat.add_1_r. }
  destruct op as [[self|q|fn]|]; [| | |done]; cbv zeta.
  - destruct (answer_wait env self (calls w)); [|done]. by apply Hnext.
  - by apply Hnext.
  - destruct (answer_function env fn (calls w)); [|done]. by apply Hnext.
Qed.

(** In an array with one promise for each entry, the winner of a race
    that is the value of a [wait] is found at its own [index], and the
    assignment of the promise of the new [wait] at this [index] replaces
    it. *)
Lemma one_each_rearm entries ps s name index self source :
  one_each entries ps →
  settled_with s ps (Fulfilled (Some (WaitSelectable name index self))) →
  index < length ps ∧
  one_each entries
    (array_assign ps index (Waiting (Made source) (WaitSelectable name index self))).
Proof.
  intros [Hlen Hall] (k & p & Hk & Hp).
  pose proof (lookup_lt_Some _ _ _ Hk) as Hlt.
  destruct (lookup_lt_is_Some_2 entries k) as [e He]; [lia|].
  pose proof (Hall k e p He Hk) as Hfor.
  assert (Htag : index = k ∧ e.2 = Some (OpSelectable self) ∧ name = e.1).
  { unfold raced_for in Hfor.
    destruct (e.2) as [[self'|q|fn]|], p as [[src n|src tag n|src tag]|];
      simpl in Hp; try done.
    all: destruct src as [q'|call]; try done.
    all: destruct (s _) as [[v|err]|]; simpl in Hp; try done.
    - destruct Hfor as [-> _]. by injection Hp as -> -> ->.
    - subst tag. by injection Hp as -> -> ->. }
  destruct Htag as (-> & Hop & ->). split; [done|].
  unfold array_assign. rewrite decide_True by done.
  split; [by rewrite length_insert|].
  intros k' e' p' He' Hp'. destruct (decide (k' = k)) as [->|Hne].
  - rewrite list_lookup_insert_eq in Hp' by done. injection Hp' as <-.
    rewrite He in He'. injection He' as <-. unfold raced_for. by rewrite Hop.
  - rewrite list_lookup_insert_ne in Hp' by done. by eapply Hall.
Qed.

Lemma one_each_winner entries ps s name index self :
  one_each entries ps →
  settled_with s ps (Fulfilled (Some (WaitSelectable name index self))) →
  ∃ old, ps !! index = Some (Some old) ∧
         tag_of old = Some (WaitSelectable name index self).
Proof.
  intros [Hlen Hall] (k & p & Hk & Hp).
  pose proof (lookup_lt_Some _ _ _ Hk) as Hlt.
  destruct (lookup_lt_is_Some_2 entries k) as [e He]; [lia|].
  pose proof (Hall k e p He Hk) as Hfor.
  unfold raced_for in Hfor.
  destruct (e.2) as [[self'|q|fn]|], p as [[src n|src tag n|src tag]|];
    simpl in Hp; try done.
  all: destruct src as [q'|call]; try done.
  all: destruct (s _) as [[v|err]|]; simpl in Hp; try done.
  - destruct Hfor as [-> _]. injection Hp as <- <- <-. eauto.
  - subst tag. injection Hp as <- <- <-. eauto.
Qed.

Lemma forEach_start_promises c nameAndOp index ps w ps' w' :
  forEach env c nameAndOp index ps w = (Normal ps', w') →
  ps' = ps ++ start_promises nameAndOp index (calls w).
Proof.
  revert index ps w. induction nameAndOp as [|[name op] rest IH]; intros index ps w.
  { intros [= <- <-]. by rewrite app_nil_r. }
  rewrite forEach_cons. destruct op as [[self|q|fn]|]; cbv zeta.
  - destruct (answer_wait env self (calls w)) as [initial|e]; [|done].
    intros H%IH. rewrite calls_promised in H. simpl in H. by rewrite H, <- app_assoc.
  - intros H%IH. by rewrite H, <- app_assoc.
  - destruct (answer_function env fn (calls w)) as [initial|e]; [|done].
    intros H%IH. rewrite calls_promised in H. simpl in H. by rewrite H, <- app_assoc.
  - apply IH.
Qed.

Lemma races_follow_snoc entries c first events ev :
  races_follow entries c first events →
  (∀ ps, ev = EvRace ps → one_each entries ps ∧ raced_next c first events ps) →
  races_follow entries c first (events ++ [ev]).
Proof.
  intros H Hev before ps after Heq.
  apply snoc_split in Heq as [(-> & -> & <-)|(after' & -> & ->)].
  - by apply Hev.
  - by eapply H.
Qed.

Lemma races_follow_none entries c first events :
  (∀ ps, EvRace ps ∉ events) → races_follow entries c first events.
Proof.
  intros Hnone before ps after ->. destruct (Hnone ps).
  apply elem_of_app. right. by left.
Qed.

Lemma race_loop_rearms entries c first fuel ps w0 w r w' events0 :
  one_each entries ps →
  log w = log w0 ++ events0 →
  races_follow entries c first events0 →
  raced_next c first events0 ps →
  race_loop env fuel c ps w = (r, w') →
  ∃ events, log w' = log w0 ++ events ∧ races_follow entries c first events.
Proof.
  intros Hone Hlog0 Hfollow0 Hnext0.
  apply (race_loop_rule env c
    (λ ps w1, one_each entries ps ∧
              ∃ events, log w1 = log w0 ++ events ∧ races_follow entries c first events ∧
                        raced_next c first events ps)
    (λ _ w1, ∃ events, log w1 = log w0 ++ events ∧ races_follow entries c first events)).
  - intros ? ? (_ & events & ? & ? & _). eauto.
  - clear ps Hone Hnext0. intros ps w1 r1 w2 [Hone (events & Hlog & HF & Hnext)] Hrace.
    apply await_race_spec in Hrace as (Hlog1 & _ & _ & _ & _ & Hr1).
    assert (HF1 : races_follow entries c first (events ++ [EvRace ps])).
    { apply races_follow_snoc; [done|]. by intros ? [= <-]. }
    assert (H1 : ∃ events, log w2 = log w0 ++ events ∧ races_follow entries c first events).
    { exists (events ++ [EvRace ps]). by rewrite Hlog1, Hlog, <- app_assoc. }
    destruct r1 as [[[name value|name index self]|]|e| |]; [done| |done..].
    cbv zeta. set (answer := answer_attempt env self (calls w2)).
    assert (HF2 : races_follow entries c first
                    ((events ++ [EvRace ps]) ++ [EvAttempt self answer])).
    { by apply races_follow_snoc. }
    assert (H2 : ∃ events, log (called (EvAttempt self answer) w2) = log w0 ++ events ∧
                           races_follow entries c first events).
    { eexists. split; [|exact HF2]. simpl. by rewrite Hlog1, Hlog, <- !app_assoc. }
    destruct answer as [[v|]|e] eqn:Hanswer; [done| |done].
    set (w3 := called _ w2) in *. set (tag := WaitSelectable name index self).
    destruct (one_each_rearm entries ps _ name index self (calls w3) Hone Hr1)
      as [Hlt Hone'].
    destruct (one_each_winner entries ps _ name index self Hone Hr1) as (old & Hold & Htag).
    assert (HF3 : races_follow entries c first
                    (((events ++ [EvRace ps]) ++ [EvAttempt self (Attempted NotOk)])
                       ++ [EvWait self tag c (calls w3)])).
    { by apply races_follow_snoc. }
    assert (H3 : ∃ events, log (called (EvWait self tag c (calls w3)) w3) = log w0 ++ events ∧
                           races_follow entries c first events).
    { eexists. split; [|exact HF3]. simpl. by rewrite Hlog1, Hlog, <- !app_assoc. }
    destruct (answer_wait env self (calls w3)) as [initial|e]; [|done].
    split; [done|].
    exists (((events ++ [EvRace ps]) ++ [EvAttempt self (Attempted NotOk)])
              ++ [EvWait self tag c (calls w3)]).
    split; [rewrite log_promised; simpl; by rewrite Hlog1, Hlog, <- !app_assoc|].
    split; [done|]. right.
    exists events, ps, self, name, index, (calls w3), old.
    split; [by rewrite <- !app_assoc|]. split; [done|]. split; [done|].
    unfold array_assign. by rewrite decide_True.
  - split; [done|]. eauto.
Qed.

(** X8. When no entry of the map is [null], every race of [select] is
    between exactly one promise for each operation, at the position of
    the operation in the shuffled order.  The first race is between the
    promises that [waitForOp] has made at the start, in this order.  Every
    later race follows a failed attempt and a new call of [wait]: its
    array is the array of the race before, in which the promise returned
    by this very call of [wait], raced as it is, has taken the place of
    the promise of the same operation; the other promises stay where they
    are, and the array keeps its length. *)
Theorem select_races_one_promise_each fuel ops nameAndOp w r w' events :
  Forall (λ e, e.2 ≠ None) ops →
  Shuffle.shuffle (random env) ops = Some nameAndOp →
  select env fuel ops w = (r, w') → log w' = log w ++ events →
  ∀ before ps after, events = before ++ EvRace ps :: after →
    one_each nameAndOp ps ∧
    raced_next (controllers w) (start_promises nameAndOp 0 (calls w)) before ps.
Proof.
  intros Hnonnull Hshuffle H%select_cases Hevents. cbv zeta in H.
  set (c := controllers w) in *. set (first := start_promises nameAndOp 0 (calls w)).
  fold (races_follow nameAndOp c first events).
  assert (Hno_race : ∀ w1 started, Forall (start_event c) started →
            log w1 = log (after_new w) ++ started → w' = w1 →
            races_follow nameAndOp c first events).
  { intros w1 started Hst Hlog ->. simpl in Hlog.
    rewrite Hevents, <- app_assoc in Hlog. apply app_inv_head in Hlog as ->.
    apply races_follow_none. intros ps [?|Hin]%elem_of_cons; [done|].
    by apply (Forall_forall _ _) with (x := EvRace ps) in Hst. }
  unfold NullableSelectOp in *.
  destruct H as [(Hnone & _)|(nameAndOp' & Hsome & Hperm & H)].
  { by rewrite Hshuffle in Hnone. }
  rewrite Hshuffle in Hsome. injection Hsome as <-.
  destruct H as [(e & Hfor & _)|[[Hfor _]|(ps0 & wf & Hfor & _ & H)]].
  - pose proof (forEach_start_events _ _ _ _ _ _ _ _ Hfor) as (started & Hlog & Hst).
    by apply (Hno_race w' started).
  - pose proof (forEach_start_events _ _ _ _ _ _ _ _ Hfor) as (started & Hlog & Hst).
    by apply (Hno_race w' started).
  - pose proof (forEach_start_events _ _ _ _ _ _ _ _ Hfor) as (started & Hlog & Hst).
    pose proof (forEach_start_promises _ _ _ _ _ _ _ Hfor) as Hfirst.
    simpl in Hfirst. fold first in Hfirst.
    apply (forEach_one_each c [] nameAndOp [] (after_new w)) in Hfor; [| |done].
    2:{ by rewrite Hperm. }
    simpl in Hfor, Hlog.
    assert (Hnone : ∀ ps, EvRace ps ∉ EvNewAbortController c :: started).
    { intros ps [?|Hin]%elem_of_cons; [done|].
      by apply (Forall_forall _ _) with (x := EvRace ps) in Hst. }
    assert (Hloop : ∃ w1 tail, race_loop env fuel c ps0 wf = (r, w1) ∧
              log w' = log w1 ++ tail ∧ (tail = [] ∨ tail = [EvAbort c])).
    { destruct H as [(_ & w1 & ? & ->)|(_ & ?)].
      - exists w1, [EvAbort c]. split; [done|]. split; [done|]. by right.
      - exists w', []. rewrite app_nil_r. split; [done|]. split; [done|]. by left. }
    destruct Hloop as (w1 & tail & Hloop & Hlog' & Htail).
    apply (race_loop_rearms nameAndOp c first _ _ w _ _ _
             (EvNewAbortController c :: started)) in Hloop
      as (looped & Hlog1 & Hraces); [|done| |by apply races_follow_none|by left].
    2:{ by rewrite Hlog, <- app_assoc. }
    rewrite Hlog', Hlog1, <- !app_assoc in Hevents.
    apply app_inv_head in Hevents. subst events.
    destruct Htail as [->| ->]; [by rewrite app_nil_r|].
    by apply races_follow_snoc.
Qed.

End OneEach.

(** ** [select]: suspended *)

Section Suspended.
Import Js Select Steps.
Local Open Scope nat_scope.
Context (env : Env).

Lemma play_turn_won turn s ps o : (play_turn turn s ps (Some o)).2 = Some o.
Proof. revert s. induction turn as [|[ref o'] turn IH]; intros s; simpl; [done|apply IH]. Qed.

Lemma play_turn_none turn s ps s' :
  first_settled s ps = None →
  play_turn turn s ps None = (s', None) → first_settled s' ps = None.
Proof.
  revert s. induction turn as [|[ref o] turn IH]; intros s Hs; simpl.
  - by intros [= <-].
  - destruct (first_settled (settle ref o s) ps) as [o'|] eqn:Hfirst.
    + intros H. pose proof (play_turn_won turn (settle ref o s) ps o') as Hwon.
      rewrite H in Hwon. done.
    + by apply IH.
Qed.

Lemma race_turn_none turn s ps s' :
  first_settled s ps = None →
  race_turn turn s ps = (s', None) → first_settled s' ps = None.
Proof.
  intros Hnone. unfold race_turn.
  destruct (play_turn turn s (filter immediate ps) None) as [s1 [o1|]]; [done|].
  by apply play_turn_none.
Qed.

Lemma await_turns_none t s ps s' t' :
  first_settled s ps = None →
  await_turns t s ps = (s', t', None) → t' = [] ∧ first_settled s' ps = None.
Proof.
  revert s. induction t as [|turn t IH]; intros s Hs; simpl.
  - by intros [= <- <-].
  - destruct (race_turn turn s ps) as [s1 [o|]] eqn:Hturn; [done|].
    apply IH. by eapply race_turn_none.
Qed.

Lemma await_race_suspended ps w w1 :
  await_race ps w = (Suspended, w1) →
  log w1 = log w ++ [EvRace ps] ∧ aborted w1 = aborted w ∧
  turns w1 = [] ∧ first_settled (settled w1) ps = None.
Proof.
  unfold await_race.
  rewrite (bind_normal _ _ w tt (emit (EvRace ps) w).2) by reflexivity.
  unfold race_settlement. simpl.
  destruct (first_settled (settled w) ps) as [[winner|e]|] eqn:Hfirst; [done..|].
  destruct (await_turns (turns w) (settled w) ps) as [[s' t'] o] eqn:Hturns.
  unfold mbind, M_bind, bind, set_settled, settled_as. simpl.
  destruct o as [[winner|e]|]; [done..|].
  intros [= <-]. simpl. apply await_turns_none in Hturns as [-> ?]; done.
Qed.

(** X9. [select] is suspended only in its race, and as long as it is
    suspended it has aborted nothing: the last thing it did was to race
    promises none of which is settled, nothing that was announced is left
    to happen, and the signal that the operations have received is not
    aborted. *)
Theorem select_suspended_in_race fuel ops w w' :
  select env fuel ops w = (Suspended, w') →
  aborted w' = aborted w ∧ turns w' = [] ∧
  ∃ events ps, log w' = log w ++ events ++ [EvRace ps] ∧
               first_settled (settled w') ps = None.
Proof.
  intros H%select_cases. cbv zeta in H. set (c := controllers w) in *.
  destruct H as [(_ & [=] & _)|(nameAndOp & _ & _ & H)].
  destruct H as [(e & _ & [=])|[[_ [=]]|(ps & wf & Hfor & _ & H)]].
  destruct H as [([] & _)|(_ & Hloop)].
  destruct (evolving_forEach env (λ _, True) c nameAndOp 0 []
              ltac:(done) ltac:(done) _ _ _ Hfor) as ((started & Hlog & _) & _ & Ha & _).
  simpl in Hlog, Ha.
  apply (λ H1 H2 H3, race_loop_rule env c
    (λ _ w1, aborted w1 = aborted w ∧ ∃ events, log w1 = log w ++ events)
    (λ r w1, r = Suspended →
       aborted w1 = aborted w ∧ turns w1 = [] ∧
       ∃ events ps, log w1 = log w ++ events ++ [EvRace ps] ∧
                    first_settled (settled w1) ps = None)
    H1 H2 fuel ps wf Suspended w' H3 Hloop eq_refl); [done| |].
  - intros ps0 w0 r1 w1 [Ha0 [events Hlog0]] Hrace.
    pose proof (await_race_spec _ _ _ _ Hrace) as (Hlog1 & _ & Ha1 & _).
    destruct r1 as [[[name value|name index self]|]|e| |]; [done| |done|done| |done].
    + cbv zeta. destruct (answer_attempt env self (calls w1)) as [[v|]|e]; [done| |done].
      destruct (answer_wait env self _) as [initial|e]; [|done].
      rewrite aborted_promised, log_promised. simpl. split; [congruence|].
      eexists. by rewrite Hlog1, Hlog0, <- !app_assoc.
    + intros _. apply await_race_suspended in Hrace as (_ & _ & Hturns & Hfirst).
      split; [congruence|]. split; [done|]. exists events, ps0.
      by rewrite Hlog1, Hlog0, <- app_assoc.
  - split; [done|]. eexists. by rewrite Hlog, <- app_assoc.
Qed.

End Suspended.

Section SuspendedExamples.
Import Js Select Steps Examples.
Local Open Scope nat_scope.

Lemma select_suspended_in_race_witness :
  aborted (select env_stolen 2 one_read first_wait_ready).2 = [].
Proof.
  apply (select_suspended_in_race env_stolen 2 one_read first_wait_ready
           (select env_stolen 2 one_read first_wait_ready).2).
  reflexivity.
Defined.
End SuspendedExamples.

(** ** [select]: promises and functions only *)

Section OneRace.
Import Js Select Steps.
Local Open Scope nat_scope.
Context (env : Env).



End OneRace.

(** ** [select]: one controller for each call *)

Section Controllers.
Import Js Select Steps.
Local Open Scope nat_scope.
Context (env : Env).

Lemma select_controllers fuel ops w r w' :
  select env fuel ops w = (r, w') →
  controllers w' = S (controllers w) ∧
  (aborted w' = aborted w ∨ aborted w' = controllers w :: aborted w).
Proof.
  intros H%select_cases. cbv zeta in H. set (c := controllers w) in *.
  destruct H as [(_ & _ & ->)|(nameAndOp & _ & _ & H)]; [split; [done|by left]|].
  assert (Hstart : ∀ rf wf, forEach env c nameAndOp 0 [] (after_new w) = (rf, wf) →
            controllers wf = S c ∧ aborted wf = aborted w).
  { intros rf wf Hfor.
    by destruct (evolving_forEach env (λ _, True) c nameAndOp 0 []
                   ltac:(done) ltac:(done) _ _ _ Hfor) as (_ & _ & ? & ?). }
  destruct H as [(e & Hfor & _)|[[Hfor _]|(ps & wf & Hfor & _ & H)]].
  - apply Hstart in Hfor as [? ?]. split; [done|by left].
  - apply Hstart in Hfor as [? ?]. split; [done|by left].
  - apply Hstart in Hfor as [Hc Ha].
    destruct H as [(_ & w1 & Hloop & ->)|(_ & Hloop)].
    + destruct (evolving_race_loop env _ _ _ _ _ _ Hloop) as (_ & _ & Ha1 & Hc1).
      simpl. split; [congruence|]. right. by rewrite Ha1, Ha.
    + destruct (evolving_race_loop env _ _ _ _ _ _ Hloop) as (_ & _ & Ha1 & Hc1).
      split; [congruence|]. left. by rewrite Ha1, Ha.
Qed.

End Controllers.

Section Sequence.
Import Js Select Steps.
Local Open Scope nat_scope.

(** X11. Each call of [select] makes a controller of its own.  When two
    calls are made one after the other, as in
    [while (true) { await select(...) }], the second call hands to its
    operations a signal other than the one of the first call, and this
    signal is not aborted when the second call starts: the abort that
    ends the first call cancels nothing of the second. *)
Theorem select_twice_fresh_signal env1 env2 fuel1 fuel2 ops1 ops2 w r1 w1 r2 w2 events :
  Forall (λ c, c < controllers w) (aborted w) →
  select env1 fuel1 ops1 w = (r1, w1) →
  select env2 fuel2 ops2 w1 = (r2, w2) → log w2 = log w1 ++ events →
  controllers w1 ≠ controllers w ∧ (controllers w1 ∉ aborted w1) ∧
  Forall (λ ev, ∀ signal,
            (∃ fn call, ev = EvCall fn signal call) ∨
            (∃ self tag call, ev = EvWait self tag signal call) →
            signal = controllers w1) events.
Proof.
  intros Hok H1 H2 Hevents.
  apply select_controllers in H1 as [Hc1 Ha1].
  split; [lia|]. split.
  - intros Hin. destruct Ha1 as [Ha1|Ha1]; rewrite Ha1 in Hin.
    + apply (Forall_forall _ _) with (x := controllers w1) in Hok; [lia|done].
    + apply elem_of_cons in Hin as [Hin|Hin]; [lia|].
      apply (Forall_forall _ _) with (x := controllers w1) in Hok; [lia|done].
  - apply select_events in H2. cbv zeta in H2.
    assert (Hsig : ∀ evs, Forall (signalled (controllers w1)) evs →
              Forall (λ ev, ∀ signal,
                 (∃ fn call, ev = EvCall fn signal call) ∨
                 (∃ self tag call, ev = EvWait self tag signal call) →
                 signal = controllers w1) evs).
    { intros evs Hevs. eapply Forall_impl; [exact Hevs|].
      intros ev Hev signal [(fn & call & ->)|(self & tag & call & ->)]; by simpl in Hev. }
    assert (Hother : ∀ ev, ev = EvNewAbortController (controllers w1) ∨
                           ev = EvAbort (controllers w1) →
              ∀ signal,
                 (∃ fn call, ev = EvCall fn signal call) ∨
                 (∃ self tag call, ev = EvWait self tag signal call) →
                 signal = controllers w1).
    { intros ev [-> | ->] signal [(? & ? & [=])|(? & ? & ? & [=])]. }
    destruct H2 as [(started & Hlog & Hst & _)|(evs & Hevs & H2)].
    + rewrite Hevents in Hlog. apply app_inv_head in Hlog as ->.
      apply Forall_cons. split; [apply Hother; by left|]. apply Hsig.
      eapply Forall_impl; [exact Hst|]. apply start_event_signalled.
    + destruct H2 as [(_ & Hlog & _)|(_ & Hlog & _)];
        rewrite Hevents in Hlog; apply app_inv_head in Hlog as ->.
      * apply Forall_cons. split; [apply Hother; by left|].
        apply Forall_app. split; [by apply Hsig|].
        apply Forall_singleton. apply Hother. by right.
      * apply Forall_cons. split; [apply Hother; by left|]. by apply Hsig.
Qed.

End Sequence.

Section StepExamples.
Import Js Select Steps Examples Cases.
Local Open Scope nat_scope.

Lemma select_attempts_when_ready_witness :
  attempts_when_ready 0
    (settled (select env_stolen 2 one_read first_wait_ready).2)
    (log (select env_stolen 2 one_read first_wait_ready).2).
Proof.
  apply (select_attempts_when_ready env_stolen 2 one_read nothing_settled
           [[(Made 0, Fulfilled Undefined)]]
           (select env_stolen 2 one_read first_wait_ready).1).
  apply surjective_pairing.
Defined.

Lemma select_errors_wrapped_witness :
  ∃ name op cause,
    SelectError "p" (Error "Too bad") = SelectError name cause ∧
    (name, Some op) ∈ read_and_promise ∧
    failed (select env_ready 1 read_and_promise promise_rejected).2 0 op cause.
Proof.
  apply (select_errors_wrapped env_ready 1 read_and_promise rejected_too_bad []).
  - reflexivity.
  - reflexivity.
  - intros [self Hin]. vm_compute in Hin.
    repeat (apply elem_of_cons in Hin as [Hin|Hin]; [discriminate|]).
    by apply elem_of_nil in Hin.
Defined.

Lemma select_calls_functions_once_witness :
  calls_of 0 (log (select env_ready 1 read_and_throwing_function first_wait_ready).2) = 1.
Proof.
  destruct (select_calls_functions_once env_ready 0 1 read_and_throwing_function
              first_wait_ready
              (select env_ready 1 read_and_throwing_function first_wait_ready).1
              (select env_ready 1 read_and_throwing_function first_wait_ready).2
              (log (select env_ready 1 read_and_throwing_function first_wait_ready).2))
    as [_ H].
  - apply surjective_pairing.
  - reflexivity.
  - apply H. eexists. vm_compute. do 3 right. left.
Defined.

Lemma select_first_settled_promise_witness :
  (select env_zero 1 two_promises both_fulfilled).1
  = Normal {| type := "b"; value := Num 2 |}.
Proof.
  apply (select_first_settled_promise env_zero 0 two_promises both_fulfilled
           [] "b" 1 [("a"%string, Some (OpPromise 0))] (Fulfilled (Num 2))).
  - by repeat constructor.
  - reflexivity.
  - constructor.
  - reflexivity.
Defined.

Lemma select_races_one_promise_each_witness :
  let tag := WaitSelectable "ch1" 0 1 in
  let first := [Some (CatchWrap (Made 0) tag "ch1");
                Some (CatchWrap (Made 1) (WaitSelectable "ch2" 1 2) "ch2")] in
  let second := <[0 := Some (Waiting (Made 3) tag)]> first in
  one_each two_reads second ∧
  raced_next 0 first
    [EvNewAbortController 0; EvWait 1 tag 0 0; EvWait 2 (WaitSelectable "ch2" 1 2) 0 1;
     EvRace first; EvAttempt 1 (Attempted NotOk); EvWait 1 tag 0 3]
    second.
Proof.
  intros tag first second.
  refine (select_races_one_promise_each env_stolen 2 two_reads two_reads first_wait_ready
            (select env_stolen 2 two_reads first_wait_ready).1
            (select env_stolen 2 two_reads first_wait_ready).2
            (log (select env_stolen 2 two_reads first_wait_ready).2)
            _ _ _ _ _ _ [] _).
  - by repeat constructor.
  - reflexivity.
  - apply surjective_pairing.
  - reflexivity.
  - reflexivity.
Defined.


Lemma select_twice_fresh_signal_witness :
  let w1 := (select env_ready 1 two_reads first_wait_ready).2 in
  controllers w1 ∉ aborted w1.
Proof.
  apply (select_twice_fresh_signal env_ready env_zero 1 1 two_reads two_promises
           first_wait_ready
           (select env_ready 1 two_reads first_wait_ready).1
           (select env_ready 1 two_reads first_wait_ready).2
           (select env_zero 1 two_promises (select env_ready 1 two_reads first_wait_ready).2).1
           (select env_zero 1 two_promises (select env_ready 1 two_reads first_wait_ready).2).2
           (skipn (length (log (select env_ready 1 two_reads first_wait_ready).2))
              (log (select env_zero 1 two_promises
                      (select env_ready 1 two_reads first_wait_ready).2).2))).
  - constructor.
  - apply surjective_pairing.
  - apply surjective_pairing.
  - vm_compute. reflexivity.
Defined.

End StepExamples.

(** ** [select]: the order of the start, and the bound of the loop *)

Section Order.
Import Js Select Steps.
Local Open Scope nat_scope.
Context (env : Env).

Lemma forEach_start_calls c nameAndOp index ps w ps' w' :
  forEach env c nameAndOp index ps w = (Normal ps', w') →
  log w' = log w ++ start_calls c nameAndOp index (calls w).
Proof.
  revert index ps w. induction nameAndOp as [|[name op] rest IH]; intros index ps w.
  { intros [= <- <-]. by rewrite app_nil_r. }
  rewrite forEach_cons. destruct op as [[self|q|fn]|]; cbv zeta.
  - destruct (answer_wait env self (calls w)) as [initial|e]; [|done].
    intros H%IH. rewrite log_promised, calls_promised in H. simpl in H.
    by rewrite H, <- app_assoc.
  - apply IH.
  - destruct (answer_function env fn (calls w)) as [initial|e]; [|done].
    intros H%IH. rewrite log_promised, calls_promised in H. simpl in H.
    by rewrite H, <- app_assoc.
  - apply IH.
Qed.

Lemma race_loop_begins c fuel ps w r w' :
  race_loop env fuel c ps w = (r, w') →
  log w' = log w ∨ ∃ more, log w' = log w ++ EvRace ps :: more.
Proof.
  destruct fuel as [|fuel]; [intros [= _ <-]; by left|].
  rewrite race_loop_S. destruct (await_race ps w) as [r1 w1] eqn:Hrace.
  apply await_race_spec in Hrace as (Hlog1 & _).
  intros Hloop. right.
  assert (Hmore : ∃ more, log w' = log w1 ++ more).
  { destruct r1 as [[[name value|name index self]|]|e| |];
      try (injection Hloop as _ <-; exists []; by rewrite app_nil_r).
    cbv zeta in Hloop.
    destruct (answer_attempt env self (calls w1)) as [[v|]|e];
      try (injection Hloop as _ <-; by eexists).
    destruct (answer_wait env self _) as [initial|e];
      [|injection Hloop as _ <-; eexists; simpl; by rewrite <- app_assoc].
    destruct (evolving_race_loop env _ _ _ _ _ _ Hloop) as ((more & Hm & _) & _).
    rewrite log_promised in Hm. simpl in Hm. eexists. by rewrite Hm, <- !app_assoc. }
  destruct Hmore as (more & ->). exists more. by rewrite Hlog1, <- app_assoc.
Qed.

(** X17. [select] starts the operations in the shuffled order.  When
    [select] has come to a race, what it has done first is: the making of
    its controller, and then, for the entries in the order that the
    shuffle has put them in, the call of each function and the [wait] of
    each [Selectable] ([null] and promises give no call); each [wait] is
    given as [index] the position of its entry among all the shuffled
    entries, [null] included.  The first race follows at once. *)
Theorem select_starts_in_shuffled_order fuel ops nameAndOp w r w' events :
  Shuffle.shuffle (random env) ops = Some nameAndOp →
  select env fuel ops w = (r, w') → log w' = log w ++ events →
  (∃ ps, EvRace ps ∈ events) →
  ∃ ps rest,
    events = EvNewAbortController (controllers w)
             :: start_calls (controllers w) nameAndOp 0 (calls w) ++ EvRace ps :: rest.
Proof.
  intros Hshuffle H%select_cases Hevents [ps Hin]. cbv zeta in H.
  set (c := controllers w) in *. unfold NullableSelectOp in *.
  destruct H as [(Hnone & _)|(nameAndOp' & Hsome & _ & H)].
  { by rewrite Hshuffle in Hnone. }
  rewrite Hshuffle in Hsome. injection Hsome as <-.
  assert (Hno_race : ∀ started, Forall (start_event c) started →
            log w' = (log w ++ [EvNewAbortController c]) ++ started → False).
  { intros started Hst Hlog. rewrite Hevents, <- app_assoc in Hlog.
    apply app_inv_head in Hlog. subst events.
    apply elem_of_cons in Hin as [?|Hin]; [done|].
    by apply (Forall_forall _ _) with (x := EvRace ps) in Hst. }
  destruct H as [(e & Hfor & _)|[[Hfor _]|(ps0 & wf & Hfor & _ & H)]].
  - apply forEach_start_events in Hfor as (started & Hlog & Hst). by destruct (Hno_race started).
  - apply forEach_start_events in Hfor as (started & Hlog & Hst). by destruct (Hno_race started).
  - pose proof (forEach_start_events _ _ _ _ _ _ _ _ Hfor) as (started & Hlog & Hst).
    pose proof (forEach_start_calls _ _ _ _ _ _ _ Hfor) as Hcalls. simpl in Hcalls, Hlog.
    rewrite Hlog in Hcalls. apply app_inv_head in Hcalls. subst started.
    assert (Hloop : ∃ w1 tail, race_loop env fuel c ps0 wf = (r, w1) ∧ log w' = log w1 ++ tail ∧
                               ∀ ps', EvRace ps' ∉ tail).
    { destruct H as [(_ & w1 & ? & ->)|(_ & ?)].
      - exists w1, [EvAbort c]. split; [done|]. split; [done|].
        by intros ps' ?%list_elem_of_singleton.
      - exists w', []. rewrite app_nil_r. split; [done|]. split; [done|].
        by intros ps' ?%elem_of_nil. }
    destruct Hloop as (w1 & tail & Hloop & Hlogw' & Htail).
    apply race_loop_begins in Hloop as [Hsame|(more & Hmore)].
    + exfalso. rewrite Hlogw', Hsame, Hlog, <- !app_assoc in Hevents.
      apply app_inv_head in Hevents. subst events. simpl in Hin.
      apply elem_of_cons in Hin as [?|Hin]; [done|].
      apply elem_of_app in Hin as [Hin|Hin]; [|by destruct (Htail ps)].
      by apply (Forall_forall _ _) with (x := EvRace ps) in Hst.
    + exists ps0, (more ++ tail).
      rewrite Hlogw', Hmore, Hlog, <- !app_assoc in Hevents.
      apply app_inv_head in Hevents. by subst events.
Qed.

(** The bound on the turns of the loop, a device of the model, does not
    change what [select] does: when [select] ends, or is suspended, within
    a bound, it ends, or is suspended, in the same way and in the same
    world within every larger bound. *)
Lemma select_bound_irrelevant fuel fuel' ops w r w' :
  select env fuel ops w = (r, w') → r ≠ OutOfFuel → fuel ≤ fuel' →
  select env fuel' ops w = (r, w').
Proof.
  intros H Hr Hle.
  assert (Hloop : ∀ c ps w0 r0 w1, race_loop env fuel c ps w0 = (r0, w1) → r0 ≠ OutOfFuel →
                    race_loop env fuel' c ps w0 = (r0, w1)).
  { clear -Hle. revert fuel' Hle. induction fuel as [|fuel IH]; intros fuel' Hle c ps w0 r0 w1.
    { by intros [= <- _] []. }
    destruct fuel' as [|fuel']; [lia|]. rewrite !race_loop_S.
    destruct (await_race ps w0) as [[[[name value|name index self]|]|e| |] w2]; try done.
    cbv zeta. destruct (answer_attempt env self (calls w2)) as [[v|]|e]; try done.
    destruct (answer_wait env self _) as [initial|e]; [|done].
    apply IH. lia. }
  unfold select, mbind, M_bind, bind in H |- *.
  destruct (newAbortController w) as [[c| | |] w0]; try done.
  destruct (shuffled_entries env ops w0) as [[nameAndOp| | |] w1]; try done.
  destruct (forEach env c nameAndOp 0 [] w1) as [[ps| | |] w2]; try done.
  case_decide; [done|]. unfold try_finally in H |- *.
  destruct (race_loop env fuel c ps w2) as [r0 w3] eqn:Hrun.
  assert (Hr0 : r0 ≠ OutOfFuel).
  { intros ->. by injection H as <- _. }
  by rewrite (Hloop _ _ _ _ _ Hrun Hr0).
Qed.

End Order.

Section OrderExamples.
Import Js Select Steps Examples Cases.
Local Open Scope nat_scope.

Lemma select_starts_in_shuffled_order_witness :
  ∃ ps rest,
    log (select env_ready 1 two_reads first_wait_ready).2
    = EvNewAbortController 0
      :: [EvWait 1 (WaitSelectable "ch1" 0 1) 0 0; EvWait 2 (WaitSelectable "ch2" 1 2) 0 1]
      ++ EvRace ps :: rest.
Proof.
  apply (select_starts_in_shuffled_order env_ready 1 two_reads two_reads first_wait_ready
           (select env_ready 1 two_reads first_wait_ready).1
           (select env_ready 1 two_reads first_wait_ready).2
           (log (select env_ready 1 two_reads first_wait_ready).2)).
  - reflexivity.
  - apply surjective_pairing.
  - reflexivity.
  - eexists. vm_compute. do 3 right. left.
Defined.

End OrderExamples.

(** ** [select]: [null] *)

Section Null.
Import Js Select Steps.
Local Open Scope nat_scope.
Context (env : Env).

Lemma unique_key {V} (l : list (string * V)) k x y :
  NoDup l.*1 → (k, x) ∈ l → (k, y) ∈ l → x = y.
Proof.
  induction l as [|[k' v] l IH]; intros Hnd Hx Hy; [by apply elem_of_nil in Hx|].
  simpl in Hnd. apply NoDup_cons in Hnd as [Hk' Hnd].
  apply elem_of_cons in Hx as [[= -> ->]|Hx], Hy as [[= ->]|Hy]; [done| | |by apply IH].
  - destruct Hk'. apply list_elem_of_fmap. by exists (k', y).
  - destruct Hk'. apply list_elem_of_fmap. by exists (k', x).
Qed.

(** X19. A [null] operation never wins: for a map whose keys are
    distinct, as the keys of an object are, the [type] of the result that
    [select] resolves with is not the key of a [null] entry. *)
Theorem select_null_never_wins fuel ops w result w' name :
  NoDup ops.*1 → (name, None) ∈ ops →
  select env fuel ops w = (Normal result, w') →
  type result ≠ name.
Proof.
  intros Hnd Hnull (nameAndOp & promises & wf & w1 & Hperm & Hfor & Hloop & _)%select_normal_inv.
  eapply (forEach_of_operation env ops) in Hfor; [| |by apply Forall_nil].
  2:{ intros e He. by rewrite <- Hperm. }
  destruct (race_loop_result env ops _ _ _ _ _ _ Hfor Hloop) as (op & Hin & _).
  intros Heq. rewrite Heq in Hin. by pose proof (unique_key ops _ _ _ Hnd Hnull Hin).
Qed.

End Null.

Section NullExamples.
Import Js Select Steps Examples Cases.
Local Open Scope nat_scope.

Lemma select_null_never_wins_witness :
  type {| type := "b"; value := Num 1 |} ≠ "a"%string.
Proof.
  apply (select_null_never_wins env_ready 1 null_then_read first_wait_ready
           {| type := "b"; value := Num 1 |}
           (select env_ready 1 null_then_read first_wait_ready).2).
  - apply NoDup_cons. split; [by intros ?%list_elem_of_singleton|apply NoDup_singleton].
  - by left.
  - vm_compute. reflexivity.
Defined.
End NullExamples.

(** ** The draws of the shuffle *)

Section DrawsOfShuffle.
Import Shuffle.
Context {A : Type}.

Lemma randomInt_Qeq minInclusive maxExclusive r r' :
  (r == r')%Q → randomInt minInclusive maxExclusive r = randomInt minInclusive maxExclusive r'.
Proof. intros H. unfold randomInt. cbv zeta. by rewrite H. Qed.

Lemma shuffle_loop_draws (rnd rnd' : nat → Q) calls remaining i (array : list A) :
  (∀ k : nat, (calls ≤ k < calls + remaining)%nat → (rnd k == rnd' k)%Q) →
  shuffle_loop rnd calls remaining i array = shuffle_loop rnd' calls remaining i array.
Proof.
  revert calls i array. induction remaining as [|remaining IH]; intros calls i array H; [done|].
  simpl. rewrite (randomInt_Qeq 0 (i + 1) _ (rnd' calls)) by (apply H; lia).
  destruct (swap array i _) as [array'|]; [|done]. simpl.
  apply IH. intros k Hk. apply H. lia.
Qed.

Lemma counted_loop_draws (rnd rnd' : nat → Q) remaining i (array : list A) calls :
  (∀ k : nat, (calls ≤ k < calls + remaining)%nat → (rnd k == rnd' k)%Q) →
  Counted.shuffle_loop rnd remaining i array calls
  = Counted.shuffle_loop rnd' remaining i array calls.
Proof.
  revert calls i array. induction remaining as [|remaining IH]; intros calls i array H; [done|].
  simpl. rewrite (randomInt_Qeq 0 (i + 1) _ (rnd' calls)) by (apply H; lia).
  destruct (swap array i _) as [array'|]; [|done].
  apply IH. intros k Hk. apply H. lia.
Qed.

Lemma counted_loop_result rnd remaining i (array : list A) calls :
  (Counted.shuffle_loop rnd remaining i array calls).1
  = shuffle_loop rnd calls remaining i array.
Proof.
  revert i array calls. induction remaining as [|remaining IH]; intros i array calls; [done|].
  simpl. destruct (swap array i _) as [array'|]; simpl; [apply IH|done].
Qed.

Lemma counted_loop_calls rnd remaining i (array : list A) calls :
  is_Some (shuffle_loop rnd calls remaining i array) →
  (Counted.shuffle_loop rnd remaining i array calls).2 = (calls + remaining)%nat.
Proof.
  revert i array calls. induction remaining as [|remaining IH]; intros i array calls; simpl.
  - intros _. lia.
  - destruct (swap array i _) as [array'|]; simpl; [|by intros [? [=]]].
    intros H%IH. rewrite H. lia.
Qed.

Lemma shuffle_loop_shift rnd calls c remaining i (array : list A) :
  shuffle_loop rnd (calls + c) remaining i array
  = shuffle_loop (λ k, rnd (calls + k)%nat) c remaining i array.
Proof.
  revert c i array. induction remaining as [|remaining IH]; intros c i array; [done|].
  simpl. destruct (swap array i _) as [array'|]; simpl; [|done].
  rewrite <- IH. by rewrite Nat.add_succ_r.
Qed.

Lemma drawn_in_range rnd calls remaining :
  (∀ k : nat, (calls ≤ k < calls + remaining)%nat → unit_draw (rnd k)) →
  draws_upto (drawn rnd calls remaining 1).
Proof.
  intros Hrnd k j Hk. pose proof (lookup_lt_Some _ _ _ Hk) as Hlt.
  rewrite drawn_length in Hlt. rewrite drawn_lookup in Hk by done. injection Hk as <-.
  pose proof (randomInt_bounds (1 + Z.of_nat k) (rnd (calls + k)%nat) ltac:(lia)
                (Hrnd (calls + k)%nat ltac:(lia))).
  lia.
Qed.

(** X13. The shuffle of an array of length [n] calls [Math.random()]
    exactly [n - 1] times (not at all for [n <= 1]), and returns what the
    shuffle returns on the values of these calls.  No value that
    [Math.random()] returns later matters, and each of the [n - 1] values
    does: on an array without duplicates, two shuffles that end in the
    same order have drawn the same index at every step. *)
Theorem shuffle_uses_first_draws (rnd rnd' : nat → Q) (array : list A) (calls : nat) :
  let n := length array in
  let used := λ k : nat, (calls ≤ k < calls + (n - 1))%nat in
  (∀ k, used k → unit_draw (rnd k)) →
  (∃ array', Counted.shuffle rnd array calls = (Some array', (calls + (n - 1))%nat) ∧
             shuffle (λ k, rnd (calls + k)%nat) array = Some array') ∧
  ((∀ k, used k → (rnd k == rnd' k)%Q) →
     Counted.shuffle rnd' array calls = Counted.shuffle rnd array calls) ∧
  (NoDup array → (∀ k, used k → unit_draw (rnd' k)) →
     (Counted.shuffle rnd' array calls).1 = (Counted.shuffle rnd array calls).1 →
     ∀ k, used k →
       randomInt 0 (Z.of_nat (k - calls) + 2) (rnd' k)
       = randomInt 0 (Z.of_nat (k - calls) + 2) (rnd k)).
Proof.
  intros n used Hrnd.
  assert (Hvalid : ∀ r, (∀ k, used k → unit_draw (r k)) →
            valid_draws n (drawn r calls (n - 1) 1)).
  { intros r Hr. split; [apply drawn_length|]. by apply drawn_in_range. }
  assert (Hrun : ∀ r, (∀ k, used k → unit_draw (r k)) →
            ∃ p, swaps 1 (drawn r calls (n - 1) 1) array = Some p ∧
                 Counted.shuffle r array calls = (Some p, (calls + (n - 1))%nat)).
  { intros r Hr. destruct (swaps_total _ array (Hvalid r Hr)) as (p & Hp & _).
    exists p. split; [done|]. unfold Counted.shuffle. fold n.
    rewrite (surjective_pairing (Counted.shuffle_loop r (n - 1) 1 array calls)).
    rewrite counted_loop_result, counted_loop_calls, shuffle_loop_swaps, Hp; [done|].
    rewrite shuffle_loop_swaps, Hp. by eexists. }
  split; [|split].
  - destruct (Hrun rnd Hrnd) as (p & Hp & Hc). exists p. split; [done|].
    unfold shuffle. fold n. rewrite <- shuffle_loop_shift, Nat.add_0_r, shuffle_loop_swaps.
    done.
  - intros Heq. unfold Counted.shuffle. fold n. symmetry. by apply counted_loop_draws.
  - intros Hnd Hrnd' Hsame k Hk.
    destruct (Hrun rnd Hrnd) as (p & Hp & Hc).
    destruct (Hrun rnd' Hrnd') as (p' & Hp' & Hc').
    rewrite Hc, Hc' in Hsame. simpl in Hsame. injection Hsame as ->.
    assert (Hjs : drawn rnd' calls (n - 1) 1 = drawn rnd calls (n - 1) 1).
    { destruct (Hvalid rnd Hrnd) as [_ Hup]. destruct (Hvalid rnd' Hrnd') as [_ Hup'].
      apply (swaps_injective _ _ array p); [done|done|done| | |done|done].
      - by rewrite !drawn_length.
      - rewrite drawn_length. unfold used, n in *. lia. }
    apply (f_equal (λ js, js !! (k - calls)%nat)) in Hjs. unfold used in Hk.
    rewrite !drawn_lookup in Hjs by lia. injection Hjs as Hjs.
    replace (calls + (k - calls))%nat with k in Hjs by lia.
    by replace (1 + Z.of_nat (k - calls) + 1) with (Z.of_nat (k - calls) + 2) in Hjs by lia.
Qed.

End DrawsOfShuffle.

Lemma shuffle_uses_first_draws_witness :
  Counted.shuffle (λ _, 1 # 2)%Q [10; 20; 30] 5%nat = (Some [10; 30; 20], 7%nat).
Proof.
  destruct (shuffle_uses_first_draws (λ _, 1 # 2)%Q (λ _, 1 # 2)%Q [10; 20; 30] 5%nat)
    as [(array' & Hcounted & Hshuffle) _].
  - intros k _. split; [discriminate|reflexivity].
  - rewrite Hcounted. f_equal. f_equal. by injection Hshuffle.
Defined.

(** ** [sleep]: the timer fires *)

Section SleepResolves.
Import Js Sleep Sleeping.







End SleepResolves.


(** ** [returnOnAbort] *)

(** The tests on signals and listeners of a host, decided one at a
    time. *)
Ltac decide_all :=
  repeat (simpl; rewrite ?filter_cons, ?filter_nil;
          match goal with
          | |- context [decide ?P] =>
              destruct (decide P); try (exfalso; intuition congruence)
          end);
  simpl.

Section ReturnOnAbort.
Import Js Signals.
Local Open Scope nat_scope.


(** X16. [returnOnAbort(signal)] does not look at [signal.aborted]: called
    with a [signal] that is aborted already, it adds a listener for an
    event that has been dispatched, so that the promise stays pending
    whatever is aborted again on [signal]; only [cancelSignal] settles it
    (rejected with [AbortedError], the listener removed), and without a
    [cancelSignal] the promise never settles.  Called with a
    [cancelSignal] that is aborted already, it is rejected at once and
    adds no listener to [signal].  ([makeAbortablePromise] is modelled
    from the specification: its source is not among the files.) *)
Theorem returnOnAbort_after_abort (signal cancel : Signal) (r : Value) :
  signal ≠ cancel →
  (let h0 := abort signal r fresh in
   let future := (returnOnAbort signal (Some cancel) h0).1 in
   let h1 := (returnOnAbort signal (Some cancel) h0).2 in
   settled h1 future = None ∧
   (∀ r', abort signal r' h1 = h1) ∧
   (∀ r', settled (abort cancel r' h1) future = Some (Rejected AbortedError) ∧
          listeners (abort cancel r' h1) = [])) ∧
  (let h0 := abort signal r fresh in
   let future := (returnOnAbort signal None h0).1 in
   let h1 := (returnOnAbort signal None h0).2 in
   settled h1 future = None ∧
   listeners h1 = [(signal, 0, ResolveWithReason future signal)] ∧
   ∀ r', abort signal r' h1 = h1) ∧
  (let h0 := abort cancel r fresh in
   let future := (returnOnAbort signal (Some cancel) h0).1 in
   let h1 := (returnOnAbort signal (Some cancel) h0).2 in
   settled h1 future = Some (Rejected AbortedError) ∧ listeners h1 = []).
Proof.
  intros Hne. split_and!; try intros r'.
  all: unfold returnOnAbort, makeAbortablePromise, is_aborted, abort, dispatch.
  all: decide_all; done.
Qed.

End ReturnOnAbort.


Lemma returnOnAbort_after_abort_witness :
  Signals.settled
    (Signals.returnOnAbort 7%nat None (Signals.abort 7%nat (Js.Str "stop") Signals.fresh)).2
    0%nat
  = None.
Proof.
  destruct (returnOnAbort_after_abort 7%nat 8%nat (Js.Str "stop")) as (_ & H & _); [lia|].
  apply H.
Defined.
